(** * Rock, Paper, Scissors: wire codec, scoring, start-up and client prompt

    A shallow embedding of the Go sources

    - [internal/rps/library.go]  (codec, error texts, [NewServer],
                                  [determineOutcome], [outcomeString]),
    - [cmd/server/main.go]       ([NewGameManager], [main]),
    - [cmd/client/main.go]       ([Start], [promptNickname], [gameLoop],
                                  [promptChoice]),

    together with the part of the Go runtime and standard library these
    functions call: strings are byte sequences, [range] decodes UTF-8,
    [strings.Builder.WriteRune] encodes it, [strings.TrimSpace],
    [strings.ToLower], [strconv.Atoi], [net.JoinHostPort] and buffered
    channels.

    A Go [string] is a Rocq [string]: both are sequences of 8-bit bytes, and
    a literal written in this (UTF-8) file denotes the same bytes as the Go
    literal.  Go's [int], [rune] and [byte] values are integers in [Z]; the
    truncation of a conversion such as [byte(r)] is written out. *)

From Stdlib Require Import ZArith String Ascii List Bool Lia.
From Equations Require Import Equations.
Import ListNotations.

Open Scope string_scope.
Open Scope Z_scope.

(** ** Go strings and UTF-8 *)

Module Go.

(** The value of the byte [c] as an integer in [0, 255]. *)
Definition byte_val (c : ascii) : Z := Z.of_N (N_of_ascii c).

(** The conversion [byte(x)]: the low eight bits of [x]. *)
Definition byte (x : Z) : ascii := ascii_of_N (Z.to_N (x mod 256)).

(** [len(s)]. *)
Definition len (s : string) : Z := Z.of_nat (String.length s).

(** The slice expression [s[lo:hi]] for [0 <= lo <= hi <= len(s)]
    (outside that range Go panics; no caller below leaves it). *)
Definition slice (s : string) (lo hi : Z) : string :=
  substring (Z.to_nat lo) (Z.to_nat (hi - lo)) s.

(** The index expression [s[i]] for [0 <= i < len(s)], as an integer. *)
Definition at_ (s : string) (i : Z) : Z :=
  match String.get (Z.to_nat i) s with
  | Some c => byte_val c
  | None => 0
  end.

(** *** Package [unicode/utf8] *)

Definition RuneError : Z := 0xFFFD.
Definition RuneSelf : Z := 0x80.
Definition MaxRune : Z := 0x10FFFF.
Definition UTFMax : Z := 4.

Definition surrogateMin : Z := 0xD800.
Definition surrogateMax : Z := 0xDFFF.

Definition t2 : Z := 0xC0.
Definition t3 : Z := 0xE0.
Definition t4 : Z := 0xF0.
Definition tx : Z := 0x80.
Definition maskx : Z := 0x3F.
Definition mask2 : Z := 0x1F.
Definition mask3 : Z := 0x0F.
Definition mask4 : Z := 0x07.

Definition rune1Max : Z := 0x7F.
Definition rune2Max : Z := 0x7FF.
Definition rune3Max : Z := 0xFFFF.

Definition locb : Z := 0x80.
Definition hicb : Z := 0xBF.

(** Conversions [uint32(r)] and [int32(x)] of a 32-bit value. *)
Definition uint32 (r : Z) : Z := r mod 2 ^ 32.
Definition int32 (x : Z) : Z := (x + 2 ^ 31) mod 2 ^ 32 - 2 ^ 31.

(** The table [first] with [acceptRanges]: for a lead byte at or above
    [RuneSelf], the length of the sequence and the range accepted for its
    second byte; [None] is the entry [xx] of an illegal lead byte. *)
Definition first (s0 : Z) : option (Z * Z * Z) :=
  if s0 <? 0xC2 then None
  else if s0 <=? 0xDF then Some (2, locb, hicb)
  else if s0 =? 0xE0 then Some (3, 0xA0, hicb)
  else if s0 <=? 0xEC then Some (3, locb, hicb)
  else if s0 =? 0xED then Some (3, locb, 0x9F)
  else if s0 <=? 0xEF then Some (3, locb, hicb)
  else if s0 =? 0xF0 then Some (4, 0x90, hicb)
  else if s0 <=? 0xF3 then Some (4, locb, hicb)
  else if s0 =? 0xF4 then Some (4, locb, 0x8F)
  else None.

(** [utf8.DecodeRuneInString]: the first rune of [s] and its width in
    bytes; an illegal or truncated sequence gives [(RuneError, 1)]. *)
Definition DecodeRuneInString (s : string) : Z * Z :=
  match s with
  | "" => (RuneError, 0)
  | String c0 _ =>
    let s0 := byte_val c0 in
    if s0 <? RuneSelf then (s0, 1) else
    match first s0 with
    | None => (RuneError, 1)
    | Some (sz, lo, hi) =>
      if len s <? sz then (RuneError, 1) else
      let s1 := at_ s 1 in
      if (s1 <? lo) || (hi <? s1) then (RuneError, 1) else
      if sz <=? 2 then
        (Z.lor (Z.shiftl (Z.land s0 mask2) 6) (Z.land s1 maskx), 2)
      else
      let s2 := at_ s 2 in
      if (s2 <? locb) || (hicb <? s2) then (RuneError, 1) else
      if sz <=? 3 then
        (Z.lor (Z.lor (Z.shiftl (Z.land s0 mask3) 12)
                      (Z.shiftl (Z.land s1 maskx) 6))
               (Z.land s2 maskx), 3)
      else
      let s3 := at_ s 3 in
      if (s3 <? locb) || (hicb <? s3) then (RuneError, 1) else
        (Z.lor (Z.lor (Z.lor (Z.shiftl (Z.land s0 mask4) 18)
                             (Z.shiftl (Z.land s1 maskx) 12))
                      (Z.shiftl (Z.land s2 maskx) 6))
               (Z.land s3 maskx), 4)
    end
  end.

(** The three-byte form, which [utf8.AppendRune] also uses for [RuneError]
    in place of a rune it cannot encode. *)
Definition encode3 (r : Z) : string :=
  String (byte (Z.lor t3 (Z.shiftr r 12)))
  (String (byte (Z.lor tx (Z.land (Z.shiftr r 6) maskx)))
  (String (byte (Z.lor tx (Z.land r maskx))) "")).

(** The bytes [utf8.AppendRune] appends for the rune [r]: a negative rune,
    a surrogate or a value above [MaxRune] is written as [RuneError]. *)
Definition EncodeRune (r : Z) : string :=
  let i := uint32 r in
  if i <=? rune1Max then String (byte r) ""
  else if i <=? rune2Max then
    String (byte (Z.lor t2 (Z.shiftr r 6)))
    (String (byte (Z.lor tx (Z.land r maskx))) "")
  else if (MaxRune <? i) || ((surrogateMin <=? i) && (i <=? surrogateMax))
  then encode3 RuneError
  else if i <=? rune3Max then encode3 r
  else
    String (byte (Z.lor t4 (Z.shiftr r 18)))
    (String (byte (Z.lor tx (Z.land (Z.shiftr r 12) maskx)))
    (String (byte (Z.lor tx (Z.land (Z.shiftr r 6) maskx)))
    (String (byte (Z.lor tx (Z.land r maskx))) ""))).

(** [utf8.ValidRune]: [r] can be encoded, that is, it lies in the range of
    Unicode and is no surrogate half. *)
Definition ValidRune (r : Z) : bool :=
  if (0 <=? r) && (r <? surrogateMin) then true
  else if (surrogateMax <? r) && (r <=? MaxRune) then true
  else false.

Definition AppendRune (p : string) (r : Z) : string := p ++ EncodeRune r.

(** [strings.Builder.WriteRune] on the builder's contents. *)
Definition WriteRune (b : string) (r : Z) : string := AppendRune b r.

(** The conversion [string(rs)] of a slice of runes. *)
Definition string_of_runes (rs : list Z) : string :=
  fold_left WriteRune rs "".

(** [for i, r := range s]: the pairs (byte offset, rune) the loop visits;
    the runtime decodes each rune as [utf8.DecodeRuneInString] does.
    [skip] counts the bytes of the current rune still to be passed over;
    the loop of the language starts with [skip = 0] at offset [0]. *)
Fixpoint range_from (skip : nat) (off : Z) (s : string) : list (Z * Z) :=
  match s with
  | "" => []
  | String _ rest =>
    match skip with
    | S k => range_from k (off + 1) rest
    | O =>
      let (r, w) := DecodeRuneInString s in
      (off, r) :: range_from (Z.to_nat w - 1) (off + 1) rest
    end
  end.

Definition range (s : string) : list (Z * Z) := range_from 0 0 s.

(** The runes of [s] in order, as [for _, r := range s] sees them. *)
Definition runes (s : string) : list Z := map snd (range s).

(** *** Package [unicode] *)

Definition MaxLatin1 : Z := 0xFF.

(** [unicode.IsSpace]: the Latin-1 cases of the function, then the ranges
    of the table [White_Space] above Latin-1. *)
Definition IsSpace (r : Z) : bool :=
  if uint32 r <=? MaxLatin1 then
    (r =? 0x09) || (r =? 0x0A) || (r =? 0x0B) || (r =? 0x0C) || (r =? 0x0D)
    || (r =? 0x20) || (r =? 0x85) || (r =? 0xA0)
  else
    (r =? 0x1680) || ((0x2000 <=? r) && (r <=? 0x200A))
    || ((0x2028 <=? r) && (r <=? 0x2029)) || (r =? 0x202F) || (r =? 0x205F)
    || (r =? 0x3000).

(** *** Backwards decoding *)

(** [utf8.RuneStart]: [b] is not a continuation byte. *)
Definition RuneStart (b : Z) : bool := negb (Z.land b 0xC0 =? 0x80).

(** The loop [for start--; start >= lim; start-- { if RuneStart(s[start])
    { break } }], entered after the first decrement with [k] iterations
    left before [start] falls below [lim]. *)
Fixpoint scan_back (s : string) (k : nat) (start : Z) : Z :=
  match k with
  | O => start
  | S k' => if RuneStart (at_ s start) then start
            else scan_back s k' (start - 1)
  end.

(** [utf8.DecodeLastRuneInString]. *)
Definition DecodeLastRuneInString (s : string) : Z * Z :=
  let end_ := len s in
  if end_ =? 0 then (RuneError, 0) else
  let start := end_ - 1 in
  let r := at_ s start in
  if r <? RuneSelf then (r, 1) else
  let lim := Z.max (end_ - UTFMax) 0 in
  let start := scan_back s (Z.to_nat (start - lim)) (start - 1) in
  let start := if start <? 0 then 0 else start in
  let (r, size) := DecodeRuneInString (slice s start end_) in
  if negb (start + size =? end_) then (RuneError, 1) else (r, size).

(** *** Package [strings] *)

(** [indexFunc]: the offset of the first rune [r] of [s] with
    [f(r) == truth], or [-1]. *)
Fixpoint first_offset (f : Z -> bool) (truth : bool) (l : list (Z * Z)) : Z :=
  match l with
  | [] => -1
  | (i, r) :: l' => if Bool.eqb (f r) truth then i else first_offset f truth l'
  end.

Definition indexFunc (s : string) (f : Z -> bool) (truth : bool) : Z :=
  first_offset f truth (range s).

(** [lastIndexFunc]: the loop [for i := len(s); i > 0; ] at [i = n], where
    [skip] bytes of the rune decoded last are still to be stepped over
    ([i -= size] is [size] single steps). *)
Fixpoint lastIndexFunc_from (s : string) (f : Z -> bool) (truth : bool)
         (skip n : nat) : Z :=
  match n with
  | O => -1
  | S n' =>
    match skip with
    | S k => lastIndexFunc_from s f truth k n'
    | O =>
      let (r, size) := DecodeLastRuneInString (slice s 0 (Z.of_nat n)) in
      if Bool.eqb (f r) truth then Z.of_nat n - size
      else lastIndexFunc_from s f truth (Z.to_nat size - 1) n'
    end
  end.

Definition lastIndexFunc (s : string) (f : Z -> bool) (truth : bool) : Z :=
  lastIndexFunc_from s f truth 0 (String.length s).

Definition TrimLeftFunc (s : string) (f : Z -> bool) : string :=
  let i := indexFunc s f false in
  if i =? -1 then "" else slice s i (len s).

Definition TrimRightFunc (s : string) (f : Z -> bool) : string :=
  let i := lastIndexFunc s f false in
  let i := if (0 <=? i) && (RuneSelf <=? at_ s i)
           then i + snd (DecodeRuneInString (slice s i (len s)))
           else i + 1 in
  slice s 0 i.

Definition TrimFunc (s : string) (f : Z -> bool) : string :=
  TrimRightFunc (TrimLeftFunc s f) f.

(** The table [asciiSpace]. *)
Definition asciiSpace (c : Z) : bool :=
  (c =? 0x09) || (c =? 0x0A) || (c =? 0x0B) || (c =? 0x0C) || (c =? 0x0D)
  || (c =? 0x20).

(** The second loop of [TrimSpace], over [stop], on [s[start:]]. *)
Fixpoint TrimSpace_stop (s : string) (stop : nat) : string :=
  match stop with
  | O => slice s 0 0
  | S k =>
    let c := at_ s (Z.of_nat k) in
    if RuneSelf <=? c then TrimRightFunc (slice s 0 (Z.of_nat stop)) IsSpace
    else if asciiSpace c then TrimSpace_stop s k
    else slice s 0 (Z.of_nat stop)
  end.

(** [strings.TrimSpace]: the first loop advances [start] over ASCII space
    and hands over to the Unicode-aware functions at the first byte at or
    above [RuneSelf]; the argument here is [s[start:]]. *)
Fixpoint TrimSpace (s : string) : string :=
  match s with
  | "" => ""
  | String c0 rest =>
    let c := byte_val c0 in
    if RuneSelf <=? c then TrimFunc s IsSpace
    else if asciiSpace c then TrimSpace rest
    else TrimSpace_stop s (String.length s)
  end.

(** [strings.HasPrefix]. *)
Definition HasPrefix (s pre : string) : bool :=
  (len pre <=? len s) && (slice s 0 (len pre) =? pre)%string.

(** [strings.Split(s, sep)] for a separator of one byte: [cur] collects the
    piece being read. *)
Fixpoint Split_from (sep : ascii) (cur s : string) : list string :=
  match s with
  | "" => [cur]
  | String c rest =>
    if Ascii.eqb c sep then cur :: Split_from sep "" rest
    else Split_from sep (cur ++ String c "") rest
  end.

Definition Split (s : string) (sep : ascii) : list string :=
  Split_from sep "" s.

(** [strings.ToLower].  A string of ASCII bytes is lowered byte by byte;
    any other string goes through [strings.Map(unicode.ToLower, s)], whose
    case tables are data of the Go distribution: that path is the parameter
    [mapToLower]. *)
Definition isUpperASCII (c : Z) : bool := (0x41 <=? c) && (c <=? 0x5A).

Fixpoint scanASCII (s : string) (hasUpper : bool) : bool * bool :=
  match s with
  | "" => (true, hasUpper)
  | String c0 rest =>
    let c := byte_val c0 in
    if RuneSelf <=? c then (false, hasUpper)
    else scanASCII rest (hasUpper || isUpperASCII c)
  end.

Fixpoint lowerASCII (s : string) : string :=
  match s with
  | "" => ""
  | String c0 rest =>
    let c := byte_val c0 in
    String (if isUpperASCII c then byte (c + (0x61 - 0x41)) else c0)
           (lowerASCII rest)
  end.

Definition ToLower (mapToLower : string -> string) (s : string) : string :=
  let (isASCII, hasUpper) := scanASCII s false in
  if isASCII then (if negb hasUpper then s else lowerASCII s)
  else mapToLower s.

(** *** Package [strconv] *)

Inductive NumError : Type := ErrSyntax | ErrRange.

(** The digit loop of [ParseUint(s, 10, 64)]: [n] is the value read so
    far. *)
Fixpoint ParseUint_loop (s : string) (n : Z) : Z + NumError :=
  match s with
  | "" => inl n
  | String c0 rest =>
    let c := byte_val c0 in
    if (0x30 <=? c) && (c <=? 0x39) then
      if (2 ^ 64 - 1) / 10 + 1 <=? n then inr ErrRange
      else
        let n1 := n * 10 + (c - 0x30) in
        if 2 ^ 64 - 1 <? n1 then inr ErrRange else ParseUint_loop rest n1
    else inr ErrSyntax
  end.

Definition ParseUint (s : string) : Z + NumError :=
  match s with
  | "" => inr ErrSyntax
  | _ => ParseUint_loop s 0
  end.

(** [ParseInt(s, 10, 0)] where [int] has 64 bits. *)
Definition ParseInt (s : string) : Z + NumError :=
  match s with
  | "" => inr ErrSyntax
  | String c0 rest =>
    let neg := Ascii.eqb c0 "-" in
    let s' := if Ascii.eqb c0 "+" || neg then rest else s in
    match ParseUint s' with
    | inr e => inr e
    | inl un =>
      let cutoff := 2 ^ 63 in
      if negb neg && (cutoff <=? un) then inr ErrRange
      else if neg && (cutoff <? un) then inr ErrRange
      else inl (if neg then - un else un)
    end
  end.

(** The digit loop of the fast path of [Atoi]: [ch -= '0'] is computed on
    a byte, so a byte below ['0'] wraps around above [9]. *)
Fixpoint Atoi_loop (s : string) (n : Z) : Z + NumError :=
  match s with
  | "" => inl n
  | String c0 rest =>
    let ch := (byte_val c0 - 0x30) mod 256 in
    if 9 <? ch then inr ErrSyntax else Atoi_loop rest (n * 10 + ch)
  end.

(** [strconv.Atoi] where [int] has 64 bits. *)
Definition Atoi (s : string) : Z + NumError :=
  let sLen := len s in
  if (0 <? sLen) && (sLen <? 19) then
    let neg := (at_ s 0 =? 0x2D) in
    let s' := if neg || (at_ s 0 =? 0x2B) then slice s 1 (len s) else s in
    if len s' <? 1 then inr ErrSyntax
    else match Atoi_loop s' 0 with
         | inr e => inr e
         | inl n => inl (if neg then - n else n)
         end
  else ParseInt s.

(** *** Buffered channels *)

(** A channel made by [make(chan A, n)]: its capacity and the elements
    buffered, oldest first. *)
Record Chan (A : Type) : Type := mkChan { cap : Z; buf : list A }.
Arguments mkChan {A} _ _.
Arguments cap {A} _.
Arguments buf {A} _.

Definition make_chan (A : Type) (n : Z) : Chan A := mkChan n [].

(** *** Connections and package [bufio] *)

(** A [net.Conn] seen from one end: [incoming] lists what the successive
    calls of [Read] will deliver before the peer's end of stream (a read
    may bring no data), [written] is what [Write] has sent so far, and
    [broken] tells whether [Write] fails. *)
Record Conn : Type :=
  mkConn { incoming : list string; written : string; broken : bool }.

Definition newline : ascii := "010"%char.

(** The offset one past the first [delim] in [s], if there is one. *)
Fixpoint after_delim (delim : ascii) (s : string) : option Z :=
  match s with
  | "" => None
  | String c rest =>
    if Ascii.eqb c delim then Some 1
    else option_map Z.succ (after_delim delim rest)
  end.

(** [maxConsecutiveEmptyReads] of package [bufio]. *)
Definition maxConsecutiveEmptyReads : nat := 100.

(** The reads of [bufio.Reader.ReadString(delim)].  The reader fills its
    buffer by [fill], which calls [Read] until a read brings data and gives
    up with [io.ErrNoProgress] when [maxConsecutiveEmptyReads] reads in a
    row have brought none; [tries] is the number of reads the running call
    of [fill] has left.  The reading ends at the first read whose data
    holds [delim]: what that read brought after the delimiter stays in the
    reader.  [acc] is what earlier reads gave.  [None] is the error of the
    reader: [io.EOF] at the end of the stream and [io.ErrNoProgress], which
    leaves the reads after the last empty one on the connection. *)
Fixpoint ReadString_fill (tries : nat) (delim : ascii) (acc : string)
         (chunks : list string) : option string * list string :=
  match chunks with
  | [] => (None, [])
  | c :: rest =>
    match c with
    | "" =>
      match tries with
      | S (S k) => ReadString_fill (S k) delim acc rest
      | _ => (None, rest)
      end
    | String _ _ =>
      match after_delim delim c with
      | Some i => (Some (acc ++ slice c 0 i), rest)
      | None =>
          ReadString_fill maxConsecutiveEmptyReads delim (acc ++ c) rest
      end
    end
  end.

(** [bufio.NewReader(conn).ReadString(delim)] on a reader made for this one
    call, which the caller drops with what it still holds. *)
Definition ReadString_conn (delim : ascii) (acc : string)
           (chunks : list string) : option string * list string :=
  ReadString_fill maxConsecutiveEmptyReads delim acc chunks.

(** [reader.ReadString(delim)] on a reader that lives across calls (the
    client's reader of standard input): the line with its delimiter and
    what is left to read; [None] is [io.EOF] before a delimiter. *)
Fixpoint ReadString (delim : ascii) (input : string)
  : option (string * string) :=
  match input with
  | "" => None
  | String c rest =>
    if Ascii.eqb c delim then Some (String c "", rest)
    else match ReadString delim rest with
         | Some (line, rest') => Some (String c line, rest')
         | None => None
         end
  end.

(** The default buffer size of [bufio.NewWriter]. *)
Definition defaultBufSize : Z := 4096.

(** *** Package [net] *)

(** [net.JoinHostPort]: a host with a colon in it is taken for a literal
    IPv6 address and put in brackets. *)
Definition JoinHostPort (host port : string) : string :=
  match after_delim ":" host with
  | Some _ => "[" ++ host ++ "]:" ++ port
  | None => host ++ ":" ++ port
  end.

End Go.

(** ** [internal/rps/library.go] *)

Module Rps.
Import Go.

(** The error values of the package: the two error types it declares, the
    [errors.New] value of [ReceiveMessage], and the [fmt.Errorf] wrappers
    around a failed [ReadString], [WriteString] and [Flush]. *)
Inductive error : Type :=
| InvalidHeaderError (Received : string)
| InvalidFooterError (Received : string)
| ErrTooShort
| ErrRead
| ErrWrite
| ErrFlush.

(** The methods [Error] of the two error types:
    [fmt.Sprintf("invalid header: expected ⚠, got %s", e.Received)] and its
    counterpart for the footer. *)
Definition InvalidHeaderError_Error (Received : string) : string :=
  "invalid header: expected ⚠, got " ++ Received.

Definition InvalidFooterError_Error (Received : string) : string :=
  "invalid footer: expected ☠, got " ++ Received.

(** [Encrypt] shifts each character in the message by 3 positions. *)
Definition Encrypt (msg : string) : string :=
  fold_left (fun encrypted char => WriteRune encrypted (int32 (char + 3)))
            (runes msg) "".

(** [Decrypt] shifts each character in the message by -3 positions. *)
Definition Decrypt (msg : string) : string :=
  fold_left (fun decrypted char => WriteRune decrypted (int32 (char - 3)))
            (runes msg) "".

(** ["⚠"] and ["☠"]: three bytes each. *)
Definition header : string := "⚠".
Definition footer : string := "☠".

(** The string [fmt.Sprintf("%s%s%s\n", header, encryptedMsg, footer)]. *)
Definition frame (encryptedMsg : string) : string :=
  header ++ encryptedMsg ++ footer ++ String newline "".

(** [SendMessage].  A message that fits the writer's buffer reaches the
    connection in [Flush]; a longer one is already written, buffer by
    buffer, inside [WriteString]. *)
Definition SendMessage (conn : Conn) (msg : string) : Conn * option error :=
  let encryptedMsg := Encrypt msg in
  let fullMsg := frame encryptedMsg in
  if broken conn then
    (conn, Some (if defaultBufSize <? len fullMsg then ErrWrite else ErrFlush))
  else
    (mkConn (incoming conn) (written conn ++ fullMsg) (broken conn), None).

(** [ReceiveMessage]. *)
Definition ReceiveMessage (conn : Conn) : (string + error) * Conn :=
  match ReadString_conn newline "" (incoming conn) with
  | (None, rest) => (inr ErrRead, mkConn rest (written conn) (broken conn))
  | (Some msg, rest) =>
    let conn := mkConn rest (written conn) (broken conn) in
    let msg := TrimSpace msg in
    if len msg <? 2 then (inr ErrTooShort, conn) else
    let header := slice msg 0 1 in
    let footer := slice msg (len msg - 1) (len msg) in
    let content := slice msg 1 (len msg - 1) in
    if negb (header =? "⚠")%string
    then (inr (InvalidHeaderError header), conn)
    else if negb (footer =? "☠")%string
    then (inr (InvalidFooterError footer), conn)
    else (inl (Decrypt content), conn)
  end.

(** [Server]; [wg] is the counter of the [sync.WaitGroup]. *)
Record Server : Type := mkServer {
  Rounds : Z;
  Port : string;
  WaitingPlayers : Chan Conn;
  Quit : Chan unit;
  wg : Z
}.

(** [NewServer]. *)
Definition NewServer (rounds : Z) (port : string) : Server :=
  mkServer rounds port (make_chan Conn 100) (make_chan unit 1) 0.

(** [determineOutcome]: the increments for Player1 and Player2.  A first
    choice that matches no [case] leaves both results at the zero value. *)
Definition determineOutcome (p1Choice p2Choice : string) : Z * Z :=
  if (p1Choice =? p2Choice)%string then (0, 0)
  else if (p1Choice =? "rock")%string then
    if (p2Choice =? "scissors")%string then (1, -1) else (-1, 1)
  else if (p1Choice =? "paper")%string then
    if (p2Choice =? "rock")%string then (1, -1) else (-1, 1)
  else if (p1Choice =? "scissors")%string then
    if (p2Choice =? "paper")%string then (1, -1) else (-1, 1)
  else (0, 0).

(** [outcomeString]. *)
Definition outcomeString (score : Z) : string :=
  if score =? 1 then "win" else if score =? -1 then "lose" else "draw".

End Rps.

(** ** [cmd/server/main.go] *)

Module ServerMain.
Import Go.

(** [rps.GameManager], as far as the composite literal of
    [NewGameManager] shows it: [wg] is the counter of the wait group and
    [ctx] tells whether the context made by [context.WithCancel] has been
    cancelled. *)
Record GameManager : Type := mkGameManager {
  WaitingPlayers : Chan Conn;
  Rounds : Z;
  wg : Z;
  ctx : bool
}.

(** [NewGameManager]. *)
Definition NewGameManager (rounds : Z) : GameManager :=
  mkGameManager (make_chan Conn 100) rounds 0 false.

(** How [main] leaves argument handling: [os.Exit(1)] after the usage line
    on standard output, [log.Fatalf] (which logs and calls [os.Exit(1)])
    with the value of [err], or the call of [server.Start] on the new
    server. *)
Inductive Startup : Type :=
| Usage (stdout : string) (status : Z)
| Fatal (err : option NumError) (status : Z)
| Start (server : Rps.Server).

(** [main], with [os.Args] as its argument. *)
Definition main (Args : list string) : Startup :=
  if Z.of_nat (List.length Args) <? 3 then
    Usage ("Usage: " ++ nth 0 Args "" ++ " <number_of_rounds> <port>"
           ++ String newline "") 1
  else
    match Atoi (nth 1 Args "") with
    | inr err => Fatal (Some err) 1
    | inl rounds =>
      if rounds <=? 0 then Fatal None 1
      else Start (Rps.NewServer rounds (nth 2 Args ""))
    end.

End ServerMain.

(** ** [cmd/client/main.go] *)

Module ClientMain.
Import Go.

(** [Client]. *)
Record Client : Type := mkClient {
  Conn : Go.Conn;
  Hostname : string;
  Port : string
}.

(** What a method of the client works on: the client, what is left to read
    from the [bufio.Reader] over standard input, and what has been printed
    on standard output. *)
Record World : Type := mkWorld {
  client : Client;
  stdin : string;
  stdout : string
}.

(** The errors [promptChoice] and [gameLoop] return. *)
Inductive error : Type :=
| ErrReadChoice
| ErrSendChoice (e : Rps.error)
| ErrReceive (e : Rps.error).

Definition Print (w : World) (text : string) : World :=
  mkWorld (client w) (stdin w) (stdout w ++ text).

Definition Println (w : World) (text : string) : World :=
  Print w (text ++ String newline "").

Definition with_stdin (w : World) (input : string) : World :=
  mkWorld (client w) input (stdout w).

Definition with_conn (w : World) (conn : Go.Conn) : World :=
  mkWorld (mkClient conn (Hostname (client w)) (Port (client w)))
          (stdin w) (stdout w).

Definition inspect {A : Type} (a : A) : {b : A | a = b} := exist _ a eq_refl.

Definition choicePrompt : string := "Choose ('rock', 'paper', 'scissors'): ".
Definition choiceInvalid : string :=
  "Invalid choice. Please enter 'rock', 'paper', or 'scissors'.".

(** The test [choice != "rock" && choice != "paper" && choice != "scissors"]
    of [promptChoice]. *)
Definition invalidChoice (choice : string) : bool :=
  negb (choice =? "rock")%string && negb (choice =? "paper")%string
  && negb (choice =? "scissors")%string.

(** The errors [promptNickname] returns. *)
Inductive NicknameError : Type :=
| ErrReadNickname
| ErrSendNickname (e : Rps.error)
| ErrNicknameResponse (e : Rps.error).

Definition nicknamePrompt : string := "Enter a unique nickname: ".
Definition nicknameEmpty : string :=
  "Nickname cannot be empty. Please try again.".
Definition nicknameTaken : string :=
  "Nickname is not unique. Please choose another one.".
Definition nicknameAccepted : string :=
  "Nickname accepted. Game is starting...".

(** One turn of the loop of [promptNickname]: [inl] when the turn returns
    (the nickname or an error), [inr] when it ends in [continue]. *)
Definition nicknameTurn (w : World)
  : ((string + NicknameError) * World) + World :=
  let w0 := Print w nicknamePrompt in
  match ReadString newline (stdin w) with
  | None => inl (inr ErrReadNickname, with_stdin w0 "")
  | Some (line, rest) =>
    let w1 := with_stdin w0 rest in
    let nickname := TrimSpace line in
    if (nickname =? "")%string then inr (Println w1 nicknameEmpty)
    else
      match Rps.SendMessage (Conn (client w1)) nickname with
      | (conn2, Some e) => inl (inr (ErrSendNickname e), with_conn w1 conn2)
      | (conn2, None) =>
        match Rps.ReceiveMessage conn2 with
        | (inr e, conn3) =>
            inl (inr (ErrNicknameResponse e), with_conn w1 conn3)
        | (inl response, conn3) =>
          let w3 := with_conn w1 conn3 in
          if (response =? "RETRY")%string then inr (Println w3 nicknameTaken)
          else if (response =? "START")%string
          then inl (inl nickname, Println w3 nicknameAccepted)
          else inr (Println w3 ("Unexpected server response: " ++ response))
        end
      end
  end.

(** [promptNickname].  Every turn reads one line, so what is left of
    standard input gets shorter. *)
Equations? promptNickname (w : World) : (string + NicknameError) * World
  by wf (String.length (stdin w)) lt :=
promptNickname w with inspect (nicknameTurn w) := {
  | exist _ (inl result) _ => result
  | exist _ (inr w') _ => promptNickname w'
}.
Proof.
  assert (Hread : forall s line rest,
             ReadString newline s = Some (line, rest) ->
             (String.length rest < String.length s)%nat).
  { clear. induction s as [|c s IH]; simpl; intros line rest H;
      [discriminate|].
    destruct (Ascii.eqb c newline); [inversion H; subst; lia|].
    destruct (ReadString newline s) as [[l r]|]; [|discriminate].
    inversion H; subst. specialize (IH _ _ eq_refl). lia. }
  clear - e Hread. unfold nicknameTurn in e.
  destruct (ReadString newline (stdin w)) as [[line rest]|] eqn:Hr;
    [|discriminate].
  apply Hread in Hr.
  destruct (TrimSpace line =? "")%string;
    [inversion e; subst; simpl; exact Hr|].
  destruct (Rps.SendMessage _ _) as [conn2 [e2|]]; [discriminate|].
  destruct (Rps.ReceiveMessage conn2) as [[response|e3] conn3];
    [|discriminate].
  destruct (response =? "RETRY")%string;
    [inversion e; subst; simpl; exact Hr|].
  destruct (response =? "START")%string; [discriminate|].
  inversion e; subst; simpl; exact Hr.
Qed.

Section Prompt.

(** [strings.Map(unicode.ToLower, s)], see {!Go.ToLower}. *)
Variable mapToLower : string -> string.

(** [promptChoice]: each turn of the loop reads one line, so what is left
    of standard input gets shorter. *)
Equations? promptChoice (w : World) : (string + error) * World
  by wf (String.length (stdin w)) lt :=
promptChoice w with inspect (ReadString newline (stdin w)) := {
  | exist _ None _ =>
      (inr ErrReadChoice, with_stdin (Print w choicePrompt) "")
  | exist _ (Some (line, rest)) _
      with inspect (invalidChoice (TrimSpace (ToLower mapToLower line))) := {
      | exist _ true _ =>
          promptChoice
            (Println (with_stdin (Print w choicePrompt) rest) choiceInvalid)
      | exist _ false _ =>
          (inl (TrimSpace (ToLower mapToLower line)),
           with_stdin (Print w choicePrompt) rest)
    }
}.
Proof.
  simpl. clear - e.
  revert line rest e.
  induction (stdin w) as [|c s IH]; simpl; intros line rest H.
  - discriminate.
  - destruct (Ascii.eqb c newline).
    + inversion H; subst. lia.
    + destruct (ReadString newline s) as [[l r]|] eqn:E; [|discriminate].
      inversion H; subst. specialize (IH _ _ eq_refl). lia.
Qed.

(** The four fields of a round result, printed by
    [fmt.Printf("\n%s's choice: %s\nOutcome: %s\nRounds left: %s\n\n", ...)]. *)
Definition roundReport (enemyChoice outcome roundsLeft enemyNickname : string)
  : string :=
  String newline "" ++ enemyNickname ++ "'s choice: " ++ enemyChoice
  ++ String newline "" ++ "Outcome: " ++ outcome
  ++ String newline "" ++ "Rounds left: " ++ roundsLeft
  ++ String newline "" ++ String newline "".

(** One turn of the loop of [gameLoop]: [inl] when the turn leaves the
    loop, by [return] (with the error) or by [break] (with [None], the
    [nil] returned after the loop), [inr] when the loop goes round again. *)
Definition gameTurn (w : World) : (option error * World) + World :=
  match promptChoice w with
  | (inr err, w1) => inl (Some err, w1)
  | (inl choice, w1) =>
    match Rps.SendMessage (Conn (client w1)) choice with
    | (conn2, Some e) => inl (Some (ErrSendChoice e), with_conn w1 conn2)
    | (conn2, None) =>
      match Rps.ReceiveMessage conn2 with
      | (inr e, conn3) => inl (Some (ErrReceive e), with_conn w1 conn3)
      | (inl response, conn3) =>
        let w3 := with_conn w1 conn3 in
        if HasPrefix response "SCORE" then
          inl (None, Println w3 ("Final Score: " ++ response))
        else
          match Split response " " with
          | [enemyChoice; outcome; roundsLeft; enemyNickname] =>
            let w4 := Print w3 (roundReport enemyChoice outcome roundsLeft
                                            enemyNickname) in
            if (roundsLeft =? "0")%string then inl (None, w4) else inr w4
          | _ => inr (Println w3 ("Malformed round result: " ++ response))
          end
      end
    end
  end.

(** [gameLoop].  Every turn goes through [promptChoice], which reads at
    least one line, so what is left of standard input gets shorter. *)
Equations? gameLoop (w : World) : option error * World
  by wf (String.length (stdin w)) lt :=
gameLoop w with inspect (gameTurn w) := {
  | exist _ (inl result) _ => result
  | exist _ (inr w') _ => gameLoop w'
}.
Proof.
  assert (Hread : forall s line rest,
             ReadString newline s = Some (line, rest) ->
             (String.length rest < String.length s)%nat).
  { clear. induction s as [|c s IH]; simpl; intros line rest H;
      [discriminate|].
    destruct (Ascii.eqb c newline); [inversion H; subst; lia|].
    destruct (ReadString newline s) as [[l r]|]; [|discriminate].
    inversion H; subst. specialize (IH _ _ eq_refl). lia. }
  assert (Hprompt : forall v choice w1,
             promptChoice v = (inl choice, w1) ->
             (String.length (stdin w1) < String.length (stdin v))%nat).
  { clear - Hread. intros v. funelim (promptChoice v); intros choice w1 Hp.
    - discriminate.
    - match goal with
      | IH : _ -> forall _ _, _ -> (_ < _)%nat |- _ =>
          specialize (IH Hread _ _ Hp)
      end.
      match goal with
      | E : ReadString _ _ = Some _ |- _ => pose proof (Hread _ _ _ E)
      end.
      simpl in *. lia.
    - inversion Hp; subst. simpl. eapply Hread; eassumption. }
  clear - e Hprompt. unfold gameTurn in e.
  destruct (promptChoice w) as [[choice|err] w1] eqn:Hp; [|discriminate].
  apply Hprompt in Hp.
  destruct (Rps.SendMessage (Conn (client w1)) choice) as [conn2 [e2|]];
    [discriminate|].
  destruct (Rps.ReceiveMessage conn2) as [[response|e3] conn3];
    [|discriminate].
  destruct (HasPrefix response "SCORE"); [discriminate|].
  destruct (Split response " ") as [|p1 [|p2 [|p3 [|p4 [|p5 ps]]]]];
    try (inversion e; subst; simpl; exact Hp).
  destruct (p3 =? "0")%string; [discriminate|].
  inversion e; subst; simpl; exact Hp.
Qed.

(** The errors [Start] returns: its own three, and those of
    [promptNickname] and [gameLoop], which it hands on as they are. *)
Inductive StartError : Type :=
| ErrConnect (address : string)
| ErrInitial (e : Rps.error)
| ErrUnexpectedInitial (initialMsg : string)
| ErrNickname (e : NicknameError)
| ErrGame (e : error).

Definition connectedBanner : string :=
  "Connected to Rock, Paper, Scissors server.".
Definition gameOver : string := "Game over. Thanks for playing!".

(** [Start], in a run that no interrupt signal cuts short.  [dial] is
    [net.Dial("tcp", address)]: the connection, or [None] for its error.
    The value of the field [Conn] before the call is not looked at.  The
    deferred [conn.Close()] follows the return and leaves what was read,
    written and printed as it is. *)
Definition Start (dial : string -> option Go.Conn) (w : World)
  : option StartError * World :=
  let address := JoinHostPort (Hostname (client w)) (Port (client w)) in
  match dial address with
  | None => (Some (ErrConnect address), w)
  | Some conn =>
    let w1 := Println (with_conn w conn) connectedBanner in
    match Rps.ReceiveMessage (Conn (client w1)) with
    | (inr e, conn2) => (Some (ErrInitial e), with_conn w1 conn2)
    | (inl initialMsg, conn2) =>
      let w2 := with_conn w1 conn2 in
      if negb (initialMsg =? "READY")%string
      then (Some (ErrUnexpectedInitial initialMsg), w2)
      else
        match promptNickname w2 with
        | (inr e, w3) => (Some (ErrNickname e), w3)
        | (inl _, w3) =>
          match gameLoop w3 with
          | (Some e, w4) => (Some (ErrGame e), w4)
          | (None, w4) => (None, Println w4 gameOver)
          end
        end
    end
  end.

End Prompt.

End ClientMain.

(** ** Notions of the specification *)

(** The three choices of the game. *)
Definition choices : list string := ["rock"; "paper"; "scissors"].

(** The cyclic rule: rock beats scissors, scissors beats paper, paper
    beats rock. *)
Definition beats (a b : string) : bool :=
  ((a =? "rock") && (b =? "scissors")
   || (a =? "scissors") && (b =? "paper")
   || (a =? "paper") && (b =? "rock"))%string.

(** The score deltas of a round by the rule: a draw leaves both scores
    unchanged, the winner gets +1 and the loser -1. *)
Definition rule_deltas (a b : string) : Z * Z :=
  if (a =? b)%string then (0, 0)
  else if beats a b then (1, -1)
  else (-1, 1).

(** A character whose code point is still a valid one after the shift
    by 3. *)
Definition shiftable (c : Z) : Prop :=
  Go.ValidRune c = true /\ Go.ValidRune (c + 3) = true.

(** The bytes that sending the choices [sent] one after the other puts
    on the connection. *)
Definition choice_frames (sent : list string) : string :=
  String.concat "" (map (fun c => Rps.frame (Rps.Encrypt c)) sent).

(** What the client prints for the input lines it turns down. *)
Definition rejections (rejected : list string) : string :=
  String.concat ""
    (map (fun _ : string =>
            ClientMain.choicePrompt ++ ClientMain.choiceInvalid
            ++ String Go.newline "") rejected).

(** The decimal numeral with the digits [ds], most significant first, and
    the number it denotes. *)
Fixpoint numeral (ds : list Z) : string :=
  match ds with
  | [] => ""
  | d :: ds' => String (Go.byte (0x30 + d)) (numeral ds')
  end.

Definition numeral_value (ds : list Z) : Z :=
  fold_left (fun n d => n * 10 + d) ds 0.

(** *** Notions of the further properties *)

(** A character whose code point is still a valid one after the shift
    back by 3. *)
Definition unshiftable (c : Z) : Prop :=
  Go.ValidRune c = true /\ Go.ValidRune (c - 3) = true.

(** What [WriteRune] writes for the rune [r]: [r] itself when it can be
    encoded, and U+FFFD otherwise. *)
Definition writable (r : Z) : Z :=
  if Go.ValidRune r then r else Go.RuneError.

(** Valid UTF-8: the encoding of a sequence of valid code points. *)
Definition valid_utf8 (s : string) : Prop :=
  exists rs, Forall (fun r => Go.ValidRune r = true) rs
             /\ s = Go.string_of_runes rs.

(** The reads [chunks] never bring [maxConsecutiveEmptyReads] empty reads
    in a row, [k] empty reads having just come. *)
Fixpoint progresses (k : nat) (chunks : list string) : bool :=
  match chunks with
  | [] => true
  | "" :: rest =>
      (S k <? Go.maxConsecutiveEmptyReads)%nat && progresses (S k) rest
  | String _ _ :: rest => progresses 0 rest
  end.

(** A line of input: bytes without a newline, then a newline. *)
Definition one_line (l : string) : Prop :=
  exists body, l = body ++ String Go.newline ""
               /\ Go.after_delim Go.newline body = None.

(** A byte within a line that is ASCII. *)
Definition plain_byte (c : ascii) : bool :=
  (Go.byte_val c <? 0x80) && negb (Go.byte_val c =? 0x0A).

Fixpoint plain (s : string) : bool :=
  match s with
  | "" => true
  | String c rest => plain_byte c && plain rest
  end.

(** Blanks within a line: ASCII white space other than the newline. *)
Fixpoint blanks (s : string) : bool :=
  match s with
  | "" => true
  | String c rest =>
    Go.asciiSpace (Go.byte_val c) && negb (Go.byte_val c =? 0x0A)
    && blanks rest
  end.

(** What the client prints for the blank lines it is given as nicknames. *)
Definition blank_nicknames (lines : list string) : string :=
  String.concat ""
    (map (fun _ : string =>
            ClientMain.nicknamePrompt ++ ClientMain.nicknameEmpty
            ++ String Go.newline "") lines).

(** *** Notions used in the proofs *)

(** [utf8.DecodeRuneInString] as a function of the length of the string
    and of its first four bytes. *)
Definition decode4 (n s0 s1 s2 s3 : Z) : Z * Z :=
  if s0 <? Go.RuneSelf then (s0, 1) else
  match Go.first s0 with
  | None => (Go.RuneError, 1)
  | Some (sz, lo, hi) =>
    if n <? sz then (Go.RuneError, 1) else
    if (s1 <? lo) || (hi <? s1) then (Go.RuneError, 1) else
    if sz <=? 2 then
      (Z.lor (Z.shiftl (Z.land s0 Go.mask2) 6) (Z.land s1 Go.maskx), 2)
    else
    if (s2 <? Go.locb) || (Go.hicb <? s2) then (Go.RuneError, 1) else
    if sz <=? 3 then
      (Z.lor (Z.lor (Z.shiftl (Z.land s0 Go.mask3) 12)
                    (Z.shiftl (Z.land s1 Go.maskx) 6))
             (Z.land s2 Go.maskx), 3)
    else
    if (s3 <? Go.locb) || (Go.hicb <? s3) then (Go.RuneError, 1) else
      (Z.lor (Z.lor (Z.lor (Z.shiftl (Z.land s0 Go.mask4) 18)
                           (Z.shiftl (Z.land s1 Go.maskx) 12))
                    (Z.shiftl (Z.land s2 Go.maskx) 6))
             (Z.land s3 Go.maskx), 4)
  end.

(** A byte that does not continue a sequence. *)
Definition not_continuation (b : Z) : Prop := b < 0x80 \/ 0xBF < b.

(** The characters for which [unicode.IsSpace] holds. *)
Definition space_runes : list Z :=
  [0x09; 0x0A; 0x0B; 0x0C; 0x0D; 0x20; 0x85; 0xA0; 0x1680;
   0x2000; 0x2001; 0x2002; 0x2003; 0x2004; 0x2005; 0x2006; 0x2007; 0x2008;
   0x2009; 0x200A; 0x2028; 0x2029; 0x202F; 0x205F; 0x3000].

(** A string of white space: characters for which [unicode.IsSpace] holds,
    one after the other. *)
Definition white_space (w : string) : Prop :=
  exists rs, Forall (fun r => Go.IsSpace r = true) rs
             /\ w = Go.string_of_runes rs.

(** Two lines that differ only in the white space before and after a
    common core. *)
Definition same_up_to_space (l1 l2 : string) : Prop :=
  exists a1 b1 a2 b2 core,
    white_space a1 /\ white_space b1 /\ white_space a2 /\ white_space b2
    /\ l1 = a1 ++ core ++ b1 /\ l2 = a2 ++ core ++ b2.

(** ** Tactics *)

(** Unfold the constants of package [utf8]. *)
Ltac utf8_consts :=
  unfold Go.RuneSelf, Go.RuneError, Go.MaxRune, Go.UTFMax, Go.surrogateMin,
         Go.surrogateMax, Go.t2, Go.t3, Go.t4, Go.tx, Go.maskx, Go.mask2,
         Go.mask3, Go.mask4, Go.rune1Max, Go.rune2Max, Go.rune3Max, Go.locb,
         Go.hicb, Go.MaxLatin1 in *.

(** Settle a boolean combination of integer comparisons by [lia]. *)
Ltac bool_lia :=
  repeat rewrite ?orb_true_iff, ?andb_true_iff, ?orb_false_iff,
    ?andb_false_iff, ?negb_true_iff, ?negb_false_iff,
    ?Z.ltb_lt, ?Z.leb_le, ?Z.eqb_eq, ?Z.ltb_ge, ?Z.leb_gt, ?Z.eqb_neq;
  lia.

(** Take the branch of the conditional at the head of the left-hand side. *)
Ltac decide_if :=
  repeat lazymatch goal with
         | |- (if ?c then _ else _) = _ =>
             first [ replace c with true by (symmetry; bool_lia)
                   | replace c with false by (symmetry; bool_lia) ]
         end.

(** Take the branch of every conditional whose test [lia] settles. *)
Ltac decide_ifs :=
  repeat (match goal with
          | |- context [if ?c then _ else _] =>
              lazymatch c with
              | true => fail
              | false => fail
              | _ => first [ replace c with true by (symmetry; bool_lia)
                           | replace c with false by (symmetry; bool_lia) ]
              end
          end; cbv beta iota).

(** Split on the conditional at the head of either side. *)
Ltac split_if :=
  match goal with
  | |- (if ?c then _ else _) = _ => destruct c eqn:?
  | |- _ = (if ?c then _ else _) => destruct c eqn:?
  | |- (if ?c then _ else _) = _ -> _ => destruct c eqn:?
  end.

(** Turn boolean comparisons among the hypotheses into inequalities. *)
Ltac bool_hyps :=
  repeat match goal with
         | H : _ || _ = true |- _ => apply orb_true_iff in H
         | H : _ || _ = false |- _ => apply orb_false_iff in H; destruct H
         | H : (_ <? _) = true |- _ => apply Z.ltb_lt in H
         | H : (_ <? _) = false |- _ => apply Z.ltb_ge in H
         | H : (_ <=? _) = true |- _ => apply Z.leb_le in H
         | H : (_ <=? _) = false |- _ => apply Z.leb_gt in H
         end.

(** ** Strings as byte sequences *)

Section StringFacts.
Import Go.

Lemma sapp_assoc (a b c : string) : (a ++ b) ++ c = a ++ (b ++ c).
Proof. induction a as [|x a IH]; simpl; [reflexivity | now rewrite IH]. Qed.

Lemma sapp_nil_r (a : string) : a ++ "" = a.
Proof. induction a as [|x a IH]; simpl; [reflexivity | now rewrite IH]. Qed.

Lemma slength_app (a b : string) :
  String.length (a ++ b) = (String.length a + String.length b)%nat.
Proof. induction a as [|x a IH]; simpl; [reflexivity | now rewrite IH]. Qed.

Lemma len_app (a b : string) : len (a ++ b) = len a + len b.
Proof. unfold len. rewrite slength_app. lia. Qed.

Lemma len_nonneg (s : string) : 0 <= len s.
Proof. unfold len. lia. Qed.

Lemma len_String (c : ascii) (s : string) : len (String c s) = 1 + len s.
Proof. unfold len. simpl String.length. lia. Qed.

Lemma substring_0_0 (s : string) : substring 0 0 s = "".
Proof. destruct s; reflexivity. Qed.

Lemma substring_0_length (s : string) : substring 0 (String.length s) s = s.
Proof. induction s as [|c s IH]; simpl; [reflexivity | now rewrite IH]. Qed.

Lemma substring_skip_app (a b : string) (n m : nat) :
  substring (String.length a + n) m (a ++ b) = substring n m b.
Proof. induction a as [|c a IH]; simpl; [reflexivity | exact IH]. Qed.

Lemma substring_0_short (a b : string) (n : nat) :
  (n <= String.length a)%nat -> substring 0 n (a ++ b) = substring 0 n a.
Proof.
  revert n. induction a as [|c a IH]; simpl; intros n H.
  - assert (n = 0)%nat by lia. subst. now rewrite substring_0_0.
  - destruct n; [reflexivity|]. rewrite IH by lia. reflexivity.
Qed.

Lemma slice_0_len (s : string) : slice s 0 (len s) = s.
Proof.
  unfold slice, len. rewrite Z.sub_0_r, Nat2Z.id. apply substring_0_length.
Qed.

Lemma slice_first_byte (s : string) :
  slice s 0 1 = match s with "" => "" | String c _ => String c "" end.
Proof.
  unfold slice. change (Z.to_nat 0) with 0%nat.
  change (Z.to_nat (1 - 0)) with 1%nat.
  destruct s as [|c s]; simpl; [reflexivity|]. now rewrite substring_0_0.
Qed.

End StringFacts.

(** ** UTF-8: decoding what was encoded *)

Section Utf8Facts.
Import Go Rps.

Lemma byte_val_range (c : ascii) : 0 <= byte_val c < 256.
Proof.
  unfold byte_val. pose proof (N_ascii_bounded c). lia.
Qed.

Lemma byte_val_byte (z : Z) : 0 <= z < 256 -> byte_val (byte z) = z.
Proof.
  intros H. unfold byte_val, byte.
  rewrite Z.mod_small by lia.
  rewrite N_ascii_embedding by lia. lia.
Qed.

Lemma byte_byte_val (c : ascii) : byte (byte_val c) = c.
Proof.
  pose proof (byte_val_range c) as H. unfold byte.
  rewrite Z.mod_small by lia. unfold byte_val.
  rewrite N2Z.id. apply ascii_N_embedding.
Qed.

Lemma lor_disjoint (hi lo n : Z) :
  0 <= n -> 0 <= lo < 2 ^ n -> Z.lor (hi * 2 ^ n) lo = hi * 2 ^ n + lo.
Proof.
  intros Hn Hlo.
  assert (Hland : Z.land (hi * 2 ^ n) lo = 0).
  { apply Z.bits_inj'. intros i Hi. rewrite Z.land_spec, Z.bits_0.
    destruct (Z.lt_ge_cases i n) as [Hlt | Hge].
    - rewrite Z.mul_pow2_bits_low by lia. reflexivity.
    - rewrite <- (Z.mod_small lo (2 ^ n)) by lia.
      rewrite Z.mod_pow2_bits_high by lia. apply andb_false_r. }
  pose proof (Z.add_lor_land (hi * 2 ^ n) lo). lia.
Qed.

Lemma cont_byte (x : Z) :
  0 <= x ->
  byte_val (byte (Z.lor tx (Z.land x maskx))) = 128 + x mod 64.
Proof.
  intros Hx. utf8_consts. change 63 with (Z.ones 6).
  rewrite Z.land_ones by lia. change 128 with (2 * 2 ^ 6) at 1.
  assert (0 <= x mod 2 ^ 6 < 2 ^ 6) by (apply Z.mod_pos_bound; lia).
  rewrite lor_disjoint by lia. change (2 ^ 6) with 64 in *.
  rewrite byte_val_byte by lia. lia.
Qed.

Lemma lead_byte (t x n : Z) :
  0 <= n -> 0 <= x < 2 ^ n -> 0 <= t -> t * 2 ^ n + 2 ^ n <= 256 ->
  byte_val (byte (Z.lor (t * 2 ^ n) x)) = t * 2 ^ n + x.
Proof.
  intros Hn Hx Ht Hb. rewrite lor_disjoint by lia.
  apply byte_val_byte. nia.
Qed.

Lemma at_1 c0 c1 s : at_ (String c0 (String c1 s)) 1 = byte_val c1.
Proof. reflexivity. Qed.
Lemma at_2 c0 c1 c2 s :
  at_ (String c0 (String c1 (String c2 s))) 2 = byte_val c2.
Proof. reflexivity. Qed.
Lemma at_3 c0 c1 c2 c3 s :
  at_ (String c0 (String c1 (String c2 (String c3 s)))) 3 = byte_val c3.
Proof. reflexivity. Qed.

Lemma unmask (t x n : Z) :
  0 <= n -> 0 <= x < 2 ^ n -> Z.land (t * 2 ^ n + x) (Z.ones n) = x.
Proof.
  intros Hn Hx. rewrite Z.land_ones by lia.
  rewrite Z.add_comm, Z.mod_add by lia. apply Z.mod_small. lia.
Qed.

Lemma first_2 (b : Z) : 0xC2 <= b <= 0xDF -> first b = Some (2, locb, hicb).
Proof. intros H. unfold first. decide_if. reflexivity. Qed.

Lemma decode_encode_1 (r : Z) (rest : string) :
  0 <= r <= 0x7F ->
  EncodeRune r = String (byte r) ""
  /\ DecodeRuneInString (String (byte r) rest) = (r, 1).
Proof.
  intros H. split.
  - unfold EncodeRune, uint32. rewrite Z.mod_small by lia.
    utf8_consts. decide_if. reflexivity.
  - unfold DecodeRuneInString. rewrite byte_val_byte by lia.
    utf8_consts. decide_if. reflexivity.
Qed.

Lemma decode_encode_2 (r : Z) (rest : string) :
  0x80 <= r <= 0x7FF ->
  exists c0 c1,
    EncodeRune r = String c0 (String c1 "")
    /\ DecodeRuneInString (String c0 (String c1 rest)) = (r, 2).
Proof.
  intros H.
  exists (byte (Z.lor t2 (Z.shiftr r 6))), (byte (Z.lor tx (Z.land r maskx))).
  split.
  - unfold EncodeRune, uint32. rewrite Z.mod_small by lia.
    utf8_consts. decide_if. reflexivity.
  - unfold DecodeRuneInString. cbv zeta. rewrite at_1, !len_String.
    rewrite cont_byte by lia.
    rewrite Z.shiftr_div_pow2 by lia.
    unfold t2. change 0xC0 with (3 * 2 ^ 6).
    assert (Hh : 2 <= r / 2 ^ 6 < 2 ^ 5)
      by (change (2 ^ 6) with 64; change (2 ^ 5) with 32;
          Z.div_mod_to_equations; lia).
    rewrite lead_byte by lia.
    assert (Hl : 0 <= r mod 64 < 64) by (apply Z.mod_pos_bound; lia).
    assert (Hr : r = 64 * (r / 2 ^ 6) + r mod 64)
      by (change (2 ^ 6) with 64; Z.div_mod_to_equations; lia).
    set (h := r / 2 ^ 6) in *. set (l := r mod 64) in *.
    clearbody h l.
    pose proof (len_nonneg rest).
    change (2 ^ 6) with 64 in *. change (2 ^ 5) with 32 in *.
    unfold RuneSelf. decide_if. rewrite first_2 by lia.
    utf8_consts. decide_if.
    f_equal.
    replace (3 * 64 + h) with (6 * 2 ^ 5 + h) by lia.
    change 31 with (Z.ones 5). rewrite unmask by lia.
    replace (128 + l) with (2 * 2 ^ 6 + l) by lia.
    change 63 with (Z.ones 6). rewrite unmask by lia.
    rewrite Z.shiftl_mul_pow2 by lia. rewrite lor_disjoint by lia.
    change (2 ^ 6) with 64. lia.
Qed.

Lemma lor_3 (q m l : Z) :
  0 <= m < 64 -> 0 <= l < 64 ->
  Z.lor (Z.lor (Z.shiftl q 12) (Z.shiftl m 6)) l = 4096 * q + 64 * m + l.
Proof.
  intros Hm Hl. rewrite !Z.shiftl_mul_pow2 by lia.
  rewrite (lor_disjoint q) by (change (2 ^ 6) with 64;
                               change (2 ^ 12) with 4096; lia).
  replace (q * 2 ^ 12 + m * 2 ^ 6) with ((q * 64 + m) * 2 ^ 6)
    by (change (2 ^ 6) with 64; change (2 ^ 12) with 4096; lia).
  rewrite lor_disjoint by (change (2 ^ 6) with 64; lia).
  change (2 ^ 6) with 64. lia.
Qed.

Lemma lor_4 (p q m l : Z) :
  0 <= q < 64 -> 0 <= m < 64 -> 0 <= l < 64 ->
  Z.lor (Z.lor (Z.lor (Z.shiftl p 18) (Z.shiftl q 12)) (Z.shiftl m 6)) l
  = 262144 * p + 4096 * q + 64 * m + l.
Proof.
  intros Hq Hm Hl. rewrite (Z.shiftl_mul_pow2 p) by lia.
  rewrite (Z.shiftl_mul_pow2 q) by lia.
  rewrite (lor_disjoint p) by (change (2 ^ 12) with 4096;
                               change (2 ^ 18) with 262144; lia).
  replace (p * 2 ^ 18 + q * 2 ^ 12) with ((p * 64 + q) * 2 ^ 12)
    by (change (2 ^ 12) with 4096; change (2 ^ 18) with 262144; lia).
  rewrite <- Z.shiftl_mul_pow2 by lia. rewrite lor_3 by lia. lia.
Qed.

Lemma unmask_cont (x : Z) : 0 <= x < 64 -> Z.land (128 + x) maskx = x.
Proof.
  intros H. replace (128 + x) with (2 * 2 ^ 6 + x) by lia.
  change maskx with (Z.ones 6). apply unmask; lia.
Qed.

Lemma decode_encode_3 (r : Z) (rest : string) :
  0x800 <= r <= 0xFFFF -> ~ (0xD800 <= r <= 0xDFFF) ->
  exists c0 c1 c2,
    EncodeRune r = String c0 (String c1 (String c2 ""))
    /\ DecodeRuneInString (String c0 (String c1 (String c2 rest))) = (r, 3).
Proof.
  intros H Hs.
  exists (byte (Z.lor t3 (Z.shiftr r 12))),
         (byte (Z.lor tx (Z.land (Z.shiftr r 6) maskx))),
         (byte (Z.lor tx (Z.land r maskx))).
  split.
  - unfold EncodeRune, uint32. rewrite Z.mod_small by lia.
    utf8_consts. decide_ifs. reflexivity.
  - unfold DecodeRuneInString. cbv zeta. rewrite at_1, at_2, !len_String.
    rewrite !Z.shiftr_div_pow2 by lia.
    rewrite !cont_byte by (try apply Z.div_pos; lia).
    unfold t3. change 0xE0 with (7 * 2 ^ 5).
    assert (Hq : 0 <= r / 2 ^ 12 < 2 ^ 4)
      by (change (2 ^ 12) with 4096; change (2 ^ 4) with 16;
          Z.div_mod_to_equations; lia).
    rewrite lead_byte by lia.
    assert (Hr : r = 4096 * (r / 2 ^ 12) + 64 * ((r / 2 ^ 6) mod 64) + r mod 64
                 /\ 0 <= (r / 2 ^ 6) mod 64 < 64 /\ 0 <= r mod 64 < 64)
      by (change (2 ^ 6) with 64; change (2 ^ 12) with 4096;
          Z.div_mod_to_equations; lia).
    set (q := r / 2 ^ 12) in *. set (m := (r / 2 ^ 6) mod 64) in *.
    set (l := r mod 64) in *. clearbody q m l.
    destruct Hr as (Hr & Hm & Hl).
    pose proof (len_nonneg rest).
    change (2 ^ 5) with 32 in *. change (2 ^ 4) with 16 in *.
    unfold first. utf8_consts.
    assert (Hc : q = 0 \/ 1 <= q <= 12 \/ q = 13 \/ 14 <= q) by lia.
    destruct Hc as [Hc | [Hc | [Hc | Hc]]]; decide_ifs; f_equal.
    all: replace (7 * 32 + q) with (14 * 2 ^ 4 + q) by lia.
    all: change 15 with (Z.ones 4); rewrite unmask by lia.
    all: change 63 with maskx; rewrite !unmask_cont by lia.
    all: rewrite lor_3 by lia; lia.
Qed.

Lemma decode_encode_4 (r : Z) (rest : string) :
  0x10000 <= r <= 0x10FFFF ->
  exists c0 c1 c2 c3,
    EncodeRune r = String c0 (String c1 (String c2 (String c3 "")))
    /\ DecodeRuneInString (String c0 (String c1 (String c2 (String c3 rest))))
       = (r, 4).
Proof.
  intros H.
  exists (byte (Z.lor t4 (Z.shiftr r 18))),
         (byte (Z.lor tx (Z.land (Z.shiftr r 12) maskx))),
         (byte (Z.lor tx (Z.land (Z.shiftr r 6) maskx))),
         (byte (Z.lor tx (Z.land r maskx))).
  split.
  - unfold EncodeRune, uint32. rewrite Z.mod_small by lia.
    utf8_consts. decide_ifs. reflexivity.
  - unfold DecodeRuneInString. cbv zeta.
    rewrite at_1, at_2, at_3, !len_String.
    rewrite !Z.shiftr_div_pow2 by lia.
    rewrite !cont_byte by (try apply Z.div_pos; lia).
    unfold t4. change 0xF0 with (15 * 2 ^ 4).
    assert (Hp : 0 <= r / 2 ^ 18 < 2 ^ 3)
      by (change (2 ^ 18) with 262144; change (2 ^ 3) with 8;
          Z.div_mod_to_equations; lia).
    rewrite lead_byte by lia.
    assert (Hr : r = 262144 * (r / 2 ^ 18) + 4096 * ((r / 2 ^ 12) mod 64)
                     + 64 * ((r / 2 ^ 6) mod 64) + r mod 64
                 /\ 0 <= (r / 2 ^ 12) mod 64 < 64
                 /\ 0 <= (r / 2 ^ 6) mod 64 < 64 /\ 0 <= r mod 64 < 64)
      by (change (2 ^ 6) with 64; change (2 ^ 12) with 4096;
          change (2 ^ 18) with 262144; Z.div_mod_to_equations; lia).
    set (p := r / 2 ^ 18) in *. set (q := (r / 2 ^ 12) mod 64) in *.
    set (m := (r / 2 ^ 6) mod 64) in *. set (l := r mod 64) in *.
    clearbody p q m l. destruct Hr as (Hr & Hq & Hm & Hl).
    pose proof (len_nonneg rest).
    change (2 ^ 4) with 16 in *. change (2 ^ 3) with 8 in *.
    unfold first. utf8_consts.
    assert (Hc : p = 0 \/ 1 <= p <= 3 \/ p = 4) by lia.
    destruct Hc as [Hc | [Hc | Hc]]; decide_ifs; f_equal.
    all: replace (15 * 16 + p) with (30 * 2 ^ 3 + p) by lia.
    all: change 7 with (Z.ones 3); rewrite unmask by lia.
    all: change 63 with maskx; rewrite !unmask_cont by lia.
    all: rewrite lor_4 by lia; lia.
Qed.

Lemma ValidRune_cases (r : Z) :
  ValidRune r = true ->
  0 <= r <= 0x7F \/ 0x80 <= r <= 0x7FF
  \/ (0x800 <= r <= 0xFFFF /\ ~ (0xD800 <= r <= 0xDFFF))
  \/ 0x10000 <= r <= 0x10FFFF.
Proof.
  unfold ValidRune. utf8_consts. intros H.
  destruct (Z.leb_spec 0 r), (Z.ltb_spec r 55296), (Z.ltb_spec 57343 r),
    (Z.leb_spec r 1114111); simpl in H; try discriminate; lia.
Qed.

(** A valid rune is decoded from its encoding, whatever follows it. *)
Lemma DecodeRune_EncodeRune (r : Z) (rest : string) :
  ValidRune r = true ->
  DecodeRuneInString (EncodeRune r ++ rest) = (r, len (EncodeRune r))
  /\ 1 <= len (EncodeRune r) <= 4.
Proof.
  intros H. destruct (ValidRune_cases r H) as [H1 | [H2 | [[H3 Hs] | H4]]].
  - destruct (decode_encode_1 r rest H1) as [-> Hd]. simpl append.
    rewrite Hd. split; [reflexivity | unfold len; simpl; lia].
  - destruct (decode_encode_2 r rest H2) as (c0 & c1 & -> & Hd).
    simpl append. rewrite Hd. split; [reflexivity | unfold len; simpl; lia].
  - destruct (decode_encode_3 r rest H3 Hs) as (c0 & c1 & c2 & -> & Hd).
    simpl append. rewrite Hd. split; [reflexivity | unfold len; simpl; lia].
  - destruct (decode_encode_4 r rest H4) as (c0 & c1 & c2 & c3 & -> & Hd).
    simpl append. rewrite Hd. split; [reflexivity | unfold len; simpl; lia].
Qed.

Lemma range_from_skip (e rest : string) : forall (off : Z),
  range_from (String.length e) off (e ++ rest)
  = range_from 0 (off + len e) rest.
Proof.
  induction e as [|c e IH]; intros off.
  - simpl. unfold len. simpl. now rewrite Z.add_0_r.
  - cbn [String.length append range_from]. rewrite IH, len_String.
    f_equal. lia.
Qed.

Lemma range_from_encode (r off : Z) (rest : string) :
  ValidRune r = true ->
  range_from 0 off (EncodeRune r ++ rest)
  = (off, r) :: range_from 0 (off + len (EncodeRune r)) rest.
Proof.
  intros H. destruct (DecodeRune_EncodeRune r rest H) as [Hd Hl].
  destruct (EncodeRune r) as [|c e] eqn:E.
  - unfold len in Hl. simpl in Hl. lia.
  - cbn [append range_from]. cbn [append] in Hd. rewrite Hd.
    rewrite len_String. f_equal.
    replace (Z.to_nat (1 + len e) - 1)%nat with (String.length e)
      by (unfold len; lia).
    rewrite range_from_skip. f_equal. lia.
Qed.

Lemma range_from_offsets (s : string) : forall (k : nat) (off off' : Z),
  map snd (range_from k off s) = map snd (range_from k off' s).
Proof.
  induction s as [|c s IH]; intros k off off'; [reflexivity|].
  cbn [range_from]. destruct k as [|k]; [|apply IH].
  destruct (DecodeRuneInString (String c s)) as [r w]. simpl. f_equal.
  apply IH.
Qed.

Lemma runes_encode (r : Z) (rest : string) :
  ValidRune r = true -> runes (EncodeRune r ++ rest) = r :: runes rest.
Proof.
  intros H. unfold runes, range. rewrite range_from_encode by exact H.
  simpl. f_equal. apply range_from_offsets.
Qed.

Lemma fold_WriteRune_acc (rs : list Z) : forall acc,
  fold_left WriteRune rs acc = acc ++ string_of_runes rs.
Proof.
  unfold string_of_runes.
  induction rs as [|r rs IH]; intros acc; simpl.
  - now rewrite sapp_nil_r.
  - rewrite IH, (IH (WriteRune "" r)).
    unfold WriteRune, AppendRune. simpl. now rewrite sapp_assoc.
Qed.

Lemma string_of_runes_cons (r : Z) (rs : list Z) :
  string_of_runes (r :: rs) = EncodeRune r ++ string_of_runes rs.
Proof.
  unfold string_of_runes at 1. simpl. now rewrite fold_WriteRune_acc.
Qed.

Lemma fold_WriteRune (f : Z -> Z) (l : list Z) : forall acc,
  fold_left (fun b c => WriteRune b (f c)) l acc
  = acc ++ string_of_runes (map f l).
Proof.
  induction l as [|c l IH]; intros acc; simpl.
  - now rewrite sapp_nil_r.
  - rewrite IH, string_of_runes_cons.
    unfold WriteRune, AppendRune. now rewrite sapp_assoc.
Qed.

Lemma runes_string_of_runes (rs : list Z) :
  Forall (fun r => ValidRune r = true) rs -> runes (string_of_runes rs) = rs.
Proof.
  induction 1 as [|r rs Hr _ IH]; [reflexivity|].
  rewrite string_of_runes_cons, runes_encode by exact Hr. now rewrite IH.
Qed.

Lemma Encrypt_runes (msg : string) :
  Encrypt msg = string_of_runes (map (fun c => int32 (c + 3)) (runes msg)).
Proof. unfold Encrypt. now rewrite fold_WriteRune. Qed.

Lemma Decrypt_runes (msg : string) :
  Decrypt msg = string_of_runes (map (fun c => int32 (c - 3)) (runes msg)).
Proof. unfold Decrypt. now rewrite fold_WriteRune. Qed.

Lemma ValidRune_range (r : Z) : ValidRune r = true -> 0 <= r <= 0x10FFFF.
Proof. intros H. destruct (ValidRune_cases r H) as [|[|[[]|]]]; lia. Qed.

Lemma int32_small (x : Z) : - 2 ^ 31 <= x < 2 ^ 31 -> int32 x = x.
Proof. intros H. unfold int32. rewrite Z.mod_small; lia. Qed.

End Utf8Facts.

(** ** The shift by three and the frame *)

Section Codec.
Import Go Rps.

Lemma sapp_cancel_r (t a : string) : forall b, a ++ t = b ++ t -> a = b.
Proof.
  induction a as [|x a IH]; intros [|y b] H; simpl in H.
  - reflexivity.
  - apply (f_equal String.length) in H. simpl in H.
    rewrite slength_app in H. lia.
  - apply (f_equal String.length) in H. simpl in H.
    rewrite slength_app in H. lia.
  - inversion H; subst. f_equal. now apply IH.
Qed.

Lemma Encrypt_text (cs : list Z) :
  Forall shiftable cs ->
  Encrypt (string_of_runes cs) = string_of_runes (map (fun c => c + 3) cs).
Proof.
  intros H. rewrite Encrypt_runes, runes_string_of_runes.
  - f_equal. apply map_ext_in. intros c Hc.
    rewrite Forall_forall in H. destruct (H c Hc) as [Hv _].
    apply ValidRune_range in Hv. apply int32_small. lia.
  - eapply Forall_impl; [|exact H]. intros c [Hv _]. exact Hv.
Qed.

Lemma Decrypt_shifted (cs : list Z) :
  Forall shiftable cs ->
  Decrypt (string_of_runes (map (fun c => c + 3) cs)) = string_of_runes cs.
Proof.
  intros H. rewrite Decrypt_runes, runes_string_of_runes.
  - f_equal. rewrite map_map. rewrite <- (map_id cs) at 2.
    apply map_ext_in. intros c Hc.
    rewrite Forall_forall in H. destruct (H c Hc) as [Hv _].
    apply ValidRune_range in Hv. rewrite int32_small; lia.
  - rewrite Forall_map. eapply Forall_impl; [|exact H]. intros c [_ Hv].
    exact Hv.
Qed.

(** C4, as amended: for every string that is the UTF-8 form of characters
    whose code points are still valid after the shift by 3, [Encrypt] gives
    the characters shifted by 3 and [Decrypt] gives the string back. *)
Theorem Decrypt_Encrypt (s : string) (cs : list Z) :
  s = string_of_runes cs -> Forall shiftable cs ->
  runes (Encrypt s) = map (fun c => c + 3) cs /\ Decrypt (Encrypt s) = s.
Proof.
  intros -> H. rewrite Encrypt_text by exact H. split.
  - apply runes_string_of_runes. rewrite Forall_map.
    eapply Forall_impl; [|exact H]. intros c [_ Hv]. exact Hv.
  - apply Decrypt_shifted. exact H.
Qed.

Lemma Decrypt_Encrypt_witness :
  runes (Encrypt "rock") = [0x75; 0x72; 0x66; 0x6E]
  /\ Decrypt (Encrypt "rock") = "rock".
Proof.
  apply (Decrypt_Encrypt "rock" [0x72; 0x6F; 0x63; 0x6B]).
  - vm_compute. reflexivity.
  - repeat constructor.
Defined.

(** C4 fails as stated: for the string of the one byte 0xFF, which is not
    UTF-8, [range] yields the one character U+FFFD, whose code point is
    still valid after the shift by 3, and the string that comes back holds
    the three bytes of U+FFFD. *)
Lemma Decrypt_Encrypt_counterexample :
  let s := String (byte 0xFF) "" in
  runes s = [0xFFFD]
  /\ Forall (fun c => ValidRune (c + 3) = true) (runes s)
  /\ Decrypt (Encrypt s) = string_of_runes [0xFFFD]
  /\ Decrypt (Encrypt s) <> s.
Proof.
  split; [vm_compute; reflexivity|].
  split; [repeat constructor|].
  split; [vm_compute; reflexivity|].
  vm_compute. discriminate.
Qed.

Lemma SendMessage_success (conn conn' : Conn) (payload : string) :
  SendMessage conn payload = (conn', None) ->
  broken conn = false
  /\ conn' = mkConn (incoming conn)
                    (written conn ++ frame (Encrypt payload)) false.
Proof.
  unfold SendMessage. destruct (broken conn) eqn:Hb; [discriminate|].
  intros H. inversion H; subst. split; reflexivity.
Qed.

(** C5, as amended: for every payload made of characters whose code points
    are still valid after the shift by 3, the bytes a successful
    [SendMessage] adds to the connection are exactly the start marker, the
    payload with every character shifted up by 3, the end marker and a
    newline. *)
Theorem SendMessage_writes_frame
        (conn conn' : Conn) (payload : string) (cs : list Z) :
  SendMessage conn payload = (conn', None) ->
  payload = string_of_runes cs -> Forall shiftable cs ->
  written conn'
  = written conn ++ "⚠" ++ string_of_runes (map (fun c => c + 3) cs)
    ++ "☠" ++ String newline ""
  /\ runes (string_of_runes (map (fun c => c + 3) cs))
     = map (fun c => c + 3) (runes payload).
Proof.
  intros Hs -> H. apply SendMessage_success in Hs as [_ ->].
  cbn [written]. unfold frame, header, footer.
  rewrite Encrypt_text by exact H. split; [reflexivity|].
  rewrite !runes_string_of_runes; [reflexivity | |].
  - eapply Forall_impl; [|exact H]. intros c [Hv _]. exact Hv.
  - rewrite Forall_map. eapply Forall_impl; [|exact H].
    intros c [_ Hv]. exact Hv.
Qed.

Lemma SendMessage_writes_frame_witness :
  let rock := [0x72; 0x6F; 0x63; 0x6B] in
  written (fst (SendMessage (mkConn [] "" false) "rock"))
  = "" ++ "⚠" ++ string_of_runes (map (fun c => c + 3) rock)
    ++ "☠" ++ String newline ""
  /\ runes (string_of_runes (map (fun c => c + 3) rock))
     = map (fun c => c + 3) (runes "rock").
Proof.
  apply (SendMessage_writes_frame
           (mkConn [] "" false)
           (fst (SendMessage (mkConn [] "" false) "rock"))
           "rock" [0x72; 0x6F; 0x63; 0x6B]).
  - vm_compute. reflexivity.
  - vm_compute. reflexivity.
  - repeat constructor.
Defined.

(** C5 fails as stated: the payload of the one character U+D7FD is valid
    text, and the frame written for it holds U+FFFD, not U+D800. *)
Lemma SendMessage_shift_counterexample :
  let payload := string_of_runes [0xD7FD] in
  ValidRune 0xD7FD = true
  /\ runes payload = [0xD7FD]
  /\ ~ (exists shifted,
           written (fst (SendMessage (mkConn [] "" false) payload))
           = "⚠" ++ shifted ++ "☠" ++ String newline ""
           /\ runes shifted = map (fun c => c + 3) (runes payload)).
Proof.
  split; [reflexivity|]. split; [vm_compute; reflexivity|].
  intros (shifted & Hw & Hr).
  assert (Hs : shifted = string_of_runes [0xFFFD]).
  { apply (sapp_cancel_r ("☠" ++ String newline "")). 
    assert (Hf : written (fst (SendMessage (mkConn [] "" false)
                                           (string_of_runes [0xD7FD])))
                 = "⚠" ++ string_of_runes [0xFFFD] ++ "☠"
                   ++ String newline "")
      by (vm_compute; reflexivity).
    rewrite Hf in Hw. simpl append in Hw. inversion Hw as [Ht].
    simpl append. symmetry. exact Ht. }
  subst shifted. vm_compute in Hr. discriminate.
Qed.

End Codec.

(** ** Trimming white space *)

Section Trimming.
Import Go Rps.

(** *** Indexing and slicing an appended string *)

Lemma get_app_l (x y : string) : forall n,
  (n < String.length x)%nat -> get n (x ++ y) = get n x.
Proof. intros n H. symmetry. now apply append_correct1. Qed.

Lemma get_app_r (x y : string) (n : nat) :
  get (String.length x + n) (x ++ y) = get n y.
Proof. rewrite Nat.add_comm. symmetry. apply append_correct2. Qed.

Lemma at_app_l (x y : string) (i : Z) :
  0 <= i < len x -> at_ (x ++ y) i = at_ x i.
Proof.
  intros H. unfold at_, len in *. rewrite get_app_l by lia. reflexivity.
Qed.

Lemma at_app_r (x y : string) (i : Z) :
  0 <= i -> at_ (x ++ y) (len x + i) = at_ y i.
Proof.
  intros H. unfold at_, len.
  replace (Z.to_nat (Z.of_nat (String.length x) + i))
    with (String.length x + Z.to_nat i)%nat by lia.
  now rewrite get_app_r.
Qed.

Lemma at_0 (c : ascii) (s : string) : at_ (String c s) 0 = byte_val c.
Proof. reflexivity. Qed.

Lemma at_range (s : string) (i : Z) : 0 <= at_ s i < 256.
Proof.
  unfold at_. destruct (get (Z.to_nat i) s); [apply byte_val_range | lia].
Qed.

Lemma substring_app_mid (x y : string) : forall n,
  (n <= String.length x)%nat ->
  substring n (String.length x - n + String.length y) (x ++ y)
  = substring n (String.length x - n) x ++ y.
Proof.
  induction x as [|c x IH]; intros n H; simpl in *.
  - assert (n = 0)%nat by lia. subst. simpl. apply substring_0_length.
  - destruct n as [|n].
    + simpl. f_equal. specialize (IH 0%nat ltac:(lia)).
      rewrite Nat.sub_0_r in IH. exact IH.
    + apply IH. lia.
Qed.

Lemma slength_substring (s : string) : forall n m,
  (n + m <= String.length s)%nat -> String.length (substring n m s) = m.
Proof.
  induction s as [|c s IH]; intros n m H; simpl in *.
  - assert (m = 0)%nat by lia. subst. destruct n; reflexivity.
  - destruct n as [|n].
    + destruct m as [|m]; [reflexivity|]. simpl. f_equal. apply IH. lia.
    + apply IH. lia.
Qed.

Lemma slice_app_l (x y : string) (n : Z) :
  0 <= n <= len x -> slice (x ++ y) 0 n = slice x 0 n.
Proof.
  intros H. unfold slice, len in *. apply substring_0_short. lia.
Qed.

Lemma slice_app_mid (x y : string) (i : Z) :
  0 <= i <= len x ->
  slice (x ++ y) i (len x + len y) = slice x i (len x) ++ y.
Proof.
  intros H. unfold slice, len in *.
  replace (Z.to_nat (Z.of_nat (String.length x)
                     + Z.of_nat (String.length y) - i))
    with (String.length x - Z.to_nat i + String.length y)%nat by lia.
  replace (Z.to_nat (Z.of_nat (String.length x) - i))
    with (String.length x - Z.to_nat i)%nat by lia.
  apply substring_app_mid. lia.
Qed.

Lemma slice_app_r (x y : string) :
  slice (x ++ y) (len x) (len x + len y) = y.
Proof.
  rewrite slice_app_mid by (pose proof (len_nonneg x); lia).
  unfold slice. rewrite Z.sub_diag. simpl.
  replace (substring (Z.to_nat (len x)) 0 x) with "".
  - reflexivity.
  - generalize (Z.to_nat (len x)). clear. induction x as [|c x IH]; intros n.
    + destruct n; reflexivity.
    + destruct n; [reflexivity | apply IH].
Qed.

Lemma len_slice (s : string) (i j : Z) :
  0 <= i <= j -> j <= len s -> len (slice s i j) = j - i.
Proof.
  intros H1 H2. unfold slice, len in *. rewrite slength_substring; lia.
Qed.

Lemma slice_empty (s : string) (i : Z) : slice s i i = "".
Proof.
  unfold slice. rewrite Z.sub_diag. simpl. generalize (Z.to_nat i).
  induction s as [|c s IH]; intros n; destruct n; simpl; auto.
Qed.

Lemma slice_snoc (s : string) (k : Z) :
  0 <= k < len s ->
  slice s 0 (k + 1) = slice s 0 k ++ String (byte (at_ s k)) "".
Proof.
  intros H. unfold slice, at_, len in *. rewrite !Z.sub_0_r. simpl.
  replace (Z.to_nat (k + 1)) with (S (Z.to_nat k)) by lia.
  assert (Hk : (Z.to_nat k < String.length s)%nat) by lia.
  revert Hk. generalize (Z.to_nat k). clear. 
  induction s as [|c s IH]; intros n Hn; simpl in *; [lia|].
  destruct n as [|n].
  - simpl. rewrite substring_0_0, byte_byte_val. reflexivity.
  - simpl. f_equal. apply IH. lia.
Qed.

(** *** What [DecodeRuneInString] looks at *)

Lemma DecodeRune_decode4 (c : ascii) (s : string) :
  DecodeRuneInString (String c s)
  = decode4 (len (String c s)) (byte_val c) (at_ (String c s) 1)
            (at_ (String c s) 2) (at_ (String c s) 3).
Proof. reflexivity. Qed.

Lemma first_spec (b sz lo hi : Z) :
  first b = Some (sz, lo, hi) ->
  (sz = 2 \/ sz = 3 \/ sz = 4) /\ 0x80 <= lo /\ hi <= 0xBF.
Proof.
  unfold first. utf8_consts.
  repeat match goal with
         | |- context [if ?c then _ else _] => destruct c
         end; intros H; inversion H; subst; lia.
Qed.

(** The width is at least one and at most the length. *)
Lemma decode4_width (n s0 s1 s2 s3 r w : Z) :
  1 <= n -> decode4 n s0 s1 s2 s3 = (r, w) -> 1 <= w <= 4 /\ w <= n.
Proof.
  intros Hn. unfold decode4.
  destruct (s0 <? RuneSelf); [intros E; inversion E; lia|].
  destruct (first s0) as [[[sz lo] hi]|] eqn:F; [|intros E; inversion E; lia].
  apply first_spec in F.
  repeat (split_if; bool_hyps; try (intros E; inversion E; lia)).
  all: intros E; inversion E; lia.
Qed.

(** The decoder does not see past a byte that is no continuation byte. *)
Lemma decode4_local (n n' s0 s1 s2 s3 s1' s2' s3' : Z) :
  1 <= n <= n' ->
  (1 < n -> s1' = s1) -> (2 < n -> s2' = s2) -> (3 < n -> s3' = s3) ->
  (n = 1 -> s1' < 0x80 \/ 0xBF < s1') ->
  (n = 2 -> s2' < 0x80 \/ 0xBF < s2') ->
  (n = 3 -> s3' < 0x80 \/ 0xBF < s3') ->
  decode4 n' s0 s1' s2' s3' = decode4 n s0 s1 s2 s3.
Proof.
  intros Hn H1 H2 H3 E1 E2 E3. unfold decode4.
  destruct (s0 <? RuneSelf); [reflexivity|].
  destruct (first s0) as [[[sz lo] hi]|] eqn:F; [|reflexivity].
  apply first_spec in F. utf8_consts.
  repeat (split_if; bool_hyps; try reflexivity; try (exfalso; lia)).
  all: repeat match goal with
              | H : ?a < ?b -> _ = _ |- _ =>
                  first [ rewrite H by lia; clear H | clear H ]
              end; try reflexivity.
Qed.

Lemma DecodeRune_width (s : string) (r w : Z) :
  s <> "" -> DecodeRuneInString s = (r, w) -> 1 <= w <= 4 /\ w <= len s.
Proof.
  destruct s as [|c s]; [congruence|]. intros _.
  rewrite DecodeRune_decode4. apply decode4_width.
  rewrite len_String. pose proof (len_nonneg s). lia.
Qed.

Lemma DecodeRune_local (x y : string) :
  x <> "" -> not_continuation (at_ y 0) ->
  DecodeRuneInString (x ++ y) = DecodeRuneInString x.
Proof.
  destruct x as [|c x]; [congruence|]. intros _ Hy.
  change (String c x ++ y) with (String c (x ++ y)).
  rewrite !DecodeRune_decode4.
  change (String c (x ++ y)) with (String c x ++ y).
  pose proof (len_nonneg x) as Hx. pose proof (len_nonneg y) as Hly.
  pose proof (len_String c x) as Hl.
  unfold not_continuation in Hy.
  apply decode4_local.
  - rewrite len_app. lia.
  - intros H. apply at_app_l. lia.
  - intros H. apply at_app_l. lia.
  - intros H. apply at_app_l. lia.
  - intros H. replace 1 with (len (String c x) + 0) by lia.
    rewrite at_app_r by lia. exact Hy.
  - intros H. replace 2 with (len (String c x) + 0) by lia.
    rewrite at_app_r by lia. exact Hy.
  - intros H. replace 3 with (len (String c x) + 0) by lia.
    rewrite at_app_r by lia. exact Hy.
Qed.

(** *** [range] over an appended string *)

Lemma range_from_app (s e : string) :
  not_continuation (at_ e 0) ->
  forall (k : nat) (off : Z),
    (k <= String.length s)%nat ->
    range_from k off (s ++ e)
    = (range_from k off s ++ range_from 0 (off + len s) e)%list.
Proof.
  intros He. induction s as [|c s IH]; intros k off Hk.
  - simpl in Hk. assert (k = 0)%nat by lia. subst.
    simpl. unfold len. simpl. now rewrite Z.add_0_r.
  - change (String c s ++ e) with (String c (s ++ e)).
    cbn [range_from]. destruct k as [|k].
    + change (String c (s ++ e)) with (String c s ++ e).
      rewrite DecodeRune_local by (try discriminate; exact He).
      destruct (DecodeRuneInString (String c s)) as [r w] eqn:E.
      apply DecodeRune_width in E; [|discriminate].
      rewrite len_String in E. unfold len in E.
      rewrite IH by lia. rewrite len_String. cbn [app]. do 3 f_equal. lia.
    + simpl in Hk. rewrite IH by lia. rewrite len_String. do 2 f_equal. lia.
Qed.

Lemma range_from_shift (s : string) (d : Z) : forall (k : nat) (off : Z),
  range_from k (off + d) s
  = map (fun p => (fst p + d, snd p)) (range_from k off s).
Proof.
  induction s as [|c s IH]; intros k off; [reflexivity|].
  cbn [range_from]. destruct k as [|k].
  - destruct (DecodeRuneInString (String c s)) as [r w]. simpl. f_equal.
    replace (off + d + 1) with (off + 1 + d) by lia. apply IH.
  - replace (off + d + 1) with (off + 1 + d) by lia. apply IH.
Qed.

Lemma range_from_offsets_bound (s : string) : forall (k : nat) (off : Z),
  Forall (fun p => off <= fst p < off + len s) (range_from k off s).
Proof.
  induction s as [|c s IH]; intros k off; [constructor|].
  cbn [range_from]. rewrite len_String. pose proof (len_nonneg s).
  assert (Hrest : forall k', Forall (fun p => off <= fst p < off + (1 + len s))
                                    (range_from k' (off + 1) s)).
  { intros k'. eapply Forall_impl; [|apply IH].
    intros p Hp. cbv beta in *. lia. }
  destruct k as [|k]; [|apply Hrest].
  destruct (DecodeRuneInString (String c s)) as [r w].
  constructor; [cbn [fst]; lia | apply Hrest].
Qed.

Lemma first_offset_bound (f : Z -> bool) (t : bool) (l : list (Z * Z))
      (lo hi : Z) :
  Forall (fun p => lo <= fst p < hi) l ->
  first_offset f t l = -1 \/ lo <= first_offset f t l < hi.
Proof.
  induction 1 as [|[i r] l Hp _ IH]; simpl; [now left|].
  destruct (Bool.eqb (f r) t); [right; exact Hp | exact IH].
Qed.

Lemma first_offset_shift (f : Z -> bool) (t : bool) (d : Z) (l : list (Z * Z)) :
  Forall (fun p => 0 <= fst p) l ->
  first_offset f t (map (fun p => (fst p + d, snd p)) l)
  = if first_offset f t l =? -1 then -1 else first_offset f t l + d.
Proof.
  induction 1 as [|[i r] l Hp Hl IH]; simpl in *; [reflexivity|].
  destruct (Bool.eqb (f r) t); [|exact IH].
  destruct (Z.eqb_spec i (-1)); [lia | reflexivity].
Qed.

Lemma first_offset_snoc (f : Z -> bool) (t : bool) (o w : Z)
      (l : list (Z * Z)) :
  Bool.eqb (f w) t = false ->
  first_offset f t (l ++ [(o, w)]) = first_offset f t l.
Proof.
  intros Hw. induction l as [|[i r] l IH]; simpl.
  - now rewrite Hw.
  - destruct (Bool.eqb (f r) t); [reflexivity | exact IH].
Qed.

(** *** The white space characters *)

Lemma IsSpace_In (w : Z) : IsSpace w = true -> In w space_runes.
Proof.
  unfold IsSpace. utf8_consts.
  destruct (uint32 w <=? 255); intros H;
    repeat rewrite ?orb_true_iff, ?andb_true_iff, ?Z.eqb_eq, ?Z.leb_le in H;
    unfold space_runes, In; lia.
Qed.

Lemma space_runes_valid :
  Forall (fun w => IsSpace w = true /\ ValidRune w = true
                   /\ not_continuation (at_ (EncodeRune w) 0))
         space_runes.
Proof.
  unfold space_runes, not_continuation.
  repeat (constructor; [vm_compute; intuition congruence|]). constructor.
Qed.

Lemma IsSpace_valid (w : Z) : IsSpace w = true -> ValidRune w = true.
Proof.
  intros H. apply IsSpace_In in H.
  pose proof space_runes_valid as F. rewrite Forall_forall in F.
  apply (F w H).
Qed.

Lemma IsSpace_lead (w : Z) :
  IsSpace w = true -> not_continuation (at_ (EncodeRune w) 0).
Proof.
  intros H. apply IsSpace_In in H.
  pose proof space_runes_valid as F. rewrite Forall_forall in F.
  apply (F w H).
Qed.

Lemma EncodeRune_nonempty (w : Z) :
  ValidRune w = true -> EncodeRune w <> "" /\ 1 <= len (EncodeRune w) <= 4.
Proof.
  intros H. destruct (DecodeRune_EncodeRune w "" H) as [_ Hl].
  split; [|exact Hl]. intros E. rewrite E in Hl. unfold len in Hl.
  simpl in Hl. lia.
Qed.

Lemma slice_app_skip (x y : string) (a b : Z) :
  0 <= a <= b -> slice (x ++ y) (len x + a) (len x + b) = slice y a b.
Proof.
  intros H. unfold slice, len.
  replace (Z.to_nat (Z.of_nat (String.length x) + a))
    with (String.length x + Z.to_nat a)%nat by lia.
  replace (Z.of_nat (String.length x) + b - (Z.of_nat (String.length x) + a))
    with (b - a) by lia.
  apply substring_skip_app.
Qed.

(** *** Trimming on the left *)

Lemma indexFunc_bound (s : string) (f : Z -> bool) (t : bool) :
  indexFunc s f t = -1 \/ 0 <= indexFunc s f t < len s.
Proof.
  unfold indexFunc, range.
  pose proof (range_from_offsets_bound s 0 0) as H.
  apply first_offset_bound with (f := f) (t := t) in H. lia.
Qed.

Lemma TrimLeftFunc_space_l (w : Z) (s : string) :
  IsSpace w = true ->
  TrimLeftFunc (EncodeRune w ++ s) IsSpace = TrimLeftFunc s IsSpace.
Proof.
  intros Hw. pose proof (IsSpace_valid w Hw) as Hv.
  unfold TrimLeftFunc, indexFunc, range.
  rewrite range_from_encode by exact Hv. cbn [first_offset]. rewrite Hw.
  cbn [Bool.eqb].
  rewrite range_from_shift, first_offset_shift.
  2:{ eapply Forall_impl; [|apply (range_from_offsets_bound s 0 0)].
      intros p Hp. cbv beta in Hp. lia. }
  destruct (indexFunc_bound s IsSpace false) as [Hi | Hi];
    unfold indexFunc, range in Hi.
  - rewrite Hi. reflexivity.
  - destruct (Z.eqb_spec (first_offset IsSpace false (range_from 0 0 s)) (-1));
      [lia|].
    destruct (Z.eqb_spec
                (first_offset IsSpace false (range_from 0 0 s)
                 + len (EncodeRune w)) (-1)).
    + pose proof (len_nonneg (EncodeRune w)). lia.
    + rewrite len_app.
      rewrite (Z.add_comm (first_offset _ _ _)).
      apply slice_app_skip. lia.
Qed.

Lemma range_from_encode_alone (w off : Z) :
  ValidRune w = true -> range_from 0 off (EncodeRune w) = [(off, w)].
Proof.
  intros H. rewrite <- (sapp_nil_r (EncodeRune w)).
  now rewrite range_from_encode.
Qed.

Lemma TrimLeftFunc_space_r (w : Z) (s : string) :
  IsSpace w = true ->
  TrimLeftFunc (s ++ EncodeRune w) IsSpace
  = if indexFunc s IsSpace false =? -1 then ""
    else TrimLeftFunc s IsSpace ++ EncodeRune w.
Proof.
  intros Hw. pose proof (IsSpace_valid w Hw) as Hv.
  unfold TrimLeftFunc, indexFunc, range.
  rewrite range_from_app by (try apply IsSpace_lead; try exact Hw; lia).
  rewrite range_from_encode_alone by exact Hv.
  rewrite first_offset_snoc by (rewrite Hw; reflexivity).
  destruct (indexFunc_bound s IsSpace false) as [Hi | Hi];
    unfold indexFunc, range in Hi.
  - rewrite Hi. reflexivity.
  - destruct (Z.eqb_spec (first_offset IsSpace false (range_from 0 0 s)) (-1));
      [lia|].
    rewrite len_app. apply slice_app_mid. lia.
Qed.

(** *** Decoding backwards *)

Lemma scan_back_stop (s : string) : forall (j n : nat) (start : Z),
  (j < n)%nat ->
  (forall i, (i < j)%nat -> RuneStart (at_ s (start - Z.of_nat i)) = false) ->
  RuneStart (at_ s (start - Z.of_nat j)) = true ->
  scan_back s n start = start - Z.of_nat j.
Proof.
  induction j as [|j IH]; intros n start Hn Hlow Hj;
    (destruct n as [|n]; [lia|]); cbn [scan_back].
  - rewrite Z.sub_0_r in Hj. rewrite Hj. lia.
  - pose proof (Hlow 0%nat ltac:(lia)) as H0. rewrite Z.sub_0_r in H0.
    rewrite H0. rewrite (IH n (start - 1)).
    + lia.
    + lia.
    + intros i Hi. specialize (Hlow (S i) ltac:(lia)).
      replace (start - 1 - Z.of_nat i) with (start - Z.of_nat (S i)) by lia.
      exact Hlow.
    + replace (start - 1 - Z.of_nat j) with (start - Z.of_nat (S j)) by lia.
      exact Hj.
Qed.

Lemma scan_back_le (s : string) : forall (n : nat) (start : Z),
  scan_back s n start <= start.
Proof.
  induction n as [|n IH]; intros start; cbn [scan_back]; [lia|].
  destruct (RuneStart (at_ s start)); [lia|].
  specialize (IH (start - 1)). lia.
Qed.

Lemma DecodeLast_width (s : string) (r size : Z) :
  s <> "" -> DecodeLastRuneInString s = (r, size) -> 1 <= size <= len s.
Proof.
  intros Hs. assert (Hl : 1 <= len s).
  { destruct s; [congruence|]. rewrite len_String.
    pose proof (len_nonneg s). lia. }
  unfold DecodeLastRuneInString. cbv zeta.
  destruct (Z.eqb_spec (len s) 0); [lia|].
  destruct (at_ s (len s - 1) <? RuneSelf); [intros E; inversion E; lia|].
  set (start := scan_back _ _ _).
  assert (Hst : start <= len s - 1 - 1) by (subst start; apply scan_back_le).
  destruct (DecodeRuneInString _) as [r' size'].
  destruct (Z.eqb_spec ((if start <? 0 then 0 else start) + size') (len s));
    cbn [negb]; intros E; inversion E; subst; [|lia].
  destruct (Z.ltb_spec start 0); lia.
Qed.

(** A sequence at the end of a string is decoded backwards as it is
    forwards, when its first byte starts a rune, its further bytes do not,
    and it is at most [UTFMax] long. *)
Lemma DecodeLast_suffix (t e : string) (r : Z) :
  1 <= len e <= 4 ->
  DecodeRuneInString e = (r, len e) ->
  (len e = 1 -> at_ e 0 < RuneSelf) ->
  (1 < len e -> RuneSelf <= at_ e (len e - 1)
                /\ RuneStart (at_ e 0) = true) ->
  (2 < len e -> RuneStart (at_ e 1) = false) ->
  (3 < len e -> RuneStart (at_ e 2) = false) ->
  DecodeLastRuneInString (t ++ e) = (r, len e).
Proof.
  intros Hk Hd H1 Hlast Hm1 Hm2.
  pose proof (len_nonneg t) as Ht.
  unfold DecodeLastRuneInString. cbv zeta. rewrite len_app.
  destruct (Z.eqb_spec (len t + len e) 0); [lia|].
  replace (len t + len e - 1) with (len t + (len e - 1)) by lia.
  rewrite at_app_r by lia.
  destruct (Z.eq_dec (len e) 1) as [E1 | E1].
  - rewrite E1 in *. change (1 - 1) with 0.
    specialize (H1 eq_refl).
    destruct (Z.ltb_spec (at_ e 0) RuneSelf); [|lia].
    f_equal. destruct e as [|c e]; [discriminate|].
    rewrite at_0 in *. unfold DecodeRuneInString in Hd.
    destruct (Z.ltb_spec (byte_val c) RuneSelf); [|lia]. congruence.
  - destruct Hlast as [Hl Hs]; [lia|].
    destruct (Z.ltb_spec (at_ e (len e - 1)) RuneSelf); [lia|].
    rewrite (scan_back_stop _ (Z.to_nat (len e - 2))).
    + replace (len t + (len e - 1) - 1 - Z.of_nat (Z.to_nat (len e - 2)))
        with (len t) by lia.
      destruct (Z.ltb_spec (len t) 0); [lia|].
      rewrite slice_app_r, Hd.
      destruct (Z.eqb_spec (len t + len e) (len t + len e)); [|lia].
      reflexivity.
    + unfold UTFMax. clear - Hk Ht E1. lia.
    + intros i Hi.
      replace (len t + (len e - 1) - 1 - Z.of_nat i)
        with (len t + (len e - 2 - Z.of_nat i)) by lia.
      rewrite at_app_r by lia.
      assert (Hc : len e - 2 - Z.of_nat i = 1 \/ len e - 2 - Z.of_nat i = 2)
        by lia.
      destruct Hc as [Hc | Hc]; rewrite Hc; [apply Hm1 | apply Hm2]; lia.
    + replace (len t + (len e - 1) - 1 - Z.of_nat (Z.to_nat (len e - 2)))
        with (len t + 0) by lia.
      rewrite at_app_r by lia. exact Hs.
Qed.

Lemma space_runes_backwards :
  Forall (fun w =>
            let e := EncodeRune w in
            (len e = 1 -> at_ e 0 < RuneSelf)
            /\ (1 < len e -> RuneSelf <= at_ e (len e - 1)
                             /\ RuneStart (at_ e 0) = true)
            /\ (2 < len e -> RuneStart (at_ e 1) = false)
            /\ (3 < len e -> RuneStart (at_ e 2) = false))
         space_runes.
Proof.
  unfold space_runes.
  repeat (constructor;
          [vm_compute; repeat split; intros; congruence|]).
  constructor.
Qed.

Lemma DecodeLast_space (t : string) (w : Z) :
  IsSpace w = true ->
  DecodeLastRuneInString (t ++ EncodeRune w) = (w, len (EncodeRune w)).
Proof.
  intros Hw. pose proof (IsSpace_valid w Hw) as Hv.
  destruct (DecodeRune_EncodeRune w "" Hv) as [Hd Hl].
  rewrite sapp_nil_r in Hd.
  pose proof space_runes_backwards as F. rewrite Forall_forall in F.
  destruct (F w (IsSpace_In w Hw)) as (H1 & H2 & H3 & H4).
  apply DecodeLast_suffix; assumption.
Qed.

(** *** Trimming on the right *)

Lemma lastIndexFunc_skip (s : string) (f : Z -> bool) (t : bool) :
  forall (k n : nat),
    lastIndexFunc_from s f t k (n + k) = lastIndexFunc_from s f t 0 n.
Proof.
  induction k as [|k IH]; intros n.
  - now rewrite Nat.add_0_r.
  - replace (n + S k)%nat with (S (n + k)) by lia. cbn [lastIndexFunc_from].
    apply IH.
Qed.

Lemma lastIndexFunc_prefix (x y : string) (f : Z -> bool) (t : bool) :
  forall (n k : nat),
    (n <= String.length x)%nat ->
    lastIndexFunc_from (x ++ y) f t k n = lastIndexFunc_from x f t k n.
Proof.
  induction n as [|n IH]; intros k Hn; [reflexivity|].
  cbn [lastIndexFunc_from]. destruct k as [|k]; [|apply IH; lia].
  rewrite slice_app_l by (unfold len; lia).
  destruct (DecodeLastRuneInString _) as [r size].
  destruct (Bool.eqb (f r) t); [reflexivity | apply IH; lia].
Qed.

Lemma lastIndexFunc_bound (s : string) (f : Z -> bool) (t : bool) :
  forall (n k : nat),
    (n <= String.length s)%nat ->
    lastIndexFunc_from s f t k n = -1
    \/ 0 <= lastIndexFunc_from s f t k n < Z.of_nat n.
Proof.
  induction n as [|n IH]; intros k Hn; [now left|].
  cbn [lastIndexFunc_from].
  assert (Hrec : forall k', lastIndexFunc_from s f t k' n = -1
                            \/ 0 <= lastIndexFunc_from s f t k' n
                               < Z.of_nat (S n)).
  { intros k'. destruct (IH k' ltac:(lia)); [now left | right; lia]. }
  destruct k as [|k]; [|apply Hrec].
  destruct (DecodeLastRuneInString _) as [r size] eqn:E.
  apply DecodeLast_width in E.
  - rewrite len_slice in E by (unfold len; lia).
    destruct (Bool.eqb (f r) t); [right; lia | apply Hrec].
  - intros Hsl. apply (f_equal len) in Hsl.
    rewrite len_slice in Hsl by (unfold len; lia). unfold len in Hsl.
    simpl in Hsl. lia.
Qed.

Lemma lastIndexFunc_space (x : string) (w : Z) :
  IsSpace w = true ->
  lastIndexFunc (x ++ EncodeRune w) IsSpace false
  = lastIndexFunc x IsSpace false.
Proof.
  intros Hw. pose proof (IsSpace_valid w Hw) as Hv.
  destruct (EncodeRune_nonempty w Hv) as [_ Hl].
  unfold lastIndexFunc. rewrite slength_app.
  replace (String.length x + String.length (EncodeRune w))%nat
    with (S (String.length x + (String.length (EncodeRune w) - 1)))
    by (unfold len in Hl; lia).
  cbn [lastIndexFunc_from].
  replace (Z.of_nat (S (String.length x + (String.length (EncodeRune w) - 1))))
    with (len (x ++ EncodeRune w)) by (rewrite len_app; unfold len in *; lia).
  rewrite slice_0_len, DecodeLast_space by exact Hw. rewrite Hw.
  cbn [Bool.eqb].
  replace (Z.to_nat (len (EncodeRune w)) - 1)%nat
    with (String.length (EncodeRune w) - 1)%nat by (unfold len; lia).
  rewrite lastIndexFunc_skip. apply lastIndexFunc_prefix. lia.
Qed.

Lemma TrimRightFunc_space (x : string) (w : Z) :
  IsSpace w = true ->
  TrimRightFunc (x ++ EncodeRune w) IsSpace = TrimRightFunc x IsSpace.
Proof.
  intros Hw. unfold TrimRightFunc. cbv zeta.
  rewrite lastIndexFunc_space by exact Hw.
  pose proof (len_nonneg (EncodeRune w)) as He.
  destruct (lastIndexFunc_bound x IsSpace false (String.length x) 0 (le_n _))
    as [Hi | Hi]; fold (lastIndexFunc x IsSpace false) in Hi;
    fold (len x) in Hi.
  - rewrite Hi. cbn [Z.leb andb]. simpl. rewrite !slice_empty. reflexivity.
  - set (i := lastIndexFunc x IsSpace false) in *.
    destruct (Z.leb_spec 0 i); [|lia]. cbn [andb].
    rewrite at_app_l by lia.
    destruct (RuneSelf <=? at_ x i).
    + rewrite len_app, slice_app_mid by lia.
      rewrite DecodeRune_local.
      * destruct (DecodeRuneInString (slice x i (len x))) as [r wd] eqn:E.
        apply DecodeRune_width in E.
        -- rewrite len_slice in E by lia. cbn [snd].
           apply slice_app_l. lia.
        -- intros Hsl. apply (f_equal len) in Hsl.
           rewrite len_slice in Hsl by lia. unfold len in Hsl at 2.
           simpl in Hsl. lia.
      * intros Hsl. apply (f_equal len) in Hsl.
        rewrite len_slice in Hsl by lia. unfold len in Hsl at 2.
        simpl in Hsl. lia.
      * apply IsSpace_lead. exact Hw.
    + apply slice_app_l. lia.
Qed.

Lemma TrimFunc_space_l (w : Z) (s : string) :
  IsSpace w = true ->
  TrimFunc (EncodeRune w ++ s) IsSpace = TrimFunc s IsSpace.
Proof.
  intros Hw. unfold TrimFunc. now rewrite TrimLeftFunc_space_l.
Qed.

Lemma TrimFunc_space_r (w : Z) (s : string) :
  IsSpace w = true ->
  TrimFunc (s ++ EncodeRune w) IsSpace = TrimFunc s IsSpace.
Proof.
  intros Hw. unfold TrimFunc. rewrite TrimLeftFunc_space_r by exact Hw.
  destruct (indexFunc s IsSpace false =? -1) eqn:E.
  - unfold TrimLeftFunc. rewrite E. reflexivity.
  - apply TrimRightFunc_space. exact Hw.
Qed.

(** *** The ASCII loops of [TrimSpace] *)

Lemma IsSpace_ascii (c : Z) : 0 <= c < 0x80 -> IsSpace c = asciiSpace c.
Proof.
  intros H. unfold IsSpace, asciiSpace, uint32. rewrite Z.mod_small by lia.
  utf8_consts. destruct (Z.leb_spec c 255); [|lia].
  destruct (Z.eqb_spec c 133); [lia|]. destruct (Z.eqb_spec c 160); [lia|].
  now rewrite !orb_false_r.
Qed.

Lemma EncodeRune_ascii (c : ascii) :
  byte_val c < 0x80 -> EncodeRune (byte_val c) = String c "".
Proof.
  intros H. pose proof (byte_val_range c).
  destruct (decode_encode_1 (byte_val c) "" ltac:(lia)) as [-> _].
  now rewrite byte_byte_val.
Qed.

(** A string that ends in an ASCII byte that is no space is left as it
    is. *)
Lemma TrimRightFunc_ends_plain (x : string) (c : ascii) :
  byte_val c < RuneSelf -> asciiSpace (byte_val c) = false ->
  TrimRightFunc (x ++ String c "") IsSpace = x ++ String c "".
Proof.
  intros Hc Hs. pose proof (byte_val_range c) as Hr.
  pose proof (len_nonneg x) as Hx.
  assert (Hd : DecodeLastRuneInString (x ++ String c "") = (byte_val c, 1)).
  { apply (DecodeLast_suffix x (String c "") (byte_val c)).
    - unfold len; simpl; lia.
    - unfold DecodeRuneInString.
      destruct (Z.ltb_spec (byte_val c) RuneSelf); [reflexivity | lia].
    - intros _. rewrite at_0. exact Hc.
    - unfold len; simpl; lia.
    - unfold len; simpl; lia.
    - unfold len; simpl; lia. }
  unfold TrimRightFunc, lastIndexFunc. cbv zeta.
  rewrite slength_app. cbn [String.length].
  replace (String.length x + 1)%nat with (S (String.length x)) by lia.
  cbn [lastIndexFunc_from].
  replace (Z.of_nat (S (String.length x))) with (len (x ++ String c ""))
    by (rewrite len_app; unfold len; simpl; lia).
  rewrite slice_0_len, Hd.
  rewrite IsSpace_ascii by (unfold RuneSelf in Hc; lia). rewrite Hs.
  cbn [Bool.eqb]. rewrite len_app. change (len (String c "")) with 1.
  replace (len x + 1 - 1) with (len x + 0) by lia.
  rewrite at_app_r by lia. rewrite at_0.
  destruct (Z.leb_spec 0 (len x + 0)); [|lia].
  destruct (Z.leb_spec RuneSelf (byte_val c)); [lia|]. cbn [andb].
  replace (len x + 0 + 1) with (len (x ++ String c ""))
    by (rewrite len_app; unfold len; simpl; lia).
  apply slice_0_len.
Qed.

Lemma TrimSpace_stop_spec (s : string) : forall (n : nat),
  (n <= String.length s)%nat ->
  TrimSpace_stop s n = TrimRightFunc (slice s 0 (Z.of_nat n)) IsSpace.
Proof.
  induction n as [|n IH]; intros Hn.
  - simpl. rewrite slice_empty. reflexivity.
  - cbn [TrimSpace_stop].
    destruct (Z.leb_spec RuneSelf (at_ s (Z.of_nat n))) as [Hh | Hl];
      [reflexivity|].
    replace (Z.of_nat (S n)) with (Z.of_nat n + 1) by lia.
    rewrite slice_snoc by (unfold len; lia).
    pose proof (at_range s (Z.of_nat n)) as Hr.
    assert (Hb : byte_val (byte (at_ s (Z.of_nat n))) = at_ s (Z.of_nat n))
      by (apply byte_val_byte; lia).
    destruct (asciiSpace (at_ s (Z.of_nat n))) eqn:Hs.
    + rewrite IH by lia.
      rewrite <- (EncodeRune_ascii (byte (at_ s (Z.of_nat n))))
        by (rewrite Hb; unfold RuneSelf in Hl; lia).
      rewrite TrimRightFunc_space; [reflexivity|].
      rewrite Hb, IsSpace_ascii by (unfold RuneSelf in Hl; lia). exact Hs.
    + rewrite TrimRightFunc_ends_plain by (rewrite Hb; assumption).
      reflexivity.
Qed.

(** [TrimSpace] is [TrimFunc] with [unicode.IsSpace]: the ASCII loops are a
    short cut. *)
Lemma TrimSpace_TrimFunc (s : string) : TrimSpace s = TrimFunc s IsSpace.
Proof.
  induction s as [|c s IH]; [reflexivity|].
  cbn [TrimSpace]. pose proof (byte_val_range c) as Hr.
  destruct (Z.leb_spec RuneSelf (byte_val c)) as [Hh | Hl]; [reflexivity|].
  destruct (asciiSpace (byte_val c)) eqn:Hs.
  - rewrite IH. change (String c s) with (String c "" ++ s).
    rewrite <- (EncodeRune_ascii c) by (unfold RuneSelf in Hl; lia).
    rewrite TrimFunc_space_l; [reflexivity|].
    rewrite IsSpace_ascii by (unfold RuneSelf in Hl; lia). exact Hs.
  - rewrite TrimSpace_stop_spec by lia.
    fold (len (String c s)). rewrite slice_0_len.
    unfold TrimFunc. f_equal.
    unfold TrimLeftFunc, indexFunc, range. cbn [range_from].
    unfold DecodeRuneInString.
    destruct (Z.ltb_spec (byte_val c) RuneSelf); [|lia].
    cbn [first_offset].
    rewrite IsSpace_ascii by (unfold RuneSelf in Hl; lia). rewrite Hs.
    cbn [Bool.eqb Z.eqb]. symmetry. apply slice_0_len.
Qed.

(** *** White space around a line *)

Lemma string_of_runes_snoc (rs : list Z) (w : Z) :
  string_of_runes (rs ++ [w]) = string_of_runes rs ++ EncodeRune w.
Proof.
  unfold string_of_runes. rewrite fold_left_app. reflexivity.
Qed.

Lemma TrimSpace_white_l (a s : string) :
  white_space a -> TrimSpace (a ++ s) = TrimSpace s.
Proof.
  intros (rs & Hrs & ->). rewrite !TrimSpace_TrimFunc.
  induction Hrs as [|w rs Hw _ IH]; [reflexivity|].
  rewrite string_of_runes_cons, sapp_assoc, TrimFunc_space_l by exact Hw.
  exact IH.
Qed.

Lemma TrimSpace_white_r (b s : string) :
  white_space b -> TrimSpace (s ++ b) = TrimSpace s.
Proof.
  intros (rs & Hrs & ->). rewrite !TrimSpace_TrimFunc.
  induction rs as [|w rs IH] using rev_ind.
  - unfold string_of_runes. simpl. now rewrite sapp_nil_r.
  - apply Forall_app in Hrs as [Hrs Hw]. inversion Hw; subst.
    rewrite string_of_runes_snoc, <- sapp_assoc.
    rewrite TrimFunc_space_r by assumption. apply IH. exact Hrs.
Qed.

Lemma TrimSpace_around (a core b : string) :
  white_space a -> white_space b ->
  TrimSpace (a ++ core ++ b) = TrimSpace core.
Proof.
  intros Ha Hb. rewrite TrimSpace_white_l by exact Ha.
  apply TrimSpace_white_r. exact Hb.
Qed.

End Trimming.

(** ** Receiving a frame *)

Section Receiving.
Import Go Rps.

(** The one-byte slice [msg[:1]] never equals the three-byte header. *)
Lemma first_byte_is_not_header (msg : string) :
  (slice msg 0 1 =? "⚠")%string = false.
Proof.
  rewrite slice_first_byte. destruct msg as [|c msg]; [reflexivity|].
  simpl. destruct (Ascii.eqb c _); reflexivity.
Qed.

(** What [ReceiveMessage] returns on the line that [ReadString] delivers:
    after trimming, a line of fewer than two bytes is too short and any
    other line has an invalid header, reported with the first byte. *)
Lemma ReceiveMessage_on_line
      (conn : Conn) (line : string) (rest : list string) :
  ReadString_conn newline "" (incoming conn) = (Some line, rest) ->
  ReceiveMessage conn =
  (inr (if len (TrimSpace line) <? 2 then ErrTooShort
        else InvalidHeaderError (slice (TrimSpace line) 0 1)),
   mkConn rest (written conn) (broken conn)).
Proof.
  intros H. unfold ReceiveMessage. rewrite H.
  destruct (len (TrimSpace line) <? 2); [reflexivity|].
  rewrite first_byte_is_not_header. reflexivity.
Qed.

Lemma ReceiveMessage_fails (conn : Conn) :
  exists e, fst (ReceiveMessage conn) = inr e
            /\ forall r, e <> InvalidFooterError r.
Proof.
  destruct (ReadString_conn newline "" (incoming conn)) as [[line|] rest] eqn:H.
  - rewrite (ReceiveMessage_on_line _ _ _ H). simpl.
    destruct (len (TrimSpace line) <? 2); eexists; split;
      try reflexivity; discriminate.
  - unfold ReceiveMessage. rewrite H. simpl.
    eexists; split; [reflexivity | discriminate].
Qed.

(** C1: the frame [SendMessage] writes for a payload is not decoded back
    by [ReceiveMessage].  For every payload the receiver of the frame gets
    an error, and for the payload ["rock"] the frame is the header, "urfn",
    the footer and a newline, and the error is [InvalidHeaderError] with
    the first byte (0xE2) of the three-byte header. *)
Theorem sent_frame_is_rejected (payload : string) :
  (forall sender sender',
      SendMessage sender payload = (sender', None) ->
      written sender' = written sender ++ frame (Encrypt payload)
      /\ forall receiver,
          incoming receiver = [frame (Encrypt payload)] ->
          exists e, fst (ReceiveMessage receiver) = inr e)
  /\ SendMessage (mkConn [] "" false) "rock"
     = (mkConn [] ("⚠urfn☠" ++ String newline "") false, None)
  /\ ReceiveMessage (mkConn ["⚠urfn☠" ++ String newline ""] "" false)
     = (inr (InvalidHeaderError (String (byte 0xE2) "")), mkConn [] "" false).
Proof.
  split; [|split; vm_compute; reflexivity].
  intros sender sender' H. unfold SendMessage in H.
  destruct (broken sender); [discriminate|]. inversion H; subst; simpl.
  split; [reflexivity|]. intros receiver _.
  destruct (ReceiveMessage_fails receiver) as (e & He & _). eauto.
Qed.

Lemma sent_frame_is_rejected_witness :
  exists e,
    fst (ReceiveMessage (mkConn [frame (Encrypt "paper")] "" false)) = inr e.
Proof.
  destruct (sent_frame_is_rejected "paper") as (H & _).
  destruct (H (mkConn [] "" false)
              (mkConn [] (frame (Encrypt "paper")) false)) as (_ & Hr).
  - vm_compute. reflexivity.
  - apply (Hr (mkConn [frame (Encrypt "paper")] "" false)). reflexivity.
Defined.

(** C3: on a delivered line [ReceiveMessage] is too short when the trimmed
    line has fewer than two bytes and otherwise always reports an invalid
    header; it never reports an invalid footer.  On the line of the two
    characters U+26A0 (the start marker) and "x" it reports
    [InvalidHeaderError], and on the line of the one character U+26A0 as
    well. *)
Theorem ReceiveMessage_reports_header_only
        (conn : Conn) (line : string) (rest : list string) :
  ReadString_conn newline "" (incoming conn) = (Some line, rest) ->
  fst (ReceiveMessage conn)
  = inr (if len (TrimSpace line) <? 2 then ErrTooShort
         else InvalidHeaderError (slice (TrimSpace line) 0 1))
  /\ (forall r, fst (ReceiveMessage conn) <> inr (InvalidFooterError r))
  /\ runes (TrimSpace ("⚠x" ++ String newline "")) = [0x26A0; 0x78]
  /\ fst (ReceiveMessage (mkConn ["⚠x" ++ String newline ""] "" false))
     = inr (InvalidHeaderError (String (byte 0xE2) ""))
  /\ runes (TrimSpace ("⚠" ++ String newline "")) = [0x26A0]
  /\ fst (ReceiveMessage (mkConn ["⚠" ++ String newline ""] "" false))
     = inr (InvalidHeaderError (String (byte 0xE2) "")).
Proof.
  intros H.
  split; [|split; [|repeat split; vm_compute; reflexivity]];
    rewrite (ReceiveMessage_on_line _ _ _ H); unfold fst.
  - reflexivity.
  - intros r. destruct (len (TrimSpace line) <? 2); discriminate.
Qed.

Lemma ReceiveMessage_reports_header_only_witness :
  fst (ReceiveMessage (mkConn ["⚠rock"; "☠" ++ String newline ""] "" false))
  = inr (InvalidHeaderError (String (byte 0xE2) "")).
Proof.
  destruct (ReceiveMessage_reports_header_only
              (mkConn ["⚠rock"; "☠" ++ String newline ""] "" false)
              ("⚠rock☠" ++ String newline "") []) as (H & _).
  - vm_compute. reflexivity.
  - rewrite H. vm_compute. reflexivity.
Defined.

Lemma TrimLeftFunc_keeps (r : Z) (y : string) :
  ValidRune r = true -> IsSpace r = false ->
  TrimLeftFunc (EncodeRune r ++ y) IsSpace = EncodeRune r ++ y.
Proof.
  intros Hv Hs. unfold TrimLeftFunc, indexFunc, range.
  rewrite range_from_encode by exact Hv. cbn [first_offset]. rewrite Hs.
  cbn [Bool.eqb]. change (0 =? -1) with false. cbv iota.
  apply slice_0_len.
Qed.

Lemma TrimRightFunc_footer (x : string) :
  TrimRightFunc (x ++ footer) IsSpace = x ++ footer.
Proof.
  pose proof (len_nonneg x) as Hx.
  assert (Hd : DecodeLastRuneInString (x ++ footer) = (0x2620, 3)).
  { apply (DecodeLast_suffix x footer 0x2620);
      try (vm_compute; repeat split; intros; congruence). }
  unfold TrimRightFunc, lastIndexFunc. cbv zeta.
  rewrite slength_app. change (String.length footer) with 3%nat.
  replace (String.length x + 3)%nat with (S (String.length x + 2)) by lia.
  cbn [lastIndexFunc_from].
  replace (Z.of_nat (S (String.length x + 2))) with (len (x ++ footer))
    by (rewrite len_app; unfold len; simpl; lia).
  rewrite slice_0_len, Hd.
  change (IsSpace 9760) with false. cbn [Bool.eqb].
  rewrite len_app. change (len footer) with 3.
  replace (len x + 3 - 3) with (len x + 0) by lia.
  rewrite at_app_r by lia.
  change (at_ footer 0) with 226.
  destruct (Z.leb_spec 0 (len x + 0)); [|lia].
  change (RuneSelf <=? 226) with true. cbn [andb].
  rewrite Z.add_0_r.
  replace (len x + 3) with (len x + len footer) by reflexivity.
  rewrite slice_app_r.
  change (snd (DecodeRuneInString footer)) with 3.
  replace (len x + 3) with (len (x ++ footer))
    by (rewrite len_app; reflexivity).
  apply slice_0_len.
Qed.

(** Trimming leaves a framed message as it is. *)
Lemma TrimSpace_framed (enc : string) :
  TrimSpace (header ++ enc ++ footer) = header ++ enc ++ footer.
Proof.
  rewrite TrimSpace_TrimFunc. unfold TrimFunc.
  change header with (EncodeRune 0x26A0).
  rewrite TrimLeftFunc_keeps by reflexivity.
  rewrite <- sapp_assoc. apply TrimRightFunc_footer.
Qed.

Lemma TrimSpace_white (l : string) : white_space l -> TrimSpace l = "".
Proof.
  intros H. rewrite <- (sapp_nil_r l). now rewrite TrimSpace_white_l.
Qed.

(** C10: [ReceiveMessage] trims the line before it looks at its length or
    its markers, and trimming takes off all white space around the line.
    The length it tests is that of the trimmed line and the byte it
    reports is the first byte of the trimmed line, so that of two
    delivered lines that differ only in the white space around them, both
    give the same result or the same error; a framed message with white
    space around it is answered for the frame alone (the byte reported is
    the first byte of the start marker, never one of the white space, and
    the error is none about the footer), and a line of white space only is
    too short, whatever its length. *)
Theorem ReceiveMessage_ignores_outer_space
        (conn1 conn2 : Conn) (l1 l2 : string) (rest1 rest2 : list string) :
  ReadString_conn newline "" (incoming conn1) = (Some l1, rest1) ->
  ReadString_conn newline "" (incoming conn2) = (Some l2, rest2) ->
  same_up_to_space l1 l2 ->
  TrimSpace l1 = TrimSpace l2
  /\ fst (ReceiveMessage conn1) = fst (ReceiveMessage conn2)
  /\ fst (ReceiveMessage conn1)
     = inr (if len (TrimSpace l1) <? 2 then ErrTooShort
            else InvalidHeaderError (slice (TrimSpace l1) 0 1))
  /\ (forall a core b,
         white_space a -> white_space b -> l1 = a ++ core ++ b ->
         TrimSpace l1 = TrimSpace core)
  /\ (forall a enc b,
         white_space a -> white_space b ->
         l1 = a ++ (header ++ enc ++ footer) ++ b ->
         TrimSpace l1 = header ++ enc ++ footer
         /\ fst (ReceiveMessage conn1)
            = inr (InvalidHeaderError (String (byte 0xE2) ""))
         /\ forall r, fst (ReceiveMessage conn1) <> inr (InvalidFooterError r))
  /\ (white_space l1 -> fst (ReceiveMessage conn1) = inr ErrTooShort).
Proof.
  intros H1 H2 (a1 & b1 & a2 & b2 & core & Ha1 & Hb1 & Ha2 & Hb2 & E1 & E2).
  assert (Ht : TrimSpace l1 = TrimSpace l2)
    by (subst l1 l2; rewrite !TrimSpace_around by assumption; reflexivity).
  split; [exact Ht|].
  rewrite (ReceiveMessage_on_line _ _ _ H1), (ReceiveMessage_on_line _ _ _ H2).
  cbn [fst]. split; [rewrite Ht; reflexivity|].
  split; [reflexivity|]. clear. split; [|split].
  - intros a core b Ha Hb ->. now apply TrimSpace_around.
  - intros a enc b Ha Hb ->.
    rewrite TrimSpace_around, TrimSpace_framed by assumption.
    split; [reflexivity|].
    rewrite !len_app. change (len header) with 3. change (len footer) with 3.
    pose proof (len_nonneg enc).
    destruct (Z.ltb_spec (3 + (len enc + 3)) 2); [lia|].
    rewrite slice_first_byte. split; [reflexivity | discriminate].
  - intros Hw. rewrite (TrimSpace_white _ Hw). reflexivity.
Qed.

Lemma ReceiveMessage_ignores_outer_space_witness :
  let nl := String newline "" in
  let before := string_of_runes [0x20; 0x3000; 0x09] in
  let after := string_of_runes [0xA0; 0x0D; 0x0A] in
  fst (ReceiveMessage (mkConn [before ++ "⚠urfn☠" ++ after] "" false))
  = fst (ReceiveMessage (mkConn ["⚠urfn☠" ++ nl] "" false))
  /\ fst (ReceiveMessage (mkConn [before ++ "⚠urfn☠" ++ after] "" false))
     = inr (InvalidHeaderError (String (byte 0xE2) ""))
  /\ fst (ReceiveMessage (mkConn [before ++ after] "" false))
     = inr ErrTooShort.
Proof.
  intros nl before after.
  destruct (ReceiveMessage_ignores_outer_space
              (mkConn [before ++ "⚠urfn☠" ++ after] "" false)
              (mkConn ["⚠urfn☠" ++ nl] "" false)
              (before ++ "⚠urfn☠" ++ after) ("⚠urfn☠" ++ nl) [] [])
    as (_ & Heq & _ & _ & Hframed & _).
  - vm_compute. reflexivity.
  - vm_compute. reflexivity.
  - exists before, after, "", nl, "⚠urfn☠".
    repeat split.
    + exists [0x20; 0x3000; 0x09]. split; [repeat constructor | reflexivity].
    + exists [0xA0; 0x0D; 0x0A]. split; [repeat constructor | reflexivity].
    + exists []. split; [constructor | reflexivity].
    + exists [0x0A]. split; [repeat constructor | vm_compute; reflexivity].
  - destruct (ReceiveMessage_ignores_outer_space
                (mkConn [before ++ after] "" false)
                (mkConn [before ++ after] "" false)
                (before ++ after) (before ++ after) [] [])
      as (_ & _ & _ & _ & _ & Hwhite).
    + vm_compute. reflexivity.
    + vm_compute. reflexivity.
    + exists (before ++ after), "", (before ++ after), "", "".
      assert (Hw : white_space (before ++ after)).
      { exists [0x20; 0x3000; 0x09; 0xA0; 0x0D; 0x0A].
        split; [repeat constructor | vm_compute; reflexivity]. }
      assert (He : white_space "")
        by (exists []; split; [constructor | reflexivity]).
      repeat split; try assumption; vm_compute; reflexivity.
    + split; [exact Heq|]. split.
      * destruct (Hframed before "urfn" after) as (_ & Hh & _).
        -- exists [0x20; 0x3000; 0x09].
           split; [repeat constructor | reflexivity].
        -- exists [0xA0; 0x0D; 0x0A].
           split; [repeat constructor | reflexivity].
        -- vm_compute. reflexivity.
        -- exact Hh.
      * apply Hwhite.
        exists [0x20; 0x3000; 0x09; 0xA0; 0x0D; 0x0A].
        split; [repeat constructor | vm_compute; reflexivity].
Defined.

End Receiving.

(** ** Scoring *)

Section Scoring.
Import Rps.

Lemma In_choices (a : string) :
  In a choices <-> a = "rock" \/ a = "paper" \/ a = "scissors".
Proof. unfold choices; simpl; intuition congruence. Qed.

(** C2: on every ordered pair of choices [determineOutcome] gives the
    deltas of the cyclic rule (winner +1, loser -1), gives (0, 0) on equal
    choices, and is antisymmetric on distinct ones: if it returns (x, y)
    then y = -x and the swapped pair returns (y, x). *)
Theorem determineOutcome_cyclic (a b : string) :
  In a choices -> In b choices ->
  determineOutcome a b = rule_deltas a b
  /\ (a = b -> determineOutcome a b = (0, 0))
  /\ (beats a b = true -> determineOutcome a b = (1, -1))
  /\ (beats b a = true -> determineOutcome a b = (-1, 1))
  /\ (a <> b -> forall x y, determineOutcome a b = (x, y) ->
                y = - x /\ determineOutcome b a = (y, x)).
Proof.
  rewrite !In_choices.
  intros [-> | [-> | ->]] [-> | [-> | ->]];
    (split; [reflexivity|]);
    (split; [try reflexivity; discriminate|]);
    (split; [try reflexivity; discriminate|]);
    (split; [try reflexivity; discriminate|]);
    intros Hne x y H; try (exfalso; apply Hne; reflexivity);
    vm_compute in H; inversion H; subst; split; reflexivity.
Qed.

Lemma determineOutcome_cyclic_witness :
  determineOutcome "paper" "rock" = (1, -1)
  /\ determineOutcome "rock" "paper" = (-1, 1).
Proof.
  destruct (determineOutcome_cyclic "paper" "rock") as (_ & _ & Hw & _ & Ha).
  - simpl; auto.
  - simpl; auto.
  - split.
    + apply Hw. reflexivity.
    + apply (Ha ltac:(discriminate) 1 (-1)). apply Hw. reflexivity.
Defined.

(** C9: [determineOutcome] is a total function of two arbitrary strings.
    Equal strings give (0, 0); a first argument that is no choice gives
    (0, 0) whatever the second; a first argument that is a choice, against
    any other string that is not the choice it beats, gives (-1, 1): the
    first player is scored as losing, as in
    [determineOutcome("rock", "lizard")]. *)
Theorem determineOutcome_outside_choices (a b : string) :
  (exists x y, determineOutcome a b = (x, y))
  /\ (a = b -> determineOutcome a b = (0, 0))
  /\ (~ In a choices -> determineOutcome a b = (0, 0))
  /\ (In a choices -> a <> b -> beats a b = false ->
      determineOutcome a b = (-1, 1))
  /\ determineOutcome "rock" "lizard" = (-1, 1).
Proof.
  split; [destruct (determineOutcome a b) as [x y]; eauto|].
  split.
  { intros ->. unfold determineOutcome. rewrite String.eqb_refl. reflexivity. }
  split.
  { rewrite In_choices. intros Hn. unfold determineOutcome.
    destruct (String.eqb_spec a b); [reflexivity|].
    destruct (String.eqb_spec a "rock"); [tauto|].
    destruct (String.eqb_spec a "paper"); [tauto|].
    destruct (String.eqb_spec a "scissors"); [tauto|reflexivity]. }
  split; [|reflexivity].
  rewrite In_choices. unfold determineOutcome, beats.
  intros Ha Hne Hb.
  destruct (String.eqb_spec a b); [contradiction|].
  destruct Ha as [-> | [-> | ->]]; simpl in *;
    destruct (b =? "scissors")%string, (b =? "paper")%string,
             (b =? "rock")%string; simpl in *; congruence.
Qed.

Lemma determineOutcome_outside_choices_witness :
  determineOutcome "scissors" "spock" = (-1, 1)
  /\ determineOutcome "lizard" "rock" = (0, 0).
Proof.
  destruct (determineOutcome_outside_choices "scissors" "spock")
    as (_ & _ & _ & Hl & _).
  destruct (determineOutcome_outside_choices "lizard" "rock")
    as (_ & _ & Hz & _).
  split.
  - apply Hl; [simpl; auto | discriminate | reflexivity].
  - apply Hz. simpl. intros [H | [H | [H | []]]]; discriminate.
Defined.

End Scoring.

(** ** The channel of waiting players *)

Section Intake.
Import Go.

(** [NewServer] and [NewGameManager] make the channel of waiting players
    empty, with room for exactly 100 connections.  The statement that
    sends on it is in [Server.Start], which is not among the sources. *)
Lemma WaitingPlayers_capacity (rounds : Z) (port : string) :
  Rps.WaitingPlayers (Rps.NewServer rounds port) = make_chan Conn 100
  /\ ServerMain.WaitingPlayers (ServerMain.NewGameManager rounds)
     = make_chan Conn 100
  /\ cap (make_chan Conn 100) = 100
  /\ buf (make_chan Conn 100) = [].
Proof. repeat split. Qed.

End Intake.

(** ** Start-up of the server *)

Section Startup.
Import Go ServerMain.

Lemma Atoi_loop_numeral (ds : list Z) : forall n,
  Forall (fun d => 0 <= d <= 9) ds ->
  Atoi_loop (numeral ds) n = inl (fold_left (fun n d => n * 10 + d) ds n).
Proof.
  induction ds as [|d ds IH]; intros n H; [reflexivity|].
  inversion H as [|? ? Hd Hds]; subst. cbn [numeral Atoi_loop fold_left].
  rewrite byte_val_byte by lia.
  replace (48 + d - 48) with d by lia. rewrite Z.mod_small by lia.
  destruct (Z.ltb_spec 9 d); [lia|]. apply IH. exact Hds.
Qed.

Lemma slength_numeral (ds : list Z) :
  String.length (numeral ds) = List.length ds.
Proof. induction ds; simpl; congruence. Qed.

(** [Atoi] reads a numeral of up to 18 digits as the number it denotes. *)
Lemma Atoi_numeral (ds : list Z) :
  (0 < List.length ds < 19)%nat -> Forall (fun d => 0 <= d <= 9) ds ->
  Atoi (numeral ds) = inl (numeral_value ds).
Proof.
  intros Hl H. unfold Atoi, len. rewrite slength_numeral.
  destruct (Z.ltb_spec 0 (Z.of_nat (List.length ds))); [|lia].
  destruct (Z.ltb_spec (Z.of_nat (List.length ds)) 19); [|lia]. cbn [andb].
  destruct ds as [|d ds]; [simpl in Hl; lia|].
  inversion H as [|? ? Hd Hds]; subst.
  cbn [numeral]. rewrite at_0, byte_val_byte by lia.
  destruct (Z.eqb_spec (48 + d) 45); [lia|].
  destruct (Z.eqb_spec (48 + d) 43); [lia|]. cbn [orb].
  change (String (byte (48 + d)) (numeral ds)) with (numeral (d :: ds)).
  unfold len. rewrite slength_numeral.
  destruct (Z.ltb_spec (Z.of_nat (List.length (d :: ds))) 1);
    [simpl in *; lia|].
  rewrite Atoi_loop_numeral by exact H. reflexivity.
Qed.

(** Numerals that [Atoi] turns down: beyond 64 bits, signs alone, spaces. *)
Lemma Atoi_rejects :
  Atoi "9223372036854775808" = inr ErrRange
  /\ Atoi "99999999999999999999" = inr ErrRange
  /\ Atoi "" = inr ErrSyntax /\ Atoi "+" = inr ErrSyntax
  /\ Atoi " 3" = inr ErrSyntax /\ Atoi "3.0" = inr ErrSyntax.
Proof. repeat split; vm_compute; reflexivity. Qed.

(** C7: with fewer than two arguments after the program name [main] prints
    the usage line and exits with status 1; with two or more it exits
    through [log.Fatalf] (status 1) when [Atoi] rejects the round count or
    gives a value at or below zero, and otherwise goes on to start a
    server with that round count and port, as it does for every numeral
    of up to 18 digits that denotes a positive number. *)
Theorem main_validates_arguments (Args : list string) :
  ((List.length Args < 3)%nat ->
   main Args = Usage ("Usage: " ++ nth 0 Args "" ++ " <number_of_rounds> <port>"
                      ++ String newline "") 1
   /\ 1 <> 0)
  /\ ((3 <= List.length Args)%nat ->
      (forall e, Atoi (nth 1 Args "") = inr e ->
                 main Args = Fatal (Some e) 1 /\ 1 <> 0)
      /\ (forall n, Atoi (nth 1 Args "") = inl n -> n <= 0 ->
                    main Args = Fatal None 1 /\ 1 <> 0)
      /\ (forall n, Atoi (nth 1 Args "") = inl n -> 0 < n ->
                    main Args = Start (Rps.NewServer n (nth 2 Args "")))
      /\ (forall ds, nth 1 Args "" = numeral ds ->
                     (List.length ds < 19)%nat ->
                     Forall (fun d => 0 <= d <= 9) ds ->
                     0 < numeral_value ds ->
                     main Args
                     = Start (Rps.NewServer (numeral_value ds)
                                            (nth 2 Args "")))).
Proof.
  unfold main. split.
  - intros H.
    destruct (Z.ltb_spec (Z.of_nat (List.length Args)) 3); [|lia].
    split; [reflexivity|discriminate].
  - intros H.
    destruct (Z.ltb_spec (Z.of_nat (List.length Args)) 3); [lia|].
    split; [|split; [|split]].
    + intros e ->. split; [reflexivity|discriminate].
    + intros n -> Hn. destruct (Z.leb_spec n 0); [|lia].
      split; [reflexivity|discriminate].
    + intros n -> Hn. destruct (Z.leb_spec n 0); [lia|]. reflexivity.
    + intros ds -> Hl Hd Hv.
      assert (Hne : (0 < List.length ds)%nat)
        by (destruct ds; [vm_compute in Hv; discriminate | simpl; lia]).
      rewrite Atoi_numeral by (try split; assumption).
      destruct (Z.leb_spec (numeral_value ds) 0); [lia|]. reflexivity.
Qed.

Lemma main_validates_arguments_witness :
  main ["server"; "3"; "8080"] = Start (Rps.NewServer 3 "8080")
  /\ main ["server"; "0"; "8080"] = Fatal None 1
  /\ main ["server"; "three"; "8080"] = Fatal (Some ErrSyntax) 1
  /\ main ["server"; "3"]
     = Usage ("Usage: server <number_of_rounds> <port>" ++ String newline "") 1.
Proof.
  pose proof (main_validates_arguments ["server"; "3"; "8080"]) as [_ Ha].
  pose proof (main_validates_arguments ["server"; "0"; "8080"]) as [_ Hb].
  pose proof (main_validates_arguments ["server"; "three"; "8080"]) as [_ Hc].
  pose proof (main_validates_arguments ["server"; "3"]) as [Hd _].
  split; [|split; [|split]].
  - destruct Ha as (_ & _ & _ & H); [simpl; lia|].
    apply (H [3]); [reflexivity | simpl; lia | repeat constructor; lia
                   | reflexivity].
  - destruct Hb as (_ & H & _); [simpl; lia|].
    apply (H 0); [reflexivity|lia].
  - destruct Hc as (H & _); [simpl; lia|].
    apply (H ErrSyntax). reflexivity.
  - destruct Hd as (H & _); [simpl; lia|]. exact H.
Defined.

End Startup.

(** ** The client's prompt *)

Section Prompting.
Import Go ClientMain.

Variable mapToLower : string -> string.

Lemma ReadString_split (delim : ascii) (s line rest : string) :
  ReadString delim s = Some (line, rest) -> s = line ++ rest.
Proof.
  revert line rest. induction s as [|c s IH]; simpl; intros line rest H.
  - discriminate.
  - destruct (Ascii.eqb c delim).
    + inversion H; subst. reflexivity.
    + destruct (ReadString delim s) as [[l r]|]; [|discriminate].
      inversion H; subst. simpl. f_equal. apply IH. reflexivity.
Qed.

Lemma invalidChoice_iff (choice : string) :
  invalidChoice choice = false <-> In choice choices.
Proof.
  rewrite In_choices. unfold invalidChoice.
  destruct (String.eqb_spec choice "rock");
    destruct (String.eqb_spec choice "paper");
    destruct (String.eqb_spec choice "scissors"); simpl;
    intuition congruence.
Qed.

(** A successful [promptChoice] turned down a run of lines, then took the
    next one. *)
Lemma promptChoice_accepts (w : World) : forall choice w',
  promptChoice mapToLower w = (inl choice, w') ->
  In choice choices
  /\ exists rejected line,
      stdin w = String.concat "" rejected ++ line ++ stdin w'
      /\ choice = TrimSpace (ToLower mapToLower line)
      /\ Forall (fun l => ~ In (TrimSpace (ToLower mapToLower l)) choices)
                rejected
      /\ stdout w' = stdout w ++ rejections rejected ++ choicePrompt.
Proof.
  funelim (promptChoice mapToLower w); intros choice w' Hp.
  - discriminate.
  - match goal with
    | IH : forall _ _, _ -> _ /\ _ |- _ =>
        destruct (IH _ _ Hp) as (Hin & rej & l & Hs & Hc & Hr & Ho)
    end.
    split; [exact Hin|]. exists (line :: rej), l.
    match goal with
    | E : ReadString _ _ = Some _ |- _ =>
        pose proof (ReadString_split _ _ _ _ E) as Hsp
    end.
    simpl in Hs, Ho. repeat split.
    + rewrite Hsp, Hs.
      destruct rej; simpl; rewrite ?sapp_assoc; reflexivity.
    + exact Hc.
    + constructor; [|exact Hr].
      rewrite <- invalidChoice_iff. congruence.
    + rewrite Ho. unfold rejections.
      destruct rej; simpl; rewrite ?sapp_assoc; simpl; reflexivity.
  - inversion Hp; subst; clear Hp. split.
    + apply invalidChoice_iff. assumption.
    + exists [], line. simpl. repeat split.
      * eapply ReadString_split; eassumption.
      * constructor.
Qed.

Lemma promptChoice_client (w : World) : forall r w',
  promptChoice mapToLower w = (r, w') ->
  client w' = client w /\ (forall e, r = inr e -> e = ErrReadChoice).
Proof.
  funelim (promptChoice mapToLower w); intros r w' Hp.
  - inversion Hp; subst. split; [reflexivity|]. intros err Herr. congruence.
  - match goal with
    | IH : forall _ _, _ -> _ /\ _ |- _ => apply IH in Hp as [Hc Herr]
    end.
    split; [exact Hc | exact Herr].
  - inversion Hp; subst. split; [reflexivity|]. intros err Herr. discriminate.
Qed.

Lemma ReceiveMessage_written (conn : Go.Conn) :
  written (snd (Rps.ReceiveMessage conn)) = written conn.
Proof.
  unfold Rps.ReceiveMessage.
  destruct (ReadString_conn newline "" (incoming conn)) as [[msg|] rest];
    [|reflexivity].
  repeat match goal with
         | |- context [if ?b then _ else _] => destruct b
         end; reflexivity.
Qed.

(** One turn of [gameLoop] writes nothing, or the frame of one choice. *)
Lemma gameTurn_sends (w : World) :
  let after := match gameTurn mapToLower w with
               | inl (_, w') => w'
               | inr w' => w'
               end in
  written (Conn (client after)) = written (Conn (client w))
  \/ exists choice, In choice choices
       /\ written (Conn (client after))
          = written (Conn (client w)) ++ Rps.frame (Rps.Encrypt choice).
Proof.
  unfold gameTurn.
  destruct (promptChoice mapToLower w) as [[choice|err] w1] eqn:Hp.
  2:{ left. apply promptChoice_client in Hp as [-> _]. reflexivity. }
  pose proof (promptChoice_accepts _ _ _ Hp) as [Hin _].
  apply promptChoice_client in Hp as [Hc _].
  unfold Rps.SendMessage. rewrite Hc.
  destruct (broken (Conn (client w))); [left; reflexivity|].
  right. exists choice. split; [exact Hin|].
  match goal with
  | |- context [Rps.ReceiveMessage ?c] =>
      pose proof (ReceiveMessage_written c) as Hw;
      destruct (Rps.ReceiveMessage c) as [[response|e3] conn3]
  end; simpl in Hw; [|simpl; exact Hw].
  destruct (HasPrefix response "SCORE"); [simpl; exact Hw|].
  destruct (Split response " ") as [|p1 [|p2 [|p3 [|p4 [|p5 ps]]]]];
    try (simpl; exact Hw).
  destruct (p3 =? "0")%string; simpl; exact Hw.
Qed.

Lemma concat_cons (x : string) (l : list string) :
  String.concat "" (x :: l) = x ++ String.concat "" l.
Proof. destruct l; simpl; [now rewrite sapp_nil_r | reflexivity]. Qed.

(** All of [gameLoop] writes the frames of choices and nothing else. *)
Lemma gameLoop_sends (w : World) : forall r w',
  gameLoop mapToLower w = (r, w') ->
  exists sent, Forall (fun c => In c choices) sent
    /\ written (Conn (client w'))
       = written (Conn (client w)) ++ choice_frames sent.
Proof.
  funelim (gameLoop mapToLower w); intros r w1 Hg.
  - pose proof (gameTurn_sends w) as Ht. cbv zeta in Ht.
    match goal with
    | E : gameTurn _ _ = inl _ |- _ => rewrite E in Ht
    end.
    rewrite Hg in Ht.
    destruct Ht as [Ht | (c & Hc & Ht)].
    + exists []. split; [constructor|].
      rewrite Ht. unfold choice_frames. simpl. now rewrite sapp_nil_r.
    + exists [c]. split; [constructor; [exact Hc | constructor]|].
      rewrite Ht. reflexivity.
  - pose proof (gameTurn_sends w) as Ht. cbv zeta in Ht.
    match goal with
    | E : gameTurn _ _ = inr _ |- _ => rewrite E in Ht
    end.
    match goal with
    | IH : forall _ _, _ -> exists _, _ |- _ =>
        destruct (IH _ _ Hg) as (sent & Hs & Hw)
    end.
    destruct Ht as [Ht | (c & Hc & Ht)].
    + exists sent. split; [exact Hs|]. rewrite Hw, Ht. reflexivity.
    + exists (c :: sent). split; [constructor; assumption|].
      rewrite Hw, Ht. unfold choice_frames. simpl map.
      rewrite concat_cons, sapp_assoc. reflexivity.
Qed.

(** C8: whatever is typed, a choice that [promptChoice] returns is one of
    "rock", "paper" and "scissors"; it is the lower-cased and trimmed form
    of the first input line that has such a form, every line before it was
    answered with the invalid-choice message and a new prompt, and the
    client (its connection included) is as it was.  [gameLoop] writes to
    the connection only frames of such choices. *)
Theorem promptChoice_returns_valid_choice (w : World) :
  (forall choice w',
      promptChoice mapToLower w = (inl choice, w') ->
      In choice choices
      /\ exists rejected line,
          stdin w = String.concat "" rejected ++ line ++ stdin w'
          /\ choice = TrimSpace (ToLower mapToLower line)
          /\ Forall (fun l => ~ In (TrimSpace (ToLower mapToLower l)) choices)
                    rejected
          /\ stdout w' = stdout w ++ rejections rejected ++ choicePrompt)
  /\ (forall r w', promptChoice mapToLower w = (r, w') -> client w' = client w)
  /\ (forall r w',
         gameLoop mapToLower w = (r, w') ->
         exists sent, Forall (fun c => In c choices) sent
           /\ written (Conn (client w'))
              = written (Conn (client w)) ++ choice_frames sent).
Proof.
  split; [|split].
  - apply promptChoice_accepts.
  - intros r w' H. apply promptChoice_client in H. tauto.
  - apply gameLoop_sends.
Qed.

End Prompting.

Lemma promptChoice_returns_valid_choice_witness :
  let w := ClientMain.mkWorld
             (ClientMain.mkClient (Go.mkConn [] "" false) "localhost" "8080")
             ("lizard" ++ String Go.newline ""
              ++ "  RoCk " ++ String Go.newline "") "" in
  exists w',
    ClientMain.promptChoice (fun s => s) w = (inl "rock", w')
    /\ In "rock" choices /\ ClientMain.client w' = ClientMain.client w.
Proof.
  intros w.
  destruct (ClientMain.promptChoice (fun s => s) w) as [r w'] eqn:E.
  assert (Hr : r = inl "rock") by (vm_compute in E; congruence).
  subst r. exists w'.
  destruct (promptChoice_returns_valid_choice (fun s => s) w) as (Ha & Hc & _).
  split; [reflexivity|]. split.
  - apply (Ha "rock" w' E).
  - apply (Hc _ w' E).
Defined.

(** ** The codec on arbitrary bytes *)

Section CodecFacts.
Import Go Rps.

Lemma int32_range (x : Z) : - 2 ^ 31 <= int32 x < 2 ^ 31.
Proof.
  unfold int32.
  assert (0 <= (x + 2 ^ 31) mod 2 ^ 32 < 2 ^ 32)
    by (apply Z.mod_pos_bound; lia).
  lia.
Qed.

(** What [WriteRune] writes for a rune it cannot encode. *)
Lemma EncodeRune_invalid (r : Z) :
  - 2 ^ 31 <= r < 2 ^ 31 -> ValidRune r = false ->
  EncodeRune r = EncodeRune RuneError.
Proof.
  intros Hr Hv. unfold ValidRune in Hv. utf8_consts.
  change (EncodeRune 65533) with (encode3 65533).
  unfold EncodeRune, uint32. utf8_consts.
  destruct (Z.leb_spec 0 r) as [Hp | Hn].
  - rewrite Z.mod_small by lia.
    destruct (Z.ltb_spec r 55296); [discriminate|].
    destruct (Z.ltb_spec 57343 r); simpl in Hv.
    + destruct (Z.leb_spec r 1114111); [discriminate|].
      decide_ifs. reflexivity.
    + decide_ifs. reflexivity.
  - replace (r mod 2 ^ 32) with (r + 2 ^ 32).
    + decide_ifs. reflexivity.
    + apply Z.mod_unique with (q := -1); lia.
Qed.

Lemma string_of_runes_writable (rs : list Z) :
  Forall (fun r => - 2 ^ 31 <= r < 2 ^ 31) rs ->
  string_of_runes rs = string_of_runes (map writable rs).
Proof.
  induction 1 as [|r rs Hr _ IH]; [reflexivity|].
  cbn [map]. rewrite !string_of_runes_cons, IH. f_equal.
  unfold writable. destruct (ValidRune r) eqn:E; [reflexivity|].
  apply EncodeRune_invalid; assumption.
Qed.

Lemma writable_valid (r : Z) : ValidRune (writable r) = true.
Proof.
  unfold writable. destruct (ValidRune r) eqn:E; [exact E | reflexivity].
Qed.

Lemma shifted_valid_utf8 (f : Z -> Z) (rs : list Z) :
  valid_utf8 (string_of_runes (map (fun c => int32 (f c)) rs)).
Proof.
  exists (map writable (map (fun c => int32 (f c)) rs)). split.
  - rewrite Forall_map, Forall_map. apply Forall_forall. intros c _.
    apply writable_valid.
  - apply string_of_runes_writable. rewrite Forall_map.
    apply Forall_forall. intros c _. apply int32_range.
Qed.

Lemma runes_shifted (f : Z -> Z) (rs : list Z) :
  runes (string_of_runes (map (fun c => int32 (f c)) rs))
  = map (fun c => writable (int32 (f c))) rs.
Proof.
  rewrite string_of_runes_writable
    by (rewrite Forall_map; apply Forall_forall; intros c _;
        apply int32_range).
  rewrite runes_string_of_runes, map_map; [reflexivity|].
  rewrite Forall_map, Forall_map. apply Forall_forall. intros c _.
  apply writable_valid.
Qed.

(** X1: whatever bytes it is given, [Encrypt] returns valid UTF-8 with as
    many characters as [range] finds in the message: each is the
    character of the message shifted up by 3 (in 32-bit arithmetic), or
    U+FFFD where the shifted value is no valid code point.  [Decrypt] does
    the same with the shift down by 3. *)
Theorem codec_characters (msg : string) :
  runes (Encrypt msg) = map (fun c => writable (int32 (c + 3))) (runes msg)
  /\ runes (Decrypt msg) = map (fun c => writable (int32 (c - 3))) (runes msg)
  /\ valid_utf8 (Encrypt msg) /\ valid_utf8 (Decrypt msg)
  /\ List.length (runes (Encrypt msg)) = List.length (runes msg)
  /\ List.length (runes (Decrypt msg)) = List.length (runes msg).
Proof.
  rewrite Encrypt_runes, Decrypt_runes.
  rewrite (runes_shifted (fun c => c + 3)), (runes_shifted (fun c => c - 3)).
  rewrite !length_map.
  repeat split;
    [apply (shifted_valid_utf8 (fun c => c + 3))
    |apply (shifted_valid_utf8 (fun c => c - 3))].
Qed.

Lemma map_fixes (g : Z -> Z) (l : list Z) :
  map g l = l -> Forall (fun c => g c = c) l.
Proof.
  induction l as [|c l IH]; simpl; intros H; [constructor|].
  injection H as Hc Hl. constructor; [exact Hc | apply IH; exact Hl].
Qed.

(** A valid character that comes back from the two shifts is shiftable. *)
Lemma comes_back_shiftable (c : Z) :
  ValidRune c = true ->
  writable (int32 (writable (int32 (c + 3)) - 3)) = c ->
  shiftable c.
Proof.
  intros Hv Hc. split; [exact Hv|].
  pose proof (ValidRune_range c Hv) as Hr.
  rewrite (int32_small (c + 3)) in Hc by lia.
  unfold writable in Hc at 2.
  destruct (ValidRune (c + 3)) eqn:E; [reflexivity|].
  vm_compute in Hc. subst c. vm_compute in E. discriminate E.
Qed.

(** X19: [Decrypt (Encrypt s)] is [s] for exactly the strings that are
    valid UTF-8 made of shiftable characters.  For every other string,
    one with bytes that are no UTF-8 or with a character whose shifted
    code point is a surrogate or lies beyond U+10FFFF, the round trip
    gives another string. *)
Theorem round_trip_exactly_on_shiftable_text (s : string) :
  Decrypt (Encrypt s) = s
  <-> exists cs, s = string_of_runes cs /\ Forall shiftable cs.
Proof.
  split.
  - intros H.
    assert (Hs : valid_utf8 s).
    { rewrite <- H, Decrypt_runes.
      apply (shifted_valid_utf8 (fun c => c - 3)). }
    destruct Hs as (cs & Hcs & ->). exists cs. split; [reflexivity|].
    apply (f_equal runes) in H.
    rewrite Decrypt_runes, (runes_shifted (fun c => c - 3)) in H.
    rewrite Encrypt_runes, (runes_shifted (fun c => c + 3)) in H.
    rewrite runes_string_of_runes in H by exact Hcs.
    rewrite map_map in H. apply map_fixes in H.
    rewrite Forall_forall in *. intros c Hin.
    apply comes_back_shiftable; [apply Hcs | apply H]; exact Hin.
  - intros (cs & -> & H).
    rewrite Encrypt_text by exact H. apply Decrypt_shifted. exact H.
Qed.

Lemma Decrypt_text (cs : list Z) :
  Forall unshiftable cs ->
  Decrypt (string_of_runes cs) = string_of_runes (map (fun c => c - 3) cs).
Proof.
  intros H. rewrite Decrypt_runes, runes_string_of_runes.
  - f_equal. apply map_ext_in. intros c Hc.
    rewrite Forall_forall in H. destruct (H c Hc) as [Hv _].
    apply ValidRune_range in Hv. apply int32_small. lia.
  - eapply Forall_impl; [|exact H]. intros c [Hv _]. exact Hv.
Qed.

(** X2: for every string that is the UTF-8 form of characters whose code
    points are still valid after the shift down by 3, [Decrypt] gives the
    characters shifted down by 3 and [Encrypt] gives the string back. *)
Theorem Encrypt_undoes_Decrypt (s : string) (cs : list Z) :
  s = string_of_runes cs -> Forall unshiftable cs ->
  runes (Decrypt s) = map (fun c => c - 3) cs /\ Encrypt (Decrypt s) = s.
Proof.
  intros -> H. rewrite Decrypt_text by exact H.
  assert (Hv : Forall (fun r => ValidRune r = true) (map (fun c => c - 3) cs)).
  { rewrite Forall_map. eapply Forall_impl; [|exact H].
    intros c [_ Hc]. exact Hc. }
  split; [apply runes_string_of_runes; exact Hv|].
  rewrite Encrypt_runes, runes_string_of_runes by exact Hv.
  f_equal. rewrite map_map. rewrite <- (map_id cs) at 2.
  apply map_ext_in. intros c Hc.
  rewrite Forall_forall in H. destruct (H c Hc) as [Hc1 _].
  apply ValidRune_range in Hc1. rewrite int32_small; lia.
Qed.

Lemma Encrypt_undoes_Decrypt_witness :
  runes (Decrypt "SCORE 2-1")
  = [0x50; 0x40; 0x4C; 0x4F; 0x42; 0x1D; 0x2F; 0x2A; 0x2E]
  /\ Encrypt (Decrypt "SCORE 2-1") = "SCORE 2-1".
Proof.
  apply (Encrypt_undoes_Decrypt "SCORE 2-1"
           [0x53; 0x43; 0x4F; 0x52; 0x45; 0x20; 0x32; 0x2D; 0x31]).
  - vm_compute. reflexivity.
  - repeat constructor.
Defined.

(** The characters below U+0003 have no place to go: [Decrypt] writes
    U+FFFD for them. *)
Lemma Decrypt_low_characters :
  Decrypt (string_of_runes [0x02]) = string_of_runes [0xFFFD]
  /\ Encrypt (Decrypt (string_of_runes [0x02])) = string_of_runes [0x10000].
Proof. split; vm_compute; reflexivity. Qed.

Lemma string_of_runes_app (a b : list Z) :
  string_of_runes (a ++ b) = string_of_runes a ++ string_of_runes b.
Proof.
  unfold string_of_runes at 1. rewrite fold_left_app.
  rewrite fold_WriteRune_acc. reflexivity.
Qed.

Lemma runes_app (s e : string) :
  not_continuation (at_ e 0) -> runes (s ++ e) = (runes s ++ runes e)%list.
Proof.
  intros He. unfold runes, range.
  rewrite range_from_app by (try exact He; lia).
  rewrite map_app. f_equal. apply range_from_offsets.
Qed.

(** X3: [Encrypt] and [Decrypt] work character by character: the result
    for two strings joined is the two results joined, provided the second
    string does not begin in the middle of a character (with a
    continuation byte). *)
Theorem codec_distributes (s e : string) :
  not_continuation (at_ e 0) ->
  Encrypt (s ++ e) = Encrypt s ++ Encrypt e
  /\ Decrypt (s ++ e) = Decrypt s ++ Decrypt e.
Proof.
  intros He. rewrite !Encrypt_runes, !Decrypt_runes, runes_app by exact He.
  rewrite !map_app, !string_of_runes_app. split; reflexivity.
Qed.

Lemma codec_distributes_witness :
  Encrypt ("rock" ++ "⚠") = Encrypt "rock" ++ Encrypt "⚠"
  /\ Decrypt ("rock" ++ "⚠") = Decrypt "rock" ++ Decrypt "⚠".
Proof.
  apply (codec_distributes "rock" "⚠").
  right. vm_compute. reflexivity.
Defined.

(** A string cut inside a character is another matter: each piece is
    read as invalid bytes. *)
Lemma codec_split_character :
  let a := String (byte 0xE2) "" in
  let b := String (byte 0x9A) (String (byte 0xA0) "") in
  a ++ b = "⚠"
  /\ runes (Encrypt (a ++ b)) = [0x26A3]
  /\ runes (Encrypt a ++ Encrypt b) = [0x10000; 0x10000; 0x10000].
Proof. repeat split; vm_compute; reflexivity. Qed.

End CodecFacts.

(** ** Frames and lines *)

Section Framing.
Import Go Rps.

Lemma after_delim_bound (d : ascii) (s : string) : forall i,
  after_delim d s = Some i -> 1 <= i <= len s.
Proof.
  induction s as [|c s IH]; intros i H; simpl in H; [discriminate|].
  rewrite len_String. pose proof (len_nonneg s).
  destruct (Ascii.eqb c d); [inversion H; lia|].
  destruct (after_delim d s) as [j|]; [|discriminate].
  specialize (IH j eq_refl). inversion H; subst. lia.
Qed.

Lemma after_delim_app (d : ascii) (a b : string) :
  after_delim d (a ++ b)
  = match after_delim d a with
    | Some i => Some i
    | None => option_map (fun j => len a + j) (after_delim d b)
    end.
Proof.
  induction a as [|c a IH].
  - simpl. destruct (after_delim d b); reflexivity.
  - cbn [append after_delim]. destruct (Ascii.eqb c d); [reflexivity|].
    rewrite IH. destruct (after_delim d a); [reflexivity|].
    rewrite len_String. destruct (after_delim d b); cbn [option_map];
      [|reflexivity].
    f_equal. lia.
Qed.

(** A read that brings the delimiter ends the reading, whatever the
    number of tries left. *)
Lemma ReadString_fill_found
      (tries : nat) (d : ascii) (acc c : string) (rest : list string)
      (i : Z) :
  after_delim d c = Some i ->
  ReadString_fill tries d acc (c :: rest) = (Some (acc ++ slice c 0 i), rest).
Proof.
  destruct c as [|a c]; [discriminate|]. intros H.
  cbn [ReadString_fill]. rewrite H. reflexivity.
Qed.

(** A byte made with a marker that has bit 7 set is no ASCII byte. *)
Lemma high_byte (t x : Z) (d : ascii) :
  Z.testbit t 7 = true -> byte_val d < 128 ->
  Ascii.eqb (byte (Z.lor t x)) d = false.
Proof.
  intros Ht Hd. apply Ascii.eqb_neq. intros E.
  assert (Hb : Z.testbit (byte_val (byte (Z.lor t x))) 7 = true).
  { unfold byte_val, byte.
    assert (0 <= Z.lor t x mod 256 < 256) by (apply Z.mod_pos_bound; lia).
    rewrite N_ascii_embedding by lia. rewrite Z2N.id by lia.
    change 256 with (2 ^ 8). rewrite Z.mod_pow2_bits_low by lia.
    rewrite Z.lor_spec, Ht. reflexivity. }
  rewrite E in Hb. pose proof (byte_val_range d).
  rewrite Z.testbit_true in Hb by lia. change (2 ^ 7) with 128 in Hb.
  rewrite (Z.div_small (byte_val d) 128) in Hb by lia. discriminate.
Qed.

(** An ASCII byte occurs in the encoding of a character only as that
    character. *)
Lemma EncodeRune_holds (d : ascii) (r : Z) :
  byte_val d < 128 -> ValidRune r = true ->
  after_delim d (EncodeRune r)
  = if r =? byte_val d then Some 1 else None.
Proof.
  intros Hd Hv. pose proof (byte_val_range d) as Hr.
  pose proof (ValidRune_range r Hv) as Hrange.
  unfold EncodeRune, encode3, uint32. rewrite Z.mod_small by lia.
  utf8_consts.
  destruct (Z.leb_spec r 127).
  - cbn [after_delim]. destruct (Z.eqb_spec r (byte_val d)) as [-> | Hne].
    + rewrite byte_byte_val, Ascii.eqb_refl. reflexivity.
    + destruct (Ascii.eqb_spec (byte r) d) as [E | _]; [|reflexivity].
      exfalso. apply Hne. rewrite <- E. symmetry. apply byte_val_byte. lia.
  - destruct (Z.eqb_spec r (byte_val d)); [lia|].
    repeat match goal with
           | |- context [if ?c then _ else _] =>
               lazymatch c with
               | Ascii.eqb _ _ => fail
               | _ => destruct c
               end
           end;
      cbn [after_delim]; rewrite !high_byte by (reflexivity || exact Hd);
      reflexivity.
Qed.

Lemma string_of_runes_holds (d : ascii) (rs : list Z) :
  byte_val d < 128 -> Forall (fun r => ValidRune r = true) rs ->
  (after_delim d (string_of_runes rs) = None <-> ~ In (byte_val d) rs).
Proof.
  intros Hd. induction 1 as [|r rs Hr _ IH]; [simpl; tauto|].
  rewrite string_of_runes_cons, after_delim_app, EncodeRune_holds
    by assumption.
  destruct (Z.eqb_spec r (byte_val d)) as [-> | Hne].
  - split; [discriminate | intros H; exfalso; apply H; left; reflexivity].
  - destruct (after_delim d (string_of_runes rs)) as [j|]; simpl.
    + split; [discriminate|]. intros H. exfalso.
      assert (Hn : ~ In (byte_val d) rs) by (intros Hi; apply H; now right).
      apply IH in Hn. discriminate.
    + split; [|reflexivity]. intros _ [E | Hi]; [congruence|].
      destruct IH as [IH _]. now apply IH.
Qed.

(** X4: the frame [SendMessage] writes for a payload of shiftable
    characters is read back as one line by the receiver's
    [ReadString('\n')] exactly when the payload has no character U+0007:
    that character is sent as U+000A, a newline inside the frame, and the
    receiver's line then ends before the end marker. *)
Theorem frame_is_one_line (payload : string) (cs : list Z) :
  payload = string_of_runes cs -> Forall shiftable cs ->
  let sent := frame (Encrypt payload) in
  (~ In 7 cs -> ReadString_conn newline "" [sent] = (Some sent, []))
  /\ (In 7 cs ->
      exists line, ReadString_conn newline "" [sent] = (Some line, [])
                   /\ len line < len sent).
Proof.
  intros -> H. cbv zeta. rewrite Encrypt_text by exact H.
  set (enc := string_of_runes (map (fun c => c + 3) cs)).
  assert (Hv : Forall (fun r => ValidRune r = true) (map (fun c => c + 3) cs)).
  { rewrite Forall_map. eapply Forall_impl; [|exact H].
    intros c [_ Hc]. exact Hc. }
  assert (Hin : In 10 (map (fun c => c + 3) cs) <-> In 7 cs).
  { rewrite in_map_iff. split.
    - intros (c & Hc & Hi). replace 7 with c by lia. exact Hi.
    - intros Hi. exists 7. split; [reflexivity | exact Hi]. }
  pose proof (string_of_runes_holds newline _ ltac:(vm_compute; reflexivity) Hv)
    as Hnl.
  change (byte_val newline) with 10 in Hnl. rewrite Hin in Hnl.
  fold enc in Hnl.
  assert (Hf : after_delim newline (frame enc)
               = match after_delim newline enc with
                 | Some j => Some (3 + j)
                 | None => Some (len (frame enc))
                 end).
  { unfold frame. rewrite after_delim_app.
    change (after_delim newline header) with (@None Z).
    rewrite after_delim_app.
    change (len header) with 3.
    destruct (after_delim newline enc) as [j|]; [reflexivity|].
    cbn [option_map]. rewrite !len_app.
    change (after_delim newline (footer ++ String newline "")) with (Some 4).
    change (len header) with 3.
    change (len footer) with 3. change (len (String newline "")) with 1.
    cbn [option_map]. f_equal; lia. }
  unfold ReadString_conn. split.
  - intros Hn. apply Hnl in Hn. rewrite Hn in Hf.
    rewrite (ReadString_fill_found _ _ _ _ _ _ Hf). cbn [append].
    rewrite slice_0_len. reflexivity.
  - intros Hi. destruct (after_delim newline enc) as [j|] eqn:E.
    + rewrite (ReadString_fill_found _ _ _ _ _ _ Hf).
      eexists. split; [reflexivity|]. cbn [append].
      apply after_delim_bound in E.
      assert (Hl : len (frame enc) = len enc + 7).
      { unfold frame. rewrite !len_app. change (len header) with 3.
        change (len footer) with 3. change (len (String newline "")) with 1.
        lia. }
      rewrite len_slice; lia.
    + exfalso. destruct Hnl as [Hnl _]. apply Hnl; [reflexivity | exact Hi].
Qed.

Lemma frame_is_one_line_witness :
  ReadString_conn newline "" [frame (Encrypt "rock")]
  = (Some (frame (Encrypt "rock")), [])
  /\ exists line,
      ReadString_conn newline ""
        [frame (Encrypt (string_of_runes [0x72; 0x07; 0x6B]))]
      = (Some line, [])
      /\ len line < len (frame (Encrypt (string_of_runes [0x72; 0x07; 0x6B]))).
Proof.
  destruct (frame_is_one_line "rock" [0x72; 0x6F; 0x63; 0x6B]) as [Hn _].
  - vm_compute. reflexivity.
  - repeat constructor.
  - destruct (frame_is_one_line (string_of_runes [0x72; 0x07; 0x6B])
                                [0x72; 0x07; 0x6B]) as [_ Hy].
    + reflexivity.
    + repeat constructor.
    + split.
      * apply Hn. simpl. intros [H | [H | [H | [H | []]]]]; discriminate.
      * apply Hy. simpl. auto.
Defined.

End Framing.

(** ** Reading from the connection *)

Section Reading.
Import Go Rps.

Lemma slice_app_over (x y : string) (j : Z) :
  0 <= j -> slice (x ++ y) 0 (len x + j) = x ++ slice y 0 j.
Proof.
  intros Hj. unfold slice, len. rewrite !Z.sub_0_r.
  change (Z.to_nat 0) with 0%nat.
  replace (Z.to_nat (Z.of_nat (String.length x) + j))
    with (String.length x + Z.to_nat j)%nat by lia.
  generalize (Z.to_nat j). clear. intros n.
  induction x as [|c x IH]; simpl; [reflexivity | now rewrite IH].
Qed.

(** A read that brings data without the delimiter is followed by a new
    call of [fill]. *)
Lemma ReadString_fill_more
      (tries : nat) (d : ascii) (acc c : string) (rest : list string) :
  c <> "" -> after_delim d c = None ->
  ReadString_fill tries d acc (c :: rest)
  = ReadString_fill maxConsecutiveEmptyReads d (acc ++ c) rest.
Proof.
  destruct c as [|a c]; [congruence|]. intros _ H.
  cbn [ReadString_fill]. rewrite H. reflexivity.
Qed.

(** An empty read uses up one try of [fill]. *)
Lemma ReadString_fill_empty
      (k : nat) (d : ascii) (acc : string) (rest : list string) :
  ReadString_fill (S (S k)) d acc ("" :: rest)
  = ReadString_fill (S k) d acc rest.
Proof. reflexivity. Qed.

(** What [progresses] says of the tries that [fill] has left. *)
Lemma progresses_empty (k : nat) (rest : list string) :
  progresses k ("" :: rest) = true ->
  (S k < maxConsecutiveEmptyReads)%nat /\ progresses (S k) rest = true.
Proof.
  cbn [progresses]. intros H. apply andb_true_iff in H as [H1 H2].
  apply Nat.ltb_lt in H1. split; assumption.
Qed.

(** While the reads progress, the line [ReadString] returns is the stream
    up to its first delimiter, however the stream is cut into reads. *)
Lemma ReadString_fill_line (d : ascii) (chunks : list string) :
  forall (k tries : nat) (acc : string),
    (tries + k = maxConsecutiveEmptyReads)%nat ->
    progresses k chunks = true ->
    fst (ReadString_fill tries d acc chunks)
    = match after_delim d (String.concat "" chunks) with
      | Some i => Some (acc ++ slice (String.concat "" chunks) 0 i)
      | None => None
      end.
Proof.
  induction chunks as [|c rest IH]; intros k tries acc Ht Hp; [reflexivity|].
  rewrite concat_cons. destruct c as [|a c].
  - apply progresses_empty in Hp as [Hk Hp].
    destruct tries as [|[|t]]; try lia.
    rewrite ReadString_fill_empty. cbn [append].
    apply (IH (S k)); [lia | exact Hp].
  - cbn [progresses] in Hp. rewrite after_delim_app.
    destruct (after_delim d (String a c)) as [i|] eqn:E.
    + rewrite (ReadString_fill_found _ _ _ _ _ _ E).
      apply after_delim_bound in E. cbn [fst].
      rewrite slice_app_l by lia. reflexivity.
    + rewrite ReadString_fill_more by (congruence || exact E).
      rewrite (IH 0%nat) by (lia || exact Hp).
      destruct (after_delim d (String.concat "" rest)) as [j|] eqn:Ej;
        cbn [option_map]; [|reflexivity].
      apply after_delim_bound in Ej.
      rewrite slice_app_over by lia. now rewrite sapp_assoc.
Qed.

Lemma ReadString_conn_line (d : ascii) (chunks : list string) (acc : string) :
  progresses 0 chunks = true ->
  fst (ReadString_conn d acc chunks)
  = match after_delim d (String.concat "" chunks) with
    | Some i => Some (acc ++ slice (String.concat "" chunks) 0 i)
    | None => None
    end.
Proof.
  intros H. unfold ReadString_conn.
  apply (ReadString_fill_line d chunks 0); [lia | exact H].
Qed.

(** X5: as long as no 100 reads in a row come back empty, what
    [ReceiveMessage] returns depends on the bytes that arrive, not on how
    the network cuts them into reads: two connections that deliver the
    same stream give the same result. *)
Theorem ReceiveMessage_ignores_chunking (conn1 conn2 : Conn) :
  progresses 0 (incoming conn1) = true ->
  progresses 0 (incoming conn2) = true ->
  String.concat "" (incoming conn1) = String.concat "" (incoming conn2) ->
  fst (ReceiveMessage conn1) = fst (ReceiveMessage conn2).
Proof.
  intros Hp1 Hp2 H.
  pose proof (ReadString_conn_line newline (incoming conn1) "" Hp1) as H1.
  pose proof (ReadString_conn_line newline (incoming conn2) "" Hp2) as H2.
  rewrite <- H, <- H1 in H2. clear H H1.
  unfold ReceiveMessage.
  destruct (ReadString_conn newline "" (incoming conn1)) as [l1 r1].
  destruct (ReadString_conn newline "" (incoming conn2)) as [l2 r2].
  cbn [fst] in H2. subst l2. destruct l1 as [line|]; [|reflexivity].
  cbv zeta.
  repeat match goal with
         | |- context [if ?b then _ else _] => destruct b
         end; reflexivity.
Qed.

Lemma ReceiveMessage_ignores_chunking_witness :
  fst (ReceiveMessage
         (mkConn ["⚠ur"; ""; "fn"; "☠" ++ String newline ""] "" false))
  = fst (ReceiveMessage (mkConn ["⚠urfn☠" ++ String newline ""] "" false)).
Proof.
  apply ReceiveMessage_ignores_chunking; reflexivity.
Defined.

(** The reads up to the one that brings the delimiter. *)
Lemma ReadString_fill_upto
      (d : ascii) (c : string) (rest : list string) (i : Z)
      (pre : list string) :
  after_delim d c = Some i ->
  Forall (fun p => after_delim d p = None) pre ->
  forall (k tries : nat) (acc : string),
    (tries + k = maxConsecutiveEmptyReads)%nat ->
    progresses k pre = true ->
    ReadString_fill tries d acc (pre ++ c :: rest)
    = (Some (acc ++ String.concat "" pre ++ slice c 0 i), rest).
Proof.
  intros Hc. induction 1 as [|p pre Hp _ IH]; intros k tries acc Ht Hg.
  - cbn [app]. rewrite (ReadString_fill_found _ _ _ _ _ _ Hc). reflexivity.
  - cbn [app]. rewrite concat_cons. destruct p as [|a p].
    + apply progresses_empty in Hg as [Hk Hg].
      destruct tries as [|[|t]]; try lia.
      rewrite ReadString_fill_empty. cbn [append].
      apply (IH (S k)); [lia | exact Hg].
    + cbn [progresses] in Hg.
      rewrite ReadString_fill_more by (congruence || exact Hp).
      rewrite (IH 0%nat) by (lia || exact Hg). now rewrite !sapp_assoc.
Qed.

(** X6: [ReceiveMessage] makes a new buffered reader on every call, so
    what the read that brought the newline holds after it is lost with the
    reader: the connection goes on with the reads that follow.  When a
    second line came in that same read and nothing follows, the next
    [ReceiveMessage] fails to read.  (The reads before the newline are
    taken to progress: no 100 of them in a row are empty.) *)
Theorem ReceiveMessage_drops_rest_of_read
        (conn : Conn) (pre : list string) (c : string) (rest : list string)
        (i : Z) :
  incoming conn = (pre ++ c :: rest)%list ->
  Forall (fun p => after_delim newline p = None) pre ->
  progresses 0 pre = true ->
  after_delim newline c = Some i ->
  ReadString_conn newline "" (incoming conn)
  = (Some (String.concat "" pre ++ slice c 0 i), rest)
  /\ snd (ReceiveMessage conn) = mkConn rest (written conn) (broken conn)
  /\ (rest = [] ->
      fst (ReceiveMessage (snd (ReceiveMessage conn))) = inr ErrRead).
Proof.
  intros Hin Hpre Hg Hc.
  assert (Hr : ReadString_conn newline "" (pre ++ c :: rest)
               = (Some (String.concat "" pre ++ slice c 0 i), rest)).
  { unfold ReadString_conn.
    rewrite (ReadString_fill_upto _ _ _ _ _ Hc Hpre 0) by (lia || exact Hg).
    reflexivity. }
  rewrite Hin, Hr. split; [reflexivity|].
  assert (Hs : snd (ReceiveMessage conn)
               = mkConn rest (written conn) (broken conn)).
  { unfold ReceiveMessage. rewrite Hin, Hr. cbv zeta.
    repeat match goal with
           | |- context [if ?b then _ else _] => destruct b
           end; reflexivity. }
  split; [exact Hs|]. intros ->. rewrite Hs. reflexivity.
Qed.

Lemma ReceiveMessage_drops_rest_of_read_witness :
  let nl := String newline "" in
  let conn := mkConn ["⚠ur"; "fn☠" ++ nl ++ "⚠sdshu☠" ++ nl] "" false in
  ReadString_conn newline "" (incoming conn)
  = (Some ("⚠ur" ++ slice ("fn☠" ++ nl ++ "⚠sdshu☠" ++ nl) 0 6), [])
  /\ snd (ReceiveMessage conn) = mkConn [] "" false
  /\ fst (ReceiveMessage (snd (ReceiveMessage conn))) = inr ErrRead.
Proof.
  intros nl conn.
  destruct (ReceiveMessage_drops_rest_of_read
              conn ["⚠ur"] ("fn☠" ++ nl ++ "⚠sdshu☠" ++ nl) [] 6)
    as (H1 & H2 & H3).
  - reflexivity.
  - repeat constructor.
  - reflexivity.
  - vm_compute. reflexivity.
  - split; [exact H1|]. split; [exact H2 | apply H3; reflexivity].
Defined.

(** Reads that progress without a delimiter, up to the end of the
    stream. *)
Lemma ReadString_fill_eof (d : ascii) (chunks : list string) :
  Forall (fun p => after_delim d p = None) chunks ->
  forall (k tries : nat) (acc : string),
    (tries + k = maxConsecutiveEmptyReads)%nat ->
    progresses k chunks = true ->
    ReadString_fill tries d acc chunks = (None, []).
Proof.
  induction 1 as [|p ps Hp _ IH]; intros k tries acc Ht Hg; [reflexivity|].
  destruct p as [|a p].
  - apply progresses_empty in Hg as [Hk Hg].
    destruct tries as [|[|t]]; try lia.
    rewrite ReadString_fill_empty. apply (IH (S k)); [lia | exact Hg].
  - cbn [progresses] in Hg.
    rewrite ReadString_fill_more by (congruence || exact Hp).
    apply (IH 0%nat); [lia | exact Hg].
Qed.

(** X7: when the stream ends before a newline has come, the reads
    having progressed (no 100 of them in a row empty), [ReceiveMessage]
    returns the read error and what had arrived is gone, be it nothing at
    all or a whole frame without its newline. *)
Theorem ReceiveMessage_at_end_of_stream (conn : Conn) :
  Forall (fun p => after_delim newline p = None) (incoming conn) ->
  progresses 0 (incoming conn) = true ->
  ReceiveMessage conn = (inr ErrRead, mkConn [] (written conn) (broken conn)).
Proof.
  intros H Hg. unfold ReceiveMessage, ReadString_conn.
  rewrite (ReadString_fill_eof _ _ H 0) by (lia || exact Hg).
  reflexivity.
Qed.

Lemma ReceiveMessage_at_end_of_stream_witness :
  ReceiveMessage (mkConn ["⚠ur"; ""; "fn☠"] "" false)
  = (inr ErrRead, mkConn [] "" false).
Proof.
  apply (ReceiveMessage_at_end_of_stream
           (mkConn ["⚠ur"; ""; "fn☠"] "" false)).
  - repeat constructor.
  - reflexivity.
Defined.

(** As many empty reads as [fill] has tries end the reading. *)
Lemma ReadString_fill_gives_up
      (d : ascii) (rest : list string) : forall (tries : nat) (acc : string),
  (1 <= tries)%nat ->
  ReadString_fill tries d acc (repeat "" tries ++ rest) = (None, rest).
Proof.
  induction tries as [|t IH]; intros acc Ht; [lia|].
  destruct t as [|t]; [reflexivity|].
  change (repeat "" (S (S t)) ++ rest)%list
    with ("" :: (repeat "" (S t) ++ rest))%list.
  rewrite ReadString_fill_empty. apply IH. lia.
Qed.

(** X20: [ReceiveMessage] gives up on a connection whose reads bring
    nothing: after data without a newline, or at once, 100 empty reads in
    a row make it return the read error, and whatever the connection
    would have delivered after them is left unread. *)
Theorem ReceiveMessage_gives_up_on_empty_reads
        (conn : Conn) (pre rest : list string) :
  incoming conn
  = (pre ++ repeat "" maxConsecutiveEmptyReads ++ rest)%list ->
  Forall (fun p => p <> "" /\ after_delim newline p = None) pre ->
  ReceiveMessage conn
  = (inr ErrRead, mkConn rest (written conn) (broken conn)).
Proof.
  intros Hin Hpre. unfold ReceiveMessage, ReadString_conn. rewrite Hin.
  assert (Hr : forall acc,
             ReadString_fill maxConsecutiveEmptyReads newline acc
               (pre ++ repeat "" maxConsecutiveEmptyReads ++ rest)
             = (None, rest)).
  { clear Hin. induction Hpre as [|p pre [Hp Hn] _ IH]; intros acc.
    - apply ReadString_fill_gives_up. unfold maxConsecutiveEmptyReads. lia.
    - cbn [app]. rewrite ReadString_fill_more by assumption. apply IH. }
  rewrite Hr. reflexivity.
Qed.

Lemma ReceiveMessage_gives_up_on_empty_reads_witness :
  let tail := "fn☠" ++ String newline "" in
  ReceiveMessage
    (mkConn ("⚠ur" :: repeat "" 100 ++ [tail])%list "" false)
  = (inr ErrRead, mkConn [tail] "" false)
  /\ fst (ReadString_conn newline ""
            ("⚠ur" :: repeat "" 99 ++ [tail])%list)
     = Some ("⚠urfn☠" ++ String newline "").
Proof.
  intros tail. split.
  - apply (ReceiveMessage_gives_up_on_empty_reads
             (mkConn ("⚠ur" :: repeat "" 100 ++ [tail])%list "" false)
             ["⚠ur"] [tail]).
    + reflexivity.
    + repeat constructor. discriminate.
  - vm_compute. reflexivity.
Defined.

End Reading.

(** ** What the receiver says about a sent frame *)

Section FrameError.
Import Go Rps.

(** Trimming takes the newline off a frame and nothing else. *)
Lemma TrimSpace_frame (enc : string) :
  TrimSpace (frame enc) = header ++ enc ++ footer.
Proof.
  unfold frame.
  replace (header ++ enc ++ footer ++ String newline "")
    with ((header ++ enc ++ footer) ++ String newline "")
    by (now rewrite !sapp_assoc).
  rewrite TrimSpace_white_r.
  - apply TrimSpace_framed.
  - exists [0x0A]. split; [repeat constructor | reflexivity].
Qed.

Lemma after_delim_frame (enc : string) :
  after_delim newline enc = None ->
  after_delim newline (frame enc) = Some (len (frame enc)).
Proof.
  intros H. unfold frame. rewrite after_delim_app.
  change (after_delim newline header) with (@None Z).
  rewrite after_delim_app, H. cbn [option_map]. rewrite !len_app.
  change (after_delim newline (footer ++ String newline "")) with (Some 4).
  change (len header) with 3. change (len footer) with 3.
  change (len (String newline "")) with 1. cbn [option_map]. f_equal; lia.
Qed.

(** X18: a frame that [SendMessage] wrote for a payload of shiftable
    characters without U+0007 is answered by the receiver, however the
    network cuts it into reads as long as no 100 reads in a row come back
    empty, with [InvalidHeaderError] holding the one byte 0xE2, the first
    of the three bytes of the start marker.  The text its method [Error]
    gives ends in that lone byte, which [range] reads as U+FFFD: the text
    is not valid UTF-8. *)
Theorem sent_frame_error_message
        (payload : string) (cs : list Z) (receiver : Conn) :
  payload = string_of_runes cs -> Forall shiftable cs -> ~ In 7 cs ->
  progresses 0 (incoming receiver) = true ->
  String.concat "" (incoming receiver) = frame (Encrypt payload) ->
  fst (ReceiveMessage receiver)
  = inr (InvalidHeaderError (String (byte 0xE2) ""))
  /\ runes (InvalidHeaderError_Error (String (byte 0xE2) ""))
     = (runes "invalid header: expected ⚠, got " ++ [RuneError])%list
  /\ ~ valid_utf8 (InvalidHeaderError_Error (String (byte 0xE2) "")).
Proof.
  intros -> H Hn Hg Hin.
  split; [|split; [vm_compute; reflexivity|]].
  - assert (Hnl : after_delim newline (Encrypt (string_of_runes cs)) = None).
    { rewrite Encrypt_text by exact H.
      apply (string_of_runes_holds newline); [vm_compute; reflexivity | |].
      - rewrite Forall_map. eapply Forall_impl; [|exact H].
        intros c [_ Hc]. exact Hc.
      - change (byte_val newline) with 10. rewrite in_map_iff.
        intros (c & Hc & Hi). apply Hn. replace 7 with c by lia. exact Hi. }
    pose proof (ReadString_conn_line newline (incoming receiver) "" Hg) as Hl.
    rewrite Hin, (after_delim_frame _ Hnl), slice_0_len in Hl.
    destruct (ReadString_conn newline "" (incoming receiver))
      as [l rest] eqn:E.
    cbn [fst append] in Hl. subst l.
    rewrite (ReceiveMessage_on_line _ _ _ E). cbn [fst].
    rewrite TrimSpace_frame.
    rewrite !len_app. change (len header) with 3. change (len footer) with 3.
    pose proof (len_nonneg (Encrypt (string_of_runes cs))).
    destruct (Z.ltb_spec (3 + (len (Encrypt (string_of_runes cs)) + 3)) 2);
      [lia|].
    rewrite slice_first_byte. reflexivity.
  - intros (rs & Hrs & E).
    assert (Hr : string_of_runes
                   (runes (InvalidHeaderError_Error (String (byte 0xE2) "")))
                 = InvalidHeaderError_Error (String (byte 0xE2) "")).
    { rewrite E at 1. rewrite runes_string_of_runes by exact Hrs.
      symmetry. exact E. }
    vm_compute in Hr. discriminate Hr.
Qed.

Lemma sent_frame_error_message_witness :
  fst (ReceiveMessage
         (mkConn ["⚠VWD"; ""; "UW☠" ++ String newline ""] "" false))
  = inr (InvalidHeaderError (String (byte 0xE2) "")).
Proof.
  destruct (sent_frame_error_message
              "START" [0x53; 0x54; 0x41; 0x52; 0x54]
              (mkConn ["⚠VWD"; ""; "UW☠" ++ String newline ""] "" false))
    as (Hr & _).
  - vm_compute. reflexivity.
  - repeat constructor.
  - simpl. intros [H | [H | [H | [H | [H | []]]]]]; discriminate.
  - reflexivity.
  - vm_compute. reflexivity.
  - exact Hr.
Defined.

End FrameError.

(** ** What the players are told *)

Section Outcomes.
Import Rps.

(** X8: for any two strings the two increments of [determineOutcome]
    add up to zero, and [outcomeString] turns them into "win" and "lose",
    "lose" and "win", or "draw" twice.  The first player is told "win"
    exactly when the first choice beats the second, "lose" exactly when
    the first string is a choice and the second is another string that
    it does not beat, and "draw" exactly when the strings are equal or the
    first is no choice. *)
Theorem outcomes_are_opposite (a b : string) :
  let o1 := outcomeString (fst (determineOutcome a b)) in
  let o2 := outcomeString (snd (determineOutcome a b)) in
  fst (determineOutcome a b) + snd (determineOutcome a b) = 0
  /\ In (o1, o2) [("win", "lose"); ("lose", "win"); ("draw", "draw")]
  /\ (o1 = "win" <-> beats a b = true)
  /\ (o1 = "lose" <-> a <> b /\ In a choices /\ beats a b = false)
  /\ (o1 = "draw" <-> a = b \/ ~ In a choices).
Proof.
  cbv zeta. rewrite In_choices. unfold determineOutcome, beats.
  destruct (String.eqb_spec a b) as [Hab | Hab].
  - subst b. simpl.
    destruct (String.eqb_spec a "rock"), (String.eqb_spec a "scissors"),
      (String.eqb_spec a "paper"); subst; simpl;
      repeat split; intros; try discriminate; try tauto; try congruence;
      auto.
  - destruct (String.eqb_spec a "rock"), (String.eqb_spec a "scissors"),
      (String.eqb_spec a "paper"), (String.eqb_spec b "rock"),
      (String.eqb_spec b "scissors"), (String.eqb_spec b "paper");
      subst; simpl; try congruence;
      repeat split; intros; try discriminate; try tauto; try congruence;
      auto; intuition congruence.
Qed.

End Outcomes.

(** ** The round count of the server *)

Section Rounds.
Import Go ServerMain.

Lemma Atoi_loop_bound (s : string) : forall n m,
  0 <= n -> Atoi_loop s n = inl m ->
  0 <= m < (n + 1) * 10 ^ len s.
Proof.
  induction s as [|c s IH]; intros n m Hn H.
  - simpl in H. inversion H; subst. unfold len; simpl. lia.
  - cbn [Atoi_loop] in H.
    set (ch := (byte_val c - 48) mod 256) in *.
    assert (0 <= ch < 256) by (apply Z.mod_pos_bound; lia).
    destruct (Z.ltb_spec 9 ch); [discriminate|].
    apply IH in H; [|lia]. rewrite len_String.
    pose proof (len_nonneg s).
    rewrite Z.pow_add_r by lia. change (10 ^ 1) with 10.
    assert (0 < 10 ^ len s) by (apply Z.pow_pos_nonneg; lia).
    nia.
Qed.

Lemma ParseUint_loop_bound (s : string) : forall n m,
  0 <= n -> ParseUint_loop s n = inl m -> 0 <= m.
Proof.
  induction s as [|c s IH]; intros n m Hn H.
  - simpl in H. inversion H; subst. lia.
  - cbn [ParseUint_loop] in H.
    pose proof (byte_val_range c).
    destruct ((48 <=? byte_val c) && (byte_val c <=? 57)) eqn:Hd;
      [|discriminate].
    apply andb_true_iff in Hd as [Hd1 Hd2].
    apply Z.leb_le in Hd1, Hd2.
    repeat match type of H with
           | context [if ?c then _ else _] => destruct c; [discriminate|]
           end.
    apply IH in H; lia.
Qed.

(** A number that [Atoi] returns is in the range of a 64-bit [int]. *)
Lemma Atoi_range (s : string) (n : Z) :
  Atoi s = inl n -> - 2 ^ 63 <= n < 2 ^ 63.
Proof.
  unfold Atoi. cbv zeta.
  destruct ((0 <? len s) && (len s <? 19)) eqn:Hfast.
  - apply andb_true_iff in Hfast as [H0 H19].
    apply Z.ltb_lt in H0, H19.
    set (s' := if (at_ s 0 =? 45) || (at_ s 0 =? 43)
               then slice s 1 (len s) else s).
    assert (Hl : len s' <= 18).
    { subst s'. destruct (_ || _); [|lia].
      rewrite len_slice; lia. }
    destruct (len s' <? 1); [intros Hx; discriminate Hx|].
    destruct (Atoi_loop s' 0) as [m|e] eqn:E; [|intros Hx; discriminate Hx].
    apply Atoi_loop_bound in E; [|lia].
    assert (10 ^ len s' <= 10 ^ 18)
      by (apply Z.pow_le_mono_r; pose proof (len_nonneg s'); lia).
    intros Hn. inversion Hn; subst. destruct (at_ s 0 =? 45); lia.
  - unfold ParseInt. destruct s as [|c0 rest]; [intros Hx; discriminate Hx|].
    set (s' := if (Ascii.eqb c0 "+" || Ascii.eqb c0 "-")%bool
               then rest else String c0 rest).
    unfold ParseUint.
    assert (Hu : forall m, ParseUint_loop s' 0 = inl m -> 0 <= m)
      by (intros m; apply ParseUint_loop_bound; lia).
    clearbody s'. destruct s' as [|c1 r1]; [intros Hx; discriminate Hx|].
    cbv beta iota.
    destruct (ParseUint_loop (String c1 r1) 0) as [m|e];
      [|intros Hx; discriminate Hx].
    specialize (Hu m eq_refl).
    destruct (Ascii.eqb c0 "-"); cbn [negb andb].
    + destruct (Z.ltb_spec (2 ^ 63) m); [intros Hx; discriminate Hx|].
      intros Hn. inversion Hn; subst. lia.
    + destruct (Z.leb_spec (2 ^ 63) m); [intros Hx; discriminate Hx|].
      intros Hn. inversion Hn; subst. lia.
Qed.

(** X9: a server that [main] starts has the round count that [Atoi] read
    from the first argument, which is positive and within the range of a
    64-bit [int]; its port is the second argument as it was given, its
    queue of waiting players is empty with room for 100, and no goroutine
    is counted yet. *)
Theorem main_starts_with_positive_rounds
        (Args : list string) (server : Rps.Server) :
  main Args = Start server ->
  (3 <= List.length Args)%nat
  /\ Atoi (nth 1 Args "") = inl (Rps.Rounds server)
  /\ 0 < Rps.Rounds server < 2 ^ 63
  /\ Rps.Port server = nth 2 Args ""
  /\ Rps.WaitingPlayers server = mkChan 100 []
  /\ Rps.wg server = 0.
Proof.
  unfold main.
  destruct (Z.ltb_spec (Z.of_nat (List.length Args)) 3); [discriminate|].
  destruct (Atoi (nth 1 Args "")) as [n|e] eqn:E; [|discriminate].
  destruct (Z.leb_spec n 0); [discriminate|].
  intros Hs. inversion Hs; subst; simpl.
  apply Atoi_range in E. repeat split; try reflexivity; lia.
Qed.

Lemma main_starts_with_positive_rounds_witness :
  (3 <= List.length ["rps"; "5"; ""; "more"])%nat
  /\ Atoi "5" = inl 5
  /\ 0 < 5 < 2 ^ 63
  /\ Rps.Port (Rps.NewServer 5 "") = ""
  /\ Rps.WaitingPlayers (Rps.NewServer 5 "") = mkChan 100 []
  /\ Rps.wg (Rps.NewServer 5 "") = 0.
Proof.
  apply (main_starts_with_positive_rounds
           ["rps"; "5"; ""; "more"] (Rps.NewServer 5 "")).
  vm_compute. reflexivity.
Defined.

(** [Atoi] on a sign and up to 17 digits. *)
Lemma Atoi_signed (sign : ascii) (ds : list Z) :
  sign = "+"%char \/ sign = "-"%char ->
  (0 < List.length ds < 18)%nat -> Forall (fun d => 0 <= d <= 9) ds ->
  Atoi (String sign (numeral ds))
  = inl (if Ascii.eqb sign "-" then - numeral_value ds else numeral_value ds).
Proof.
  intros Hs Hl Hd. unfold Atoi. cbv zeta.
  rewrite len_String. unfold len at 1 2. rewrite slength_numeral.
  destruct (Z.ltb_spec 0 (1 + Z.of_nat (List.length ds))); [|lia].
  destruct (Z.ltb_spec (1 + Z.of_nat (List.length ds)) 19); [|lia].
  cbn [andb]. rewrite at_0.
  assert (Hs' : slice (String sign (numeral ds)) 1 (1 + len (numeral ds))
                = numeral ds).
  { change (String sign (numeral ds)) with (String sign "" ++ numeral ds).
    change 1 with (len (String sign "")) at 1 2.
    apply slice_app_r. }
  assert (Hor : (byte_val sign =? 45) || (byte_val sign =? 43) = true)
    by (destruct Hs; subst; reflexivity).
  rewrite Hor, Hs'. unfold len. rewrite slength_numeral.
  destruct (Z.ltb_spec (Z.of_nat (List.length ds)) 1); [lia|].
  rewrite Atoi_loop_numeral by exact Hd.
  destruct Hs; subst; reflexivity.
Qed.

(** X10: [main] takes a round count with a sign.  With a minus sign (and
    up to 17 digits) it ends in [log.Fatalf], whose message then shows the
    [nil] error of a number that was read; with a plus sign it starts the
    server when the number is positive.  Arguments after the port are not
    looked at. *)
Theorem main_reads_signed_rounds
        (prog port : string) (more : list string) (ds : list Z) :
  (0 < List.length ds < 18)%nat -> Forall (fun d => 0 <= d <= 9) ds ->
  main (prog :: String "-" (numeral ds) :: port :: more) = Fatal None 1
  /\ (0 < numeral_value ds ->
      main (prog :: String "+" (numeral ds) :: port :: more)
      = Start (Rps.NewServer (numeral_value ds) port))
  /\ (numeral_value ds = 0 ->
      main (prog :: String "+" (numeral ds) :: port :: more) = Fatal None 1).
Proof.
  intros Hl Hd.
  assert (Hv : 0 <= numeral_value ds).
  { unfold numeral_value.
    assert (G : forall n, 0 <= n ->
                          0 <= fold_left (fun n d => n * 10 + d) ds n).
    { clear Hl. induction Hd as [|d ds Hd0 _ IH]; intros n Hn; simpl; [lia|].
      apply IH. lia. }
    apply G. lia. }
  unfold main. cbn [List.length nth].
  destruct (Z.ltb_spec (Z.of_nat (S (S (S (List.length more))))) 3); [lia|].
  rewrite !Atoi_signed by auto. simpl Ascii.eqb. cbv iota.
  split; [|split].
  - destruct (Z.leb_spec (- numeral_value ds) 0); [reflexivity|lia].
  - intros Hp. destruct (Z.leb_spec (numeral_value ds) 0); [lia|reflexivity].
  - intros Hz. destruct (Z.leb_spec (numeral_value ds) 0); [reflexivity|lia].
Qed.

Lemma main_reads_signed_rounds_witness :
  main ["rps"; "-3"; "8080"] = Fatal None 1
  /\ main ["rps"; "+3"; "8080"; "more"] = Start (Rps.NewServer 3 "8080").
Proof.
  destruct (main_reads_signed_rounds "rps" "8080" [] [3]) as (Hm & _ & _).
  - simpl. lia.
  - repeat constructor; lia.
  - destruct (main_reads_signed_rounds "rps" "8080" ["more"] [3])
      as (_ & Hp & _).
    + simpl. lia.
    + repeat constructor; lia.
    + split; [exact Hm | apply Hp; reflexivity].
Defined.

End Rounds.

(** ** The lines the prompt reads *)

Section Lines.
Import Go ClientMain.

Lemma ReadString_no_delim (d : ascii) (s : string) :
  after_delim d s = None -> ReadString d s = None.
Proof.
  induction s as [|c s IH]; simpl; [reflexivity|].
  destruct (Ascii.eqb c d); [discriminate|].
  destruct (after_delim d s); [discriminate|]. intros _.
  rewrite IH; reflexivity.
Qed.

Lemma ReadString_one_line (l rest : string) :
  one_line l -> ReadString newline (l ++ rest) = Some (l, rest).
Proof.
  intros (body & -> & Hb). revert Hb.
  induction body as [|c body IH]; simpl; intros Hb.
  - reflexivity.
  - destruct (Ascii.eqb c newline); [discriminate|].
    destruct (after_delim newline body); [discriminate|].
    rewrite IH by reflexivity. reflexivity.
Qed.

Lemma rejections_cons (l : string) (ls : list string) :
  rejections (l :: ls)
  = choicePrompt ++ choiceInvalid ++ String newline "" ++ rejections ls.
Proof.
  unfold rejections. cbn [map]. rewrite concat_cons.
  now rewrite !sapp_assoc.
Qed.

Lemma plain_app (a b : string) : plain (a ++ b) = plain a && plain b.
Proof.
  induction a as [|c a IH]; simpl; [reflexivity|].
  now rewrite IH, andb_assoc.
Qed.

Lemma blanks_plain (a : string) : blanks a = true -> plain a = true.
Proof.
  induction a as [|c a IH]; simpl; [reflexivity|].
  intros H. rewrite !andb_true_iff in H. destruct H as [[Hs Hn] Ha].
  unfold plain_byte. rewrite Hn, IH by exact Ha. unfold asciiSpace in Hs.
  rewrite !orb_true_iff, !Z.eqb_eq in Hs.
  destruct (Z.ltb_spec (byte_val c) 128); [reflexivity | lia].
Qed.

Lemma plain_no_newline (s : string) :
  plain s = true -> after_delim newline s = None.
Proof.
  induction s as [|c s IH]; simpl; [reflexivity|].
  unfold plain_byte. intros H.
  rewrite !andb_true_iff, negb_true_iff, Z.eqb_neq in H.
  destruct H as [[_ Hn] Hs]. rewrite IH by exact Hs.
  destruct (Ascii.eqb_spec c newline) as [-> | _]; [|reflexivity].
  exfalso. apply Hn. reflexivity.
Qed.

Lemma plain_one_line (s : string) :
  plain s = true -> one_line (s ++ String newline "").
Proof.
  intros H. exists s. split; [reflexivity | now apply plain_no_newline].
Qed.

(** An ASCII line is lowered byte by byte. *)
Lemma scanASCII_plain (s : string) : forall h,
  plain s = true ->
  exists h', scanASCII (s ++ String newline "") h = (true, h')
             /\ (h' = false ->
                 lowerASCII (s ++ String newline "") = s ++ String newline "").
Proof.
  induction s as [|c s IH]; intros h H.
  - exists (h || false). split; reflexivity.
  - simpl in H. apply andb_true_iff in H as [Hc Hs].
    unfold plain_byte in Hc. apply andb_true_iff in Hc as [Hc _].
    apply Z.ltb_lt in Hc.
    destruct (IH (h || isUpperASCII (byte_val c)) Hs) as (h' & E & Hl).
    exists h'. cbn [append scanASCII lowerASCII].
    destruct (Z.leb_spec RuneSelf (byte_val c)); [unfold RuneSelf in *; lia|].
    split; [exact E|]. intros Hh. rewrite (Hl Hh).
    assert (Hu : isUpperASCII (byte_val c) = false).
    { destruct (isUpperASCII (byte_val c)) eqn:Eu; [|reflexivity].
      exfalso. clear - E Hh Eu. subst h'. rewrite orb_true_r in E.
      revert E. generalize (s ++ String newline "").
      intros t. induction t as [|x t IHt]; simpl; [discriminate|].
      destruct (RuneSelf <=? byte_val x); [discriminate | exact IHt]. }
    rewrite Hu. reflexivity.
Qed.

Lemma ToLower_plain (mapToLower : string -> string) (s : string) :
  plain s = true ->
  ToLower mapToLower (s ++ String newline "")
  = lowerASCII (s ++ String newline "").
Proof.
  intros H. unfold ToLower.
  destruct (scanASCII_plain s false H) as (h' & -> & Hl).
  destruct h'; [reflexivity|]. simpl. symmetry. now apply Hl.
Qed.

Lemma lowerASCII_app (a b : string) :
  lowerASCII (a ++ b) = lowerASCII a ++ lowerASCII b.
Proof. induction a as [|c a IH]; simpl; [reflexivity | now rewrite IH]. Qed.

Lemma lowerASCII_blanks (a : string) : blanks a = true -> lowerASCII a = a.
Proof.
  induction a as [|c a IH]; simpl; [reflexivity|].
  intros H. rewrite !andb_true_iff in H. destruct H as [[Hs _] Ha].
  rewrite IH by exact Ha. unfold asciiSpace in Hs.
  rewrite !orb_true_iff, !Z.eqb_eq in Hs. unfold isUpperASCII.
  destruct (Z.leb_spec 65 (byte_val c)); [lia|]. reflexivity.
Qed.

(** A string that lowers to a plain one is plain. *)
Lemma lowerASCII_plain (s : string) :
  plain (lowerASCII s) = true -> plain s = true.
Proof.
  induction s as [|c s IH]; simpl; [reflexivity|].
  intros H. apply andb_true_iff in H as [Hc Hs].
  rewrite IH by exact Hs. rewrite andb_true_r.
  unfold isUpperASCII in Hc.
  destruct ((65 <=? byte_val c) && (byte_val c <=? 90)) eqn:Eu;
    [|exact Hc].
  apply andb_true_iff in Eu as [E1 E2]. apply Z.leb_le in E1, E2.
  unfold plain_byte.
  destruct (Z.ltb_spec (byte_val c) 128); [|lia].
  destruct (Z.eqb_spec (byte_val c) 10); [lia | reflexivity].
Qed.

Lemma white_space_app (a b : string) :
  white_space a -> white_space b -> white_space (a ++ b).
Proof.
  intros (ra & Ha & ->) (rb & Hb & ->). exists (ra ++ rb)%list. split.
  - apply Forall_app. split; assumption.
  - unfold string_of_runes at 3. rewrite fold_left_app.
    rewrite fold_WriteRune_acc. reflexivity.
Qed.

Lemma white_space_byte (c : ascii) :
  asciiSpace (byte_val c) = true -> white_space (String c "").
Proof.
  intros H. pose proof (byte_val_range c) as Hr.
  assert (Hc : byte_val c < 128).
  { unfold asciiSpace in H. rewrite !orb_true_iff, !Z.eqb_eq in H. lia. }
  exists [byte_val c]. split.
  - constructor; [|constructor]. rewrite IsSpace_ascii by lia. exact H.
  - rewrite string_of_runes_cons, EncodeRune_ascii by exact Hc. reflexivity.
Qed.

Lemma blanks_white_space (a : string) : blanks a = true -> white_space a.
Proof.
  induction a as [|c a IH]; simpl.
  - intros _. exists []. split; [constructor | reflexivity].
  - intros H. rewrite !andb_true_iff in H. destruct H as [[Hs _] Ha].
    change (String c a) with (String c "" ++ a).
    apply white_space_app; [now apply white_space_byte | now apply IH].
Qed.

End Lines.

(** ** The runs of the prompt for a choice *)

Section Choosing.
Import Go ClientMain.

Variable mapToLower : string -> string.

(** One turn of the loop of [promptChoice]. *)
Lemma promptChoice_step (w : World) :
  promptChoice mapToLower w
  = match ReadString newline (stdin w) with
    | None => (inr ErrReadChoice, with_stdin (Print w choicePrompt) "")
    | Some (line, rest) =>
      if invalidChoice (TrimSpace (ToLower mapToLower line))
      then promptChoice mapToLower
             (Println (with_stdin (Print w choicePrompt) rest) choiceInvalid)
      else (inl (TrimSpace (ToLower mapToLower line)),
            with_stdin (Print w choicePrompt) rest)
    end.
Proof.
  funelim (promptChoice mapToLower w).
  - match goal with E : ReadString _ _ = _ |- _ => rewrite E end. reflexivity.
  - match goal with E : ReadString _ _ = _ |- _ => rewrite E end.
    match goal with E : invalidChoice _ = _ |- _ => rewrite E end.
    reflexivity.
  - match goal with E : ReadString _ _ = _ |- _ => rewrite E end.
    match goal with E : invalidChoice _ = _ |- _ => rewrite E end.
    reflexivity.
Qed.

(** The run of [promptChoice] over lines it turns down. *)
Lemma promptChoice_rejects (rejected : list string) :
  Forall (fun l => one_line l
                   /\ ~ In (TrimSpace (ToLower mapToLower l)) choices)
         rejected ->
  forall (w : World) (tail : string),
    stdin w = String.concat "" rejected ++ tail ->
    promptChoice mapToLower w
    = promptChoice mapToLower
        (mkWorld (client w) tail (stdout w ++ rejections rejected)).
Proof.
  induction 1 as [|l ls [Hl Hn] _ IH]; intros w tail Hs.
  - simpl in Hs. unfold rejections. simpl. rewrite sapp_nil_r.
    destruct w as [c i o]. simpl in *. now subst.
  - rewrite concat_cons, sapp_assoc in Hs.
    rewrite promptChoice_step, Hs, (ReadString_one_line _ _ Hl).
    rewrite <- (invalidChoice_iff mapToLower) in Hn.
    destruct (invalidChoice _); [|congruence].
    rewrite (IH _ tail) by reflexivity. simpl.
    rewrite rejections_cons, !sapp_assoc. reflexivity.
Qed.

(** X11: [promptChoice] returns the first line of the input that spells
    a choice once it is lowered and trimmed.  Every line before it is
    answered with the prompt and the invalid-choice message, the prompt is
    printed once more for the line taken, the input after that line is
    left to be read, and the client is not touched. *)
Theorem promptChoice_takes_first_valid_line
        (w : World) (rejected : list string) (line rest : string) :
  stdin w = String.concat "" rejected ++ line ++ rest ->
  Forall (fun l => one_line l
                   /\ ~ In (TrimSpace (ToLower mapToLower l)) choices)
         rejected ->
  one_line line ->
  In (TrimSpace (ToLower mapToLower line)) choices ->
  promptChoice mapToLower w
  = (inl (TrimSpace (ToLower mapToLower line)),
     mkWorld (client w) rest
             (stdout w ++ rejections rejected ++ choicePrompt)).
Proof.
  intros Hs Hr Hl Hv.
  rewrite (promptChoice_rejects _ Hr w (line ++ rest) Hs).
  rewrite promptChoice_step. cbn [stdin].
  rewrite (ReadString_one_line _ _ Hl).
  apply (invalidChoice_iff mapToLower) in Hv. rewrite Hv.
  unfold with_stdin, Print. simpl. now rewrite sapp_assoc.
Qed.

(** X12: when the input ends before a line spells a choice,
    [promptChoice] returns its read error after the last prompt.  What
    stands after the last newline is not looked at, even if it spells a
    choice: all of the input is used up. *)
Theorem promptChoice_at_end_of_input
        (w : World) (rejected : list string) (tail : string) :
  stdin w = String.concat "" rejected ++ tail ->
  Forall (fun l => one_line l
                   /\ ~ In (TrimSpace (ToLower mapToLower l)) choices)
         rejected ->
  after_delim newline tail = None ->
  promptChoice mapToLower w
  = (inr ErrReadChoice,
     mkWorld (client w) ""
             (stdout w ++ rejections rejected ++ choicePrompt)).
Proof.
  intros Hs Hr Ht.
  rewrite (promptChoice_rejects _ Hr w tail Hs).
  rewrite promptChoice_step. cbn [stdin].
  rewrite (ReadString_no_delim _ _ Ht).
  unfold with_stdin, Print. simpl. now rewrite sapp_assoc.
Qed.

(** What [promptChoice] makes of a line with a choice in any capitals and
    blanks around it. *)
Lemma choice_line_normal (a core b : string) :
  blanks a = true -> blanks b = true -> In (lowerASCII core) choices ->
  one_line (a ++ core ++ b ++ String newline "")
  /\ TrimSpace (ToLower mapToLower (a ++ core ++ b ++ String newline ""))
     = lowerASCII core.
Proof.
  intros Ha Hb Hc.
  assert (Hp : plain core = true).
  { apply lowerASCII_plain. apply In_choices in Hc.
    destruct Hc as [-> | [-> | ->]]; reflexivity. }
  assert (Hl : plain (a ++ core ++ b) = true).
  { rewrite !plain_app, Hp, !blanks_plain by assumption. reflexivity. }
  replace (a ++ core ++ b ++ String newline "")
    with ((a ++ core ++ b) ++ String newline "")
    by (now rewrite !sapp_assoc).
  split; [now apply plain_one_line|].
  rewrite ToLower_plain by exact Hl.
  rewrite !lowerASCII_app.
  rewrite (lowerASCII_blanks a), (lowerASCII_blanks b) by assumption.
  rewrite !sapp_assoc.
  rewrite TrimSpace_around.
  - apply In_choices in Hc. destruct Hc as [-> | [-> | ->]];
      vm_compute; reflexivity.
  - now apply blanks_white_space.
  - apply white_space_app; [now apply blanks_white_space|].
    apply white_space_byte. reflexivity.
Qed.

(** X13: [promptChoice] takes a choice in any mix of capitals and small
    letters, with blanks (spaces, tabs, a carriage return before the
    newline) before and after it, and returns it in small letters. *)
Theorem promptChoice_ignores_case_and_blanks
        (w : World) (a core b rest : string) :
  stdin w = a ++ core ++ b ++ String newline rest ->
  blanks a = true -> blanks b = true -> In (lowerASCII core) choices ->
  promptChoice mapToLower w
  = (inl (lowerASCII core),
     mkWorld (client w) rest (stdout w ++ choicePrompt)).
Proof.
  intros Hs Ha Hb Hc.
  destruct (choice_line_normal a core b Ha Hb Hc) as [Hl Hn].
  rewrite promptChoice_step, Hs.
  replace (a ++ core ++ b ++ String newline rest)
    with ((a ++ core ++ b ++ String newline "") ++ rest)
    by (rewrite !sapp_assoc; reflexivity).
  rewrite (ReadString_one_line _ _ Hl), Hn.
  apply (invalidChoice_iff mapToLower) in Hc. rewrite Hc. reflexivity.
Qed.

End Choosing.

Lemma promptChoice_takes_first_valid_line_witness :
  let nl := String Go.newline "" in
  let w := ClientMain.mkWorld
             (ClientMain.mkClient (Go.mkConn [] "" false) "localhost" "8080")
             ("lizard" ++ nl ++ nl ++ "paper" ++ nl ++ "rock" ++ nl) "" in
  ClientMain.promptChoice (fun s => s) w
  = (inl "paper",
     ClientMain.mkWorld (ClientMain.client w) ("rock" ++ nl)
       (rejections ["lizard" ++ nl; nl] ++ ClientMain.choicePrompt)).
Proof.
  intros nl w.
  apply (promptChoice_takes_first_valid_line
           (fun s => s) w ["lizard" ++ nl; nl] ("paper" ++ nl) ("rock" ++ nl)).
  - reflexivity.
  - repeat constructor.
    + exists "lizard". split; reflexivity.
    + vm_compute. intros [H | [H | [H | []]]]; discriminate.
    + exists "". split; reflexivity.
    + vm_compute. intros [H | [H | [H | []]]]; discriminate.
  - exists "paper". split; reflexivity.
  - vm_compute. auto.
Defined.

Lemma promptChoice_at_end_of_input_witness :
  let nl := String Go.newline "" in
  let w := ClientMain.mkWorld
             (ClientMain.mkClient (Go.mkConn [] "" false) "localhost" "8080")
             ("lizard" ++ nl ++ "rock") "" in
  ClientMain.promptChoice (fun s => s) w
  = (inr ClientMain.ErrReadChoice,
     ClientMain.mkWorld (ClientMain.client w) ""
       (rejections ["lizard" ++ nl] ++ ClientMain.choicePrompt)).
Proof.
  intros nl w.
  apply (promptChoice_at_end_of_input
           (fun s => s) w ["lizard" ++ nl] "rock").
  - reflexivity.
  - repeat constructor.
    + exists "lizard". split; reflexivity.
    + vm_compute. intros [H | [H | [H | []]]]; discriminate.
  - reflexivity.
Defined.

Lemma promptChoice_ignores_case_and_blanks_witness :
  let tab := String (Go.byte 0x09) "" in
  let cr := String (Go.byte 0x0D) "" in
  let w := ClientMain.mkWorld
             (ClientMain.mkClient (Go.mkConn [] "" false) "localhost" "8080")
             (tab ++ "PaPeR" ++ " " ++ cr ++ String Go.newline "rock") "" in
  ClientMain.promptChoice (fun s => s) w
  = (inl "paper",
     ClientMain.mkWorld (ClientMain.client w) "rock" ClientMain.choicePrompt).
Proof.
  intros tab cr w.
  apply (promptChoice_ignores_case_and_blanks
           (fun s => s) w tab "PaPeR" (" " ++ cr) "rock").
  - reflexivity.
  - reflexivity.
  - reflexivity.
  - simpl. auto.
Defined.

(** ** The client against a server *)

Section Playing.
Import Go ClientMain.

(** [ReceiveMessage] gives an error, whatever arrives. *)
Lemma ReceiveMessage_error (conn : Go.Conn) :
  exists e, Rps.ReceiveMessage conn = (inr e, snd (Rps.ReceiveMessage conn)).
Proof.
  destruct (ReceiveMessage_fails conn) as (e & He & _). exists e.
  destruct (Rps.ReceiveMessage conn) as [r c]. simpl in *. now subst.
Qed.

Lemma promptNickname_step (w : World) :
  promptNickname w
  = match nicknameTurn w with
    | inl result => result
    | inr w' => promptNickname w'
    end.
Proof.
  funelim (promptNickname w);
    match goal with E : nicknameTurn _ = _ |- _ => rewrite E end;
    reflexivity.
Qed.

(** One turn of [promptNickname] on a line that is not blank. *)
Lemma nicknameTurn_sends (w : World) (line rest : string) :
  ReadString newline (stdin w) = Some (line, rest) ->
  TrimSpace line <> "" ->
  let conn := Conn (client w) in
  let w1 := with_stdin (Print w nicknamePrompt) rest in
  if broken conn
  then exists e, nicknameTurn w = inl (inr (ErrSendNickname e), w1)
  else exists e,
      nicknameTurn w
      = inl (inr (ErrNicknameResponse e),
             with_conn w1
               (snd (Rps.ReceiveMessage
                       (mkConn (incoming conn)
                               (written conn
                                ++ Rps.frame (Rps.Encrypt (TrimSpace line)))
                               false)))).
Proof.
  intros Hr Hn. cbv zeta. unfold nicknameTurn. rewrite Hr.
  destruct (String.eqb_spec (TrimSpace line) ""); [contradiction|].
  unfold Rps.SendMessage. cbn [with_stdin Print client Conn].
  destruct (broken (Conn (client w))) eqn:Hb.
  - eexists. unfold with_conn, with_stdin, Print. cbn.
    destruct w as [[c h p] i o]. cbn. reflexivity.
  - match goal with
    | |- context [Rps.ReceiveMessage ?c] =>
        destruct (ReceiveMessage_error c) as (e & He)
    end.
    exists e. rewrite He. reflexivity.
Qed.

Lemma nicknameTurn_blank (w : World) (line rest : string) :
  ReadString newline (stdin w) = Some (line, rest) ->
  TrimSpace line = "" ->
  nicknameTurn w
  = inr (Println (with_stdin (Print w nicknamePrompt) rest) nicknameEmpty).
Proof.
  intros Hr Hn. unfold nicknameTurn. rewrite Hr, Hn. reflexivity.
Qed.

Lemma nicknameTurn_eof (w : World) :
  ReadString newline (stdin w) = None ->
  nicknameTurn w
  = inl (inr ErrReadNickname, with_stdin (Print w nicknamePrompt) "").
Proof. intros Hr. unfold nicknameTurn. rewrite Hr. reflexivity. Qed.

(** X14: [promptNickname] never returns a nickname: every run ends with
    an error, because [ReceiveMessage] never hands over the server's
    answer.  It writes to the connection at most once, the frame of a
    trimmed input line that is not empty, and leaves host and port as
    they are. *)
Theorem promptNickname_never_accepts (w : World) :
  forall r w',
    promptNickname w = (r, w') ->
    (exists err, r = inr err)
    /\ Hostname (client w') = Hostname (client w)
    /\ Port (client w') = Port (client w)
    /\ (written (Conn (client w')) = written (Conn (client w))
        \/ exists line,
            TrimSpace line <> ""
            /\ written (Conn (client w'))
               = written (Conn (client w))
                 ++ Rps.frame (Rps.Encrypt (TrimSpace line))).
Proof.
  funelim (promptNickname w); intros r w1 Hp;
    repeat match goal with
           | Hc : _ = promptNickname _ |- _ => clear Hc
           | Hc : sigmaI _ _ _ = _ |- _ => clear Hc
           end;
    match goal with E : nicknameTurn _ = _ |- _ => rename E into Et end.
  - subst result.
    destruct (ReadString newline (stdin w)) as [[line rest]|] eqn:Hr.
    + destruct (String.eqb_spec (TrimSpace line) "") as [Hb | Hb].
      * rewrite (nicknameTurn_blank _ _ _ Hr Hb) in Et. discriminate Et.
      * pose proof (nicknameTurn_sends _ _ _ Hr Hb) as Hs. cbv zeta in Hs.
        destruct (broken (Conn (client w))) eqn:Hbr;
          destruct Hs as (err & Hs);
          rewrite Hs in Et; inversion Et; subst; clear Et.
        -- split; [eauto|]. repeat split. left. reflexivity.
        -- split; [eauto|]. repeat split. right. exists line.
           split; [exact Hb|]. cbn [with_conn client Conn].
           rewrite ReceiveMessage_written. reflexivity.
    + rewrite (nicknameTurn_eof _ Hr) in Et. inversion Et; subst; clear Et.
      split; [eauto|]. repeat split. left. reflexivity.
  - match goal with
    | IH : forall _ _, _ -> _ |- _ =>
        destruct (IH _ _ Hp) as (He & Hh & Hpo & Hw)
    end.
    assert (Hc : client w' = client w).
    { destruct (ReadString newline (stdin w)) as [[line rest]|] eqn:Hr.
      - destruct (String.eqb_spec (TrimSpace line) "") as [Hb | Hb].
        + rewrite (nicknameTurn_blank _ _ _ Hr Hb) in Et.
          inversion Et; subst; clear Et. reflexivity.
        + pose proof (nicknameTurn_sends _ _ _ Hr Hb) as Hs. cbv zeta in Hs.
          destruct (broken (Conn (client w)));
            destruct Hs as (err & Hs); rewrite Hs in Et; discriminate Et.
      - rewrite (nicknameTurn_eof _ Hr) in Et. discriminate Et. }
    rewrite Hc in *. repeat split; assumption.
Qed.

Lemma promptNickname_never_accepts_witness :
  let nl := String newline "" in
  let w := mkWorld (mkClient (mkConn ["⚠VWDUW☠" ++ nl] "" false)
                             "localhost" "8080")
                   ("tyler" ++ nl) "" in
  exists err w',
    promptNickname w = (inr err, w')
    /\ Hostname (client w') = "localhost" /\ Port (client w') = "8080".
Proof.
  intros nl w.
  destruct (promptNickname w) as [r w'] eqn:E.
  destruct (promptNickname_never_accepts w r w' E)
    as ((err & ->) & Hh & Hp & _).
  exists err, w'. split; [reflexivity|]. split; [exact Hh | exact Hp].
Defined.

Lemma blank_nicknames_cons (l : string) (ls : list string) :
  blank_nicknames (l :: ls)
  = nicknamePrompt ++ nicknameEmpty ++ String newline ""
    ++ blank_nicknames ls.
Proof.
  unfold blank_nicknames. cbn [map]. rewrite concat_cons.
  now rewrite !sapp_assoc.
Qed.

(** The run of [promptNickname] over blank lines. *)
Lemma promptNickname_blanks (blank : list string) :
  Forall (fun l => one_line l /\ TrimSpace l = "") blank ->
  forall (w : World) (tail : string),
    stdin w = String.concat "" blank ++ tail ->
    promptNickname w
    = promptNickname
        (mkWorld (client w) tail (stdout w ++ blank_nicknames blank)).
Proof.
  induction 1 as [|l ls [Hl Hn] _ IH]; intros w tail Hs.
  - simpl in Hs. unfold blank_nicknames. simpl. rewrite sapp_nil_r.
    destruct w as [c i o]. simpl in *. now subst.
  - rewrite concat_cons, sapp_assoc in Hs.
    rewrite promptNickname_step.
    rewrite (nicknameTurn_blank w l (String.concat "" ls ++ tail));
      [|rewrite Hs; now apply ReadString_one_line | exact Hn].
    rewrite (IH _ tail) by reflexivity. simpl.
    rewrite blank_nicknames_cons, !sapp_assoc. reflexivity.
Qed.

(** X15: [promptNickname] sends no blank nickname.  Every line that is
    empty after trimming is answered with the message that the nickname
    cannot be empty and a new prompt, and nothing is written for it; the
    first other line is trimmed and sent in one frame, after which the
    function returns the error of the answer it could not receive. *)
Theorem promptNickname_skips_blank_lines
        (w : World) (blank : list string) (line rest : string) :
  stdin w = String.concat "" blank ++ line ++ rest ->
  Forall (fun l => one_line l /\ TrimSpace l = "") blank ->
  one_line line -> TrimSpace line <> "" ->
  broken (Conn (client w)) = false ->
  exists e conn',
    promptNickname w
    = (inr (ErrNicknameResponse e),
       mkWorld (mkClient conn' (Hostname (client w)) (Port (client w)))
               rest (stdout w ++ blank_nicknames blank ++ nicknamePrompt))
    /\ written conn'
       = written (Conn (client w))
         ++ Rps.frame (Rps.Encrypt (TrimSpace line)).
Proof.
  intros Hs Hb Hl Hn Hbr.
  rewrite (promptNickname_blanks _ Hb w (line ++ rest) Hs).
  rewrite promptNickname_step.
  match goal with
  | |- context [nicknameTurn ?v] =>
      pose proof (nicknameTurn_sends v line rest) as Ht
  end.
  cbn [stdin client] in Ht.
  specialize (Ht (ReadString_one_line _ _ Hl) Hn). cbv zeta in Ht.
  rewrite Hbr in Ht. destruct Ht as (e & ->).
  eexists e, _. split.
  - unfold with_conn, with_stdin, Print. cbn. rewrite sapp_assoc.
    reflexivity.
  - rewrite ReceiveMessage_written. reflexivity.
Qed.

Lemma promptNickname_skips_blank_lines_witness :
  let nl := String newline "" in
  let w := mkWorld (mkClient (mkConn [] "" false) "localhost" "8080")
                   (nl ++ "  " ++ nl ++ " tyler " ++ nl ++ "rock" ++ nl) "" in
  exists e conn',
    promptNickname w
    = (inr (ErrNicknameResponse e),
       mkWorld (mkClient conn' "localhost" "8080") ("rock" ++ nl)
               (blank_nicknames [nl; "  " ++ nl] ++ nicknamePrompt))
    /\ written conn' = Rps.frame (Rps.Encrypt "tyler").
Proof.
  intros nl w.
  destruct (promptNickname_skips_blank_lines
              w [nl; "  " ++ nl] (" tyler " ++ nl) ("rock" ++ nl))
    as (e & conn' & Hp & Hw).
  - reflexivity.
  - repeat constructor.
    + exists "". split; reflexivity.
    + exists "  ". split; reflexivity.
  - exists " tyler ". split; reflexivity.
  - vm_compute. discriminate.
  - reflexivity.
  - exists e, conn'. split; [exact Hp|]. rewrite Hw. vm_compute. reflexivity.
Defined.

Section Game.

Variable mapToLower : string -> string.

Lemma gameLoop_step (w : World) :
  gameLoop mapToLower w
  = match gameTurn mapToLower w with
    | inl result => result
    | inr w' => gameLoop mapToLower w'
    end.
Proof.
  funelim (gameLoop mapToLower w);
    match goal with E : gameTurn _ _ = _ |- _ => rewrite E end;
    reflexivity.
Qed.

(** What [promptChoice] prints, whether it returns a choice or not. *)
Lemma promptChoice_output (w : World) : forall r w',
  promptChoice mapToLower w = (r, w') ->
  exists rejected,
    stdout w' = stdout w ++ rejections rejected ++ choicePrompt.
Proof.
  funelim (promptChoice mapToLower w); intros r w' Hp.
  - inversion Hp; subst. exists []. reflexivity.
  - match goal with
    | IH : forall _ _, _ -> exists _, _ |- _ =>
        destruct (IH _ _ Hp) as (rej & Ho)
    end.
    exists (line :: rej). rewrite Ho. simpl.
    rewrite rejections_cons, !sapp_assoc. reflexivity.
  - inversion Hp; subst. exists []. reflexivity.
Qed.

(** Every turn of [gameLoop] leaves the loop with an error. *)
Lemma gameTurn_stops (w : World) :
  exists e w1,
    gameTurn mapToLower w = inl (Some e, w1)
    /\ (exists rejected,
           stdout w1 = stdout w ++ rejections rejected ++ choicePrompt)
    /\ Hostname (client w1) = Hostname (client w)
    /\ Port (client w1) = Port (client w)
    /\ (written (Conn (client w1)) = written (Conn (client w))
        \/ exists choice,
            In choice choices
            /\ written (Conn (client w1))
               = written (Conn (client w))
                 ++ Rps.frame (Rps.Encrypt choice)).
Proof.
  unfold gameTurn.
  destruct (promptChoice mapToLower w) as [[choice|err] w1] eqn:Hp.
  2:{ exists err, w1. pose proof (promptChoice_output _ _ _ Hp) as Ho.
      apply promptChoice_client in Hp as [Hc _]. rewrite Hc.
      repeat split; auto. }
  pose proof (promptChoice_output _ _ _ Hp) as Ho.
  pose proof (promptChoice_accepts _ _ _ _ Hp) as [Hin _].
  apply promptChoice_client in Hp as [Hc _].
  unfold Rps.SendMessage. rewrite Hc.
  destruct (broken (Conn (client w))) eqn:Hb.
  - eexists _, _. split; [reflexivity|].
    cbn [with_conn stdout client Conn Hostname Port]. rewrite Hc.
    repeat split; auto.
  - match goal with
    | |- context [Rps.ReceiveMessage ?c] =>
        destruct (ReceiveMessage_error c) as (e & He);
        pose proof (ReceiveMessage_written c) as Hw
    end.
    rewrite He. eexists _, _. split; [reflexivity|].
    cbn [with_conn stdout client Conn Hostname Port]. rewrite Hc.
    repeat split; auto. right. exists choice. split; [exact Hin|].
    rewrite Hw. reflexivity.
Qed.

(** X16: [gameLoop] never returns [nil] and never gets to a second
    round: it ends with an error in its first turn, having written to the
    connection nothing or the frame of one choice, and having printed
    prompts and invalid-choice messages only, never a round result or a
    final score. *)
Theorem gameLoop_never_completes (w : World) :
  forall r w',
    gameLoop mapToLower w = (r, w') ->
    (exists e, r = Some e)
    /\ (exists rejected,
           stdout w' = stdout w ++ rejections rejected ++ choicePrompt)
    /\ (written (Conn (client w')) = written (Conn (client w))
        \/ exists choice,
            In choice choices
            /\ written (Conn (client w'))
               = written (Conn (client w))
                 ++ Rps.frame (Rps.Encrypt choice)).
Proof.
  intros r w' Hg. rewrite gameLoop_step in Hg.
  destruct (gameTurn_stops w) as (e & w1 & Ht & Ho & _ & _ & Hw).
  rewrite Ht in Hg. inversion Hg; subst. split; [eauto|]. split; assumption.
Qed.

(** X17: [Start] never gets to the nickname.  When the dial fails it
    returns the connection error for the address [net.JoinHostPort] made
    and prints nothing.  When the dial succeeds it prints that it is
    connected and returns the error of the first [ReceiveMessage]: it
    reads no input, prints nothing else and writes nothing to the
    connection. *)
Theorem Start_never_plays (dial : string -> option Go.Conn) (w : World) :
  let address := JoinHostPort (Hostname (client w)) (Port (client w)) in
  (dial address = None ->
   Start mapToLower dial w = (Some (ErrConnect address), w))
  /\ (forall conn,
         dial address = Some conn ->
         exists e,
           fst (Rps.ReceiveMessage conn) = inr e
           /\ Start mapToLower dial w
              = (Some (ErrInitial e),
                 mkWorld (mkClient (snd (Rps.ReceiveMessage conn))
                                   (Hostname (client w)) (Port (client w)))
                         (stdin w)
                         (stdout w ++ connectedBanner ++ String newline ""))
           /\ written (snd (Rps.ReceiveMessage conn)) = written conn).
Proof.
  cbv zeta. unfold Start. split.
  - intros ->. reflexivity.
  - intros conn ->. destruct (ReceiveMessage_error conn) as (e & He).
    exists e. cbn [Println Print with_conn client Conn stdin stdout].
    rewrite He. cbn [fst snd]. split; [reflexivity|].
    split; [reflexivity | apply ReceiveMessage_written].
Qed.

End Game.

End Playing.

Lemma gameLoop_never_completes_witness :
  let w := ClientMain.mkWorld
             (ClientMain.mkClient (Go.mkConn [] "" false) "localhost" "8080")
             ("lizard" ++ String Go.newline ""
              ++ "Rock" ++ String Go.newline "") "" in
  exists e w',
    ClientMain.gameLoop (fun s => s) w = (Some e, w')
    /\ Go.written (ClientMain.Conn (ClientMain.client w'))
       = Rps.frame (Rps.Encrypt "rock").
Proof.
  intros w.
  destruct (ClientMain.gameLoop (fun s => s) w) as [r w'] eqn:E.
  destruct (gameLoop_never_completes (fun s => s) w r w' E)
    as ((e & ->) & _ & _).
  exists e, w'. split; [reflexivity|].
  vm_compute in E. inversion E. reflexivity.
Defined.

Lemma Start_never_plays_witness :
  let nl := String Go.newline "" in
  let ready := Go.mkConn ["⚠UHDG\☠" ++ nl] "" false in
  let w := ClientMain.mkWorld
             (ClientMain.mkClient (Go.mkConn [] "" true) "::1" "8080")
             ("tyler" ++ nl) "" in
  ClientMain.Start (fun s => s) (fun _ => None) w
  = (Some (ClientMain.ErrConnect "[::1]:8080"), w)
  /\ exists e conn',
      ClientMain.Start (fun s => s) (fun _ => Some ready) w
      = (Some (ClientMain.ErrInitial e),
         ClientMain.mkWorld (ClientMain.mkClient conn' "::1" "8080")
           ("tyler" ++ nl) (ClientMain.connectedBanner ++ nl))
      /\ Go.written conn' = "".
Proof.
  intros nl ready w.
  destruct (Start_never_plays (fun s => s) (fun _ => None) w) as [Hn _].
  destruct (Start_never_plays (fun s => s) (fun _ => Some ready) w)
    as [_ Hy].
  split; [apply Hn; reflexivity|].
  destruct (Hy ready eq_refl) as (e & _ & Hs & Hw).
  exists e, (snd (Rps.ReceiveMessage ready)). split; [exact Hs | exact Hw].
Defined.
